(** * oapi-codegen-validator: the enricher (cmd/oapi-codegen-validator/main.go)
      and the generic traversal (internal/tree/traversal.go)

    A shallow embedding of the Go code and the properties of its rule
    generator, rule merger, traversal and enrichment pass.

    Conventions.
    - A Go [string] is a [string] of bytes.
    - A Go map that the code only looks up and updates (the extension maps,
      [existingKeys]) is a [gmap]; a Go map that the code ranges over
      ([Schemas], [Properties]) is the list of its entries in the order in
      which the [range] statement delivers them.
    - Pointers are locations of a heap.  Go maps are references as well, so
      the [map[string]any] values live in the heap too.
    - A Go [error] is an [option error]; [None] is [nil]. *)

From Stdlib Require Import String Ascii NArith ZArith List DecimalString
  DecimalN Lia.
From stdpp Require Import gmap strings list.

Open Scope string_scope.
Open Scope list_scope.

(** ** The [strings] and [fmt] functions the enricher calls *)

Definition byte (c : ascii) : nat := nat_of_ascii c.

(** [asciiSpace]: tab, line feed, vertical tab, form feed, carriage
    return and space. *)
Definition asciiSpace (c : ascii) : bool :=
  ((9 <=? byte c)%nat && (byte c <=? 13)%nat) || (byte c =? 32)%nat.

(** The last byte of the three-byte white space runes that start with
    [E2 80]: U+2000..U+200A, U+2028, U+2029 and U+202F. *)
Definition generalPunctuationSpace (c : ascii) : bool :=
  ((128 <=? byte c)%nat && (byte c <=? 138)%nat)
  || (byte c =? 168)%nat || (byte c =? 169)%nat || (byte c =? 175)%nat.

(** The number of bytes of the white space rune that [bs] starts with, 0
    when it starts with none.  White space, as [unicode.IsSpace] defines
    it, is the six ASCII characters and the runes U+0085, U+00A0, U+1680,
    U+2000..U+200A, U+2028, U+2029, U+202F, U+205F and U+3000, here in
    their UTF-8 encoding. *)
Definition spaceWidth (bs : list ascii) : nat :=
  match bs with
  | c :: r1 =>
      if asciiSpace c then 1 else
      match r1 with
      | d :: r2 =>
          if (byte c =? 194)%nat && ((byte d =? 133)%nat || (byte d =? 160)%nat)
          then 2 else
          match r2 with
          | e :: _ =>
              if ((byte c =? 225)%nat && (byte d =? 154)%nat && (byte e =? 128)%nat)
                 || ((byte c =? 226)%nat && (byte d =? 128)%nat && generalPunctuationSpace e)
                 || ((byte c =? 226)%nat && (byte d =? 129)%nat && (byte e =? 159)%nat)
                 || ((byte c =? 227)%nat && (byte d =? 128)%nat && (byte e =? 128)%nat)
              then 3 else 0
          | [] => 0
          end
      | [] => 0
      end
  | [] => 0
  end.

(** The same for the white space rune that a string ends with, on the
    bytes of the string from last to first. *)
Definition spaceWidthRev (bs : list ascii) : nat :=
  match bs with
  | e :: r1 =>
      if asciiSpace e then 1 else
      match r1 with
      | d :: r2 =>
          if (byte d =? 194)%nat && ((byte e =? 133)%nat || (byte e =? 160)%nat)
          then 2 else
          match r2 with
          | c :: _ =>
              if ((byte c =? 225)%nat && (byte d =? 154)%nat && (byte e =? 128)%nat)
                 || ((byte c =? 226)%nat && (byte d =? 128)%nat && generalPunctuationSpace e)
                 || ((byte c =? 226)%nat && (byte d =? 129)%nat && (byte e =? 159)%nat)
                 || ((byte c =? 227)%nat && (byte d =? 128)%nat && (byte e =? 128)%nat)
              then 3 else 0
          | [] => 0
          end
      | [] => 0
      end
  | [] => 0
  end.

(** The loop of [TrimLeftFunc] and [TrimRightFunc]: runes are dropped as
    long as [width] finds one to drop.  [n] bounds the number of turns;
    the length of [bs] is enough. *)
Fixpoint trimWhile (width : list ascii → nat) (n : nat) (bs : list ascii)
    : list ascii :=
  match n with
  | O => bs
  | S n =>
      match width bs with
      | O => bs
      | w => trimWhile width n (drop w bs)
      end
  end.

Definition trimSpaceBytes (bs : list ascii) : list ascii :=
  let bs := trimWhile spaceWidth (length bs) bs in
  let rs := reverse bs in
  reverse (trimWhile spaceWidthRev (length rs) rs).

(** [strings.TrimSpace]: the white space at the start and at the end of
    the string is removed. *)
Definition strings_TrimSpace (s : string) : string :=
  string_of_list_ascii (trimSpaceBytes (list_ascii_of_string s)).

(** [strings.SplitSeq(s, sep)] for a separator of one byte: the pieces of
    [s] between the separators, one more than there are separators. *)
Fixpoint strings_SplitSeq (s : string) (sep : ascii) : list string :=
  match s with
  | EmptyString => [""]
  | String c r =>
      if Ascii.eqb c sep then "" :: strings_SplitSeq r sep else
      match strings_SplitSeq r sep with
      | p :: ps => String c p :: ps
      | [] => [String c ""]
      end
  end.

(** [strings.Join(elems, sep)]. *)
Definition strings_Join (elems : list string) (sep : string) : string :=
  String.concat sep elems.

(** [strings.Index(s, substr)]: the index of the first instance of
    [substr] in [s], or [None] where Go returns -1. *)
Definition strings_Index (s substr : string) : option nat := String.index 0 substr s.

(** [slices.Contains]. *)
Definition slices_Contains (l : list string) (x : string) : bool :=
  existsb (String.eqb x) l.

(** [fmt.Sprintf("%d", n)] for an unsigned integer. *)
Definition fmt_d (n : N) : string := NilEmpty.string_of_uint (N.to_uint n).

(** ** Errors *)

(** The errors of the enricher, by the call that builds them. *)
#[warnings="-register-all"]
Inductive error : Type :=
| errMultipleOf
    (* fmt.Errorf("validation keyword 'multipleOf' is not supported by auto-enricher") *)
| errPattern (pattern : string) (cause : string)
    (* fmt.Errorf("validation keyword 'pattern' '%s' is not a valid Go RE2 regex: %w", ...) *)
| errConflict (existingTag tag : string)
    (* fmt.Errorf("conflict: manual tag '%s' differs from generated tag '%s'", ...) *)
| errProperty (ctxName propName : string) (err : error)
    (* fmt.Errorf("property %s.%s: %w", ctx.Name, propName, err) *)
| errJoin (errs : list error).
    (* errors.Join: a joinError *)

(** [errors.Join(errs...)]: the nil errors are dropped; [nil] when none is
    left, otherwise one [joinError] of the others, not flattened. *)
Definition errors_Join (errs : list (option error)) : option error :=
  match omap id errs with
  | [] => None
  | es => Some (errJoin es)
  end.

(** The method [Error()]: the message of an error.  A [joinError] prints the
    messages of its errors, one per line. *)
Fixpoint Error (e : error) : string :=
  match e with
  | errMultipleOf =>
      "validation keyword 'multipleOf' is not supported by auto-enricher"
  | errPattern pattern cause =>
      "validation keyword 'pattern' '" +:+ pattern
        +:+ "' is not a valid Go RE2 regex: " +:+ cause
  | errConflict existingTag tag =>
      "conflict: manual tag '" +:+ existingTag
        +:+ "' differs from generated tag '" +:+ tag +:+ "'"
  | errProperty ctxName propName err =>
      "property " +:+ ctxName +:+ "." +:+ propName +:+ ": " +:+ Error err
  | errJoin errs =>
      String.concat (String (ascii_of_nat 10) "") (List.map Error errs)
  end.

(** The errors gathered in [e], from left to right: what remains once the
    wrapping by [errors.Join] is removed. *)
Fixpoint joined (e : error) : list error :=
  match e with
  | errJoin errs => List.concat (List.map joined errs)
  | _ => [e]
  end.

Inductive result (A : Type) : Type :=
| Ok (a : A)
| Err (e : error).
Arguments Ok {A} a.
Arguments Err {A} e.

(** ** The rule merger *)

(** [getTagKey]: what stands before the first [=], or the whole tag. *)
Definition getTagKey (tag : string) : string :=
  match strings_Index tag "=" with
  | Some idx => String.substring 0 idx tag
  | None => tag
  end.

(** The first loop of [mergeRules], over [existingRules]: [rules] and
    [existingKeys] are the two variables it updates. *)
Fixpoint mergeRules_existing (existingRules rules : list string)
    (existingKeys : gmap string string) : list string * gmap string string :=
  match existingRules with
  | [] => (rules, existingKeys)
  | part :: rest =>
      let part := strings_TrimSpace part in
      if String.eqb part "" then mergeRules_existing rest rules existingKeys
      else mergeRules_existing rest (rules ++ [part])
             (<[getTagKey part := part]> existingKeys)
  end.

(** The second loop of [mergeRules], over [newRules]. *)
Fixpoint mergeRules_new (newRules rules : list string)
    (existingKeys : gmap string string) : result (list string) :=
  match newRules with
  | [] => Ok rules
  | tag :: rest =>
      let key := getTagKey tag in
      match existingKeys !! key with
      | Some existingTag =>
          if negb (String.eqb existingTag tag)
          then Err (errConflict existingTag tag)
          else mergeRules_new rest rules existingKeys
      | None =>
          mergeRules_new rest (rules ++ [tag]) (<[key := tag]> existingKeys)
      end
  end.

Definition mergeRules (existingRules newRules : list string) : result (list string) :=
  let '(rules, existingKeys) := mergeRules_existing existingRules [] ∅ in
  mergeRules_new newRules rules existingKeys.

(** ** Effects: a state, nil dereferences, and bounded recursion *)

(** How a call ends.  [NilDeref] is the panic of Go on a nil pointer;
    [OutOfFuel] says that the bound on the depth of the recursion of
    [PreOrder] was reached before the call returned. *)
Inductive outcome (A : Type) : Type :=
| Done (a : A)
| NilDeref
| OutOfFuel.
Arguments Done {A} a.
Arguments NilDeref {A}.
Arguments OutOfFuel {A}.

(** A call that reads and writes a state of type [St] and returns an [A]. *)
Definition action (St A : Type) : Type := St → outcome (A * St).

#[global] Instance action_ret {St} : MRet (action St) :=
  λ A a s, Done (a, s).

#[global] Instance action_bind {St} : MBind (action St) :=
  λ A B f m s,
    match m s with
    | Done (a, s') => f a s'
    | NilDeref => NilDeref
    | OutOfFuel => OutOfFuel
    end.

Definition panic {St A} : action St A := λ _, NilDeref.
Definition diverge {St A} : action St A := λ _, OutOfFuel.

(** ** Iterators: [iter.Seq] *)

(** [iter.Seq[T]] is [func(yield func(T) bool)].  The loop
    [for x := range seq { body }] calls [seq] with its body as [yield]; the
    body returns [false] to stop the iteration ([break], [return]).  [L] is
    the type of the variables of the enclosing function that the body
    updates. *)
Definition Seq (St T : Type) : Type :=
  ∀ L : Type, (T → L → action St (bool * L)) → L → action St L.

(** [for _, x := range xs { body }] over a slice, or over the entries of a
    map in the order in which they are delivered. *)
Fixpoint range {St A L : Type} (xs : list A)
    (body : A → L → action St (bool * L)) (l : L) : action St L :=
  match xs with
  | [] => mret l
  | x :: xs =>
      '(more, l) ← body x l;
      if more : bool then range xs body l else mret l
  end.

(** The iterator over the elements of a list ([slices.Values]). *)
Definition Values {St T : Type} (xs : list T) : Seq St T :=
  λ L yield l, range xs yield l.

(** ** internal/tree: [PreOrder] *)

Section tree.
Context {St T : Type}.

(** The closure [walk] of [PreOrder].  It calls itself, with no measure
    that decreases: [fuel] bounds the depth of the calls. *)
Fixpoint walk (fuel : nat) (getChildren : T → Seq St T) {L : Type}
    (yield : T → L → action St (bool * L)) (n : T) (l : L)
    : action St (bool * L) :=
  match fuel with
  | O => diverge
  | S fuel =>
      '(more, l) ← yield n l;
      if negb more then mret (false, l) else
      (* [for child := range getChildren(n)]: [ret] holds what the loop
         makes [walk] return. *)
      getChildren n (bool * L)%type
        (λ child '(ret, l),
           '(more, l) ← walk fuel getChildren yield child l;
           if negb more then mret (false, (false, l))
           else mret (true, (ret, l)))
        (true, l)
  end.

Definition PreOrder (fuel : nat) (roots : Seq St T)
    (getChildren : T → Seq St T) : Seq St T :=
  λ L yield l,
    roots L (λ root l, walk fuel getChildren yield root l) l.

End tree.

(** ** The document: openapi3 values in a heap *)

Definition loc : Type := positive.
Bind Scope positive_scope with loc.

(** A value of type [any] found in an extension map.  The enricher tells
    three cases apart, by its two type assertions. *)
Inductive any : Type :=
| anyString (s : string)
| anyMap (m : loc)        (* a map[string]any, which is a reference *)
| anyOther (v : N).       (* a value of any other dynamic type *)

Definition tagKey : string := "x-oapi-codegen-extra-tags".
Definition validate : string := "validate".

Section enricher.

(** [float64] and what the enricher does with one: it prints it with
    [fmt.Sprintf("%.0f", x)]. *)
Variable float64 : Type.
Variable fmt_f0 : float64 → string.

(** [regexp.Compile]: the message of its error, or [None] when the
    pattern compiles. *)
Variable regexp_Compile : string → option string.

(** The fields of [openapi3.Schema] that the enricher reads or writes.  A
    [uint64] is an [N]: the enricher compares it with 0 and prints it. *)
Record Schema : Type := {
  Extensions : option loc;           (* map[string]any; None is nil *)
  Required : list string;
  Properties : list (string * loc);  (* Schemas: map[string]*SchemaRef *)
  MultipleOf : option float64;
  Pattern : string;
  MinLength : N;
  MaxLength : option N;
  Min : option float64;
  ExclusiveMin : bool;
  Max : option float64;
  ExclusiveMax : bool;
  MinItems : N;
  MaxItems : option N;
  UniqueItems : bool;
  Format : string;
}.

(** [openapi3.SchemaRef]. *)
Record SchemaRef : Type := {
  Ref : string;
  Value : option loc;                (* *Schema; None is nil *)
}.

Record Components : Type := {
  Schemas : list (string * loc);     (* map[string]*SchemaRef *)
}.

(** [openapi3.T]. *)
Record T : Type := {
  components : option Components;    (* the field Components; None is nil *)
}.

(** [SchemaContext], of main.go. *)
Record SchemaContext : Type := {
  schema : loc;                      (* the field Schema *)
  Name : string;
}.

(** The heap: what each pointer and each map refers to.  A location
    that the heap does not hold stands for a nil pointer. *)
Record Heap : Type := {
  schemaRefs : gmap loc SchemaRef;
  schemas : gmap loc Schema;
  dicts : gmap loc (gmap string any);
}.

Definition deref {A} (sel : Heap → gmap loc A) (p : loc) : action Heap A :=
  λ h, match sel h !! p with
       | Some a => Done (a, h)
       | None => NilDeref
       end.

Definition setSchemaRef (p : loc) (r : SchemaRef) : action Heap unit :=
  λ h, Done (tt, {| schemaRefs := <[p := r]> (schemaRefs h);
                    schemas := schemas h; dicts := dicts h |}).

Definition setSchema (p : loc) (s : Schema) : action Heap unit :=
  λ h, Done (tt, {| schemaRefs := schemaRefs h;
                    schemas := <[p := s]> (schemas h); dicts := dicts h |}).

Definition setDict (p : loc) (m : gmap string any) : action Heap unit :=
  λ h, Done (tt, {| schemaRefs := schemaRefs h; schemas := schemas h;
                    dicts := <[p := m]> (dicts h) |}).

(** [make(map[string]any)]: a new, empty map. *)
Definition makeDict : action Heap loc :=
  λ h, let p := fresh (dom (dicts h)) in
       Done (p, {| schemaRefs := schemaRefs h; schemas := schemas h;
                   dicts := <[p := ∅]> (dicts h) |}).

(** [m[k] = v] and [delete(m, k)] on the map at [p]. *)
Definition dictStore (p : loc) (k : string) (v : any) : action Heap unit :=
  m ← deref dicts p; setDict p (<[k := v]> m).

Definition dictDelete (p : loc) (k : string) : action Heap unit :=
  m ← deref dicts p; setDict p (delete k m).

Definition withRef (r : SchemaRef) (ref : string) : SchemaRef :=
  {| Ref := ref; Value := Value r |}.

Definition withExtensions (s : Schema) (ext : option loc) : Schema :=
  {| Extensions := ext; Required := Required s; Properties := Properties s;
     MultipleOf := MultipleOf s; Pattern := Pattern s;
     MinLength := MinLength s; MaxLength := MaxLength s;
     Min := Min s; ExclusiveMin := ExclusiveMin s;
     Max := Max s; ExclusiveMax := ExclusiveMax s;
     MinItems := MinItems s; MaxItems := MaxItems s;
     UniqueItems := UniqueItems s; Format := Format s |}.

(** *** The schema graph adapter *)

Definition toSchemaContext (schemas : list (string * loc))
    : Seq Heap SchemaContext :=
  λ L yield l,
    range schemas
      (λ '(name, ref) l,
         r ← deref schemaRefs ref;
         match Value r with
         | Some v =>
             setSchemaRef ref (withRef r "");;
             yield {| schema := v; Name := name |} l
         | None => mret (true, l)
         end)
      l.

Definition getChildren (ctx : SchemaContext) : Seq Heap SchemaContext :=
  λ L yield l,
    s ← deref schemas (schema ctx);
    range (Properties s)
      (λ '(propName, propRef) l,
         r ← deref schemaRefs propRef;
         match Value r with
         | Some v =>
             yield {| schema := v; Name := Name ctx +:+ "." +:+ propName |} l
         | None => mret (true, l)
         end)
      l.

(** *** The rule generator *)

Definition generateRules (s : Schema) : result (list string) :=
  let tags := [] in
  match MultipleOf s with
  | Some _ => Err errMultipleOf
  | None =>
  match
    (if negb (String.eqb (Pattern s) "") then
       match regexp_Compile (Pattern s) with
       | Some cause => Err (errPattern (Pattern s) cause)
       | None => Ok (tags ++ ["regex=" +:+ Pattern s])
       end
     else Ok tags)
  with
  | Err e => Err e
  | Ok tags =>
  let tags :=
    if (0 <? MinLength s)%N then tags ++ ["min=" +:+ fmt_d (MinLength s)]
    else tags in
  let tags :=
    match MaxLength s with
    | Some n => tags ++ ["max=" +:+ fmt_d n]
    | None => tags
    end in
  let tags :=
    match Min s with
    | Some x =>
        let op := if ExclusiveMin s then "gt" else "min" in
        tags ++ [op +:+ "=" +:+ fmt_f0 x]
    | None => tags
    end in
  let tags :=
    match Max s with
    | Some x =>
        let op := if ExclusiveMax s then "lt" else "max" in
        tags ++ [op +:+ "=" +:+ fmt_f0 x]
    | None => tags
    end in
  let tags :=
    if (0 <? MinItems s)%N then tags ++ ["min=" +:+ fmt_d (MinItems s)]
    else tags in
  let tags :=
    match MaxItems s with
    | Some n => tags ++ ["max=" +:+ fmt_d n]
    | None => tags
    end in
  let tags := if UniqueItems s then tags ++ ["unique"] else tags in
  let tags :=
    if String.eqb (Format s) "email" then tags ++ ["email"]
    else if String.eqb (Format s) "uuid" then tags ++ ["uuid"]
    else if String.eqb (Format s) "ipv4" then tags ++ ["ipv4"]
    else if String.eqb (Format s) "ipv6" then tags ++ ["ipv6"]
    else if String.eqb (Format s) "uri" || String.eqb (Format s) "url"
         then tags ++ ["url"]
    else tags in
  Ok tags
  end
  end.

(** *** The orchestrator *)

(** The loop of [extractAndResetValidateRules] over the parts of the
    stored value. *)
Fixpoint parseRules (parts rules : list string) : list string :=
  match parts with
  | [] => rules
  | part :: rest =>
      let part := strings_TrimSpace part in
      if String.eqb part "" then parseRules rest rules
      else parseRules rest (rules ++ [part])
  end.

(** [extractAndResetValidateRules(s)].  [extMap] is the map stored under
    [tagKey] when there is one, not a copy of it: deleting its [validate]
    entry is a write to the document. *)
Definition extractAndResetValidateRules (s : loc)
    : action Heap (list string * loc) :=
  sv ← deref schemas s;
  ext ← match Extensions sv with
        | Some ext => mret ext
        | None =>
            ext ← makeDict;
            setSchema s (withExtensions sv (Some ext));;
            mret ext
        end;
  extensions ← deref dicts ext;
  extMap ← match extensions !! tagKey with
           | Some (anyMap m) => mret m
           | _ => makeDict
           end;
  inner ← deref dicts extMap;
  let existingVal :=
    match inner !! validate with
    | Some (anyString v) => v
    | _ => ""
    end in
  dictDelete extMap validate;;
  let rules :=
    if negb (String.eqb existingVal "")
    then parseRules (strings_SplitSeq existingVal ",") []
    else [] in
  mret (rules, extMap).

(** The last two statements of the loop of [enrichNode]:
    [extMap[validate] = strings.Join(oapiRules, ",")] and
    [propRef.Value.Extensions[tagKey] = extMap].  An assignment to an
    entry of a nil map panics. *)
Definition writeRules (v extMap : loc) (oapiRules : list string)
    : action Heap unit :=
  dictStore extMap validate (anyString (strings_Join oapiRules ","));;
  sv ← deref schemas v;
  ext ← from_option mret panic (Extensions sv);
  dictStore ext tagKey (anyMap extMap).

(** One turn of the loop of [enrichNode], for the property [propName]
    held by [propRef]: [Some err] when the turn returns [err] from
    [enrichNode], [None] when the loop goes on ([continue], or the end of
    the body).  [required] is [ctx.Schema.Required]. *)
Definition enrichProperty (ctx : SchemaContext) (required : list string)
    (propName : string) (propRef : loc) : action Heap (option error) :=
  r ← deref schemaRefs propRef;
  match Value r with
  | None => mret None
  | Some v =>
      sv ← deref schemas v;
      match generateRules sv with
      | Err err => mret (Some (errProperty (Name ctx) propName err))
      | Ok oapiRules =>
          '(validatorRules, extMap) ← extractAndResetValidateRules v;
          match mergeRules validatorRules oapiRules with
          | Err err => mret (Some (errProperty (Name ctx) propName err))
          | Ok rules =>
              if slices_Contains required propName then
                writeRules v extMap ("required" :: rules);;
                mret None
              else if (0 <? length rules)%nat then
                writeRules v extMap ("omitempty" :: rules);;
                mret None
              else
                (* delete(propRef.Value.Extensions, tagKey) *)
                sv ← deref schemas v;
                match Extensions sv with
                | Some ext => dictDelete ext tagKey
                | None => mret tt
                end;;
                mret None
          end
      end
  end.

(** The loop of [enrichNode] over [ctx.Schema.Properties]. *)
Fixpoint enrichProperties (ctx : SchemaContext) (required : list string)
    (properties : list (string * loc)) : action Heap (option error) :=
  match properties with
  | [] => mret None
  | (propName, propRef) :: rest =>
      err ← enrichProperty ctx required propName propRef;
      match err with
      | Some err => mret (Some err)
      | None => enrichProperties ctx required rest
      end
  end.

(** [enrichNode(ctx)].  The fields [Properties] and [Required] of
    [ctx.Schema] are read once: no statement of the enricher assigns to
    them. *)
Definition enrichNode (ctx : SchemaContext) : action Heap (option error) :=
  sv ← deref schemas (schema ctx);
  enrichProperties ctx (Required sv) (Properties sv).

(** [enrichSpec(doc)].  [fuel] bounds the depth of the traversal. *)
Definition enrichSpec (fuel : nat) (doc : T) : action Heap (option error) :=
  c ← from_option mret panic (components doc);
  PreOrder fuel (toSchemaContext (Schemas c)) getChildren (option error)
    (λ ctx errs,
       err ← enrichNode ctx;
       match err with
       | Some _ => mret (true, errors_Join [errs; err])
       | None => mret (true, errs)
       end)
    None.

End enricher.

Arguments Extensions {float64} s.
Arguments Required {float64} s.
Arguments Properties {float64} s.
Arguments MultipleOf {float64} s.
Arguments Pattern {float64} s.
Arguments MinLength {float64} s.
Arguments MaxLength {float64} s.
Arguments Min {float64} s.
Arguments ExclusiveMin {float64} s.
Arguments Max {float64} s.
Arguments ExclusiveMax {float64} s.
Arguments MinItems {float64} s.
Arguments MaxItems {float64} s.
Arguments UniqueItems {float64} s.
Arguments Format {float64} s.
Arguments schemaRefs {float64} h.
Arguments schemas {float64} h.
Arguments dicts {float64} h.
Arguments deref {float64 A} sel p.
Arguments setSchemaRef {float64} p r.
Arguments setSchema {float64} p s.
Arguments setDict {float64} p m.
Arguments makeDict {float64}.
Arguments dictStore {float64} p k v.
Arguments dictDelete {float64} p k.
Arguments withExtensions {float64} s ext.
Arguments toSchemaContext {float64} schemas.
Arguments getChildren {float64} ctx.
Arguments generateRules {float64} fmt_f0 regexp_Compile s.
Arguments extractAndResetValidateRules {float64} s.
Arguments writeRules {float64} v extMap oapiRules.
Arguments enrichProperty {float64} fmt_f0 regexp_Compile ctx required propName propRef.
Arguments enrichProperties {float64} fmt_f0 regexp_Compile ctx required properties.
Arguments enrichNode {float64} fmt_f0 regexp_Compile ctx.
Arguments enrichSpec {float64} fmt_f0 regexp_Compile fuel doc.

(** ** What the merger computes *)

(** The existing rules that [mergeRules] keeps: each one trimmed, the empty
    ones dropped. *)
Definition cleanRules (existingRules : list string) : list string :=
  filter (λ part, part ≠ "") (strings_TrimSpace <$> existingRules).

(** The last rule of [rules] whose key is [key]. *)
Definition lastWithKey (rules : list string) (key : string) : option string :=
  last (filter (λ rule, getTagKey rule = key) rules).

(** The generated rules that [mergeRules] appends: those whose key is not
    in [keys] and is the key of no earlier generated rule. *)
Fixpoint appendedRules (keys newRules : list string) : list string :=
  match newRules with
  | [] => []
  | tag :: rest =>
      if decide (getTagKey tag ∈ keys) then appendedRules keys rest
      else tag :: appendedRules (getTagKey tag :: keys) rest
  end.

(** [existingKeys] after the first loop: each rule stored under its key. *)
Definition recordKeys (rules : list string) (existingKeys : gmap string string)
    : gmap string string :=
  foldl (λ keys rule, <[getTagKey rule := rule]> keys) existingKeys rules.

(** When the second loop fails: a generated rule differs from the rule
    recorded under its key, or two generated rules differ and share a key
    under which nothing is recorded. *)
Definition conflicting (newRules : list string)
    (existingKeys : gmap string string) : Prop :=
  (∃ tag existingTag, tag ∈ newRules
     ∧ existingKeys !! getTagKey tag = Some existingTag ∧ existingTag ≠ tag)
  ∨ (∃ tag tag', tag ∈ newRules ∧ tag' ∈ newRules
       ∧ getTagKey tag = getTagKey tag' ∧ tag ≠ tag'
       ∧ existingKeys !! getTagKey tag = None).

(** The merger as the specification words it, for lists of rules of any
    shape. *)
Definition mergeRules_claimed (existingRules newRules : list string) : Prop :=
  (∀ rules, mergeRules existingRules newRules = Ok rules →
     rules = existingRules
             ++ filter (λ tag, getTagKey tag ∉ getTagKey <$> existingRules) newRules)
  ∧ ((∃ e, mergeRules existingRules newRules = Err e)
     ↔ ∃ tag existingTag, tag ∈ newRules ∧ existingTag ∈ existingRules
         ∧ getTagKey tag = getTagKey existingTag ∧ existingTag ≠ tag).

(** ** What the generator computes *)

(** The rules of each check of the specification, in its words: the
    pattern, the string length, the numeric bounds, the array cardinality
    and uniqueness, the format. *)
Definition patternRules {float64} (s : Schema float64) : list string :=
  if decide (Pattern s = "") then [] else ["regex=" +:+ Pattern s].

Definition lengthRules {float64} (s : Schema float64) : list string :=
  (if decide (0 < MinLength s)%N then ["min=" +:+ fmt_d (MinLength s)] else [])
  ++ match MaxLength s with Some n => ["max=" +:+ fmt_d n] | None => [] end.

Definition boundRules {float64} (fmt_f0 : float64 → string)
    (s : Schema float64) : list string :=
  match Min s with
  | Some x => [(if ExclusiveMin s then "gt=" else "min=") +:+ fmt_f0 x]
  | None => []
  end
  ++ match Max s with
     | Some x => [(if ExclusiveMax s then "lt=" else "max=") +:+ fmt_f0 x]
     | None => []
     end.

Definition itemRules {float64} (s : Schema float64) : list string :=
  (if decide (0 < MinItems s)%N then ["min=" +:+ fmt_d (MinItems s)] else [])
  ++ match MaxItems s with Some n => ["max=" +:+ fmt_d n] | None => [] end
  ++ (if UniqueItems s then ["unique"] else []).

Definition formatRules {float64} (s : Schema float64) : list string :=
  if slices_Contains ["email"; "uuid"; "ipv4"; "ipv6"] (Format s) then [Format s]
  else if slices_Contains ["uri"; "url"] (Format s) then ["url"]
  else [].

(** [openapi3.Schema{MinLength: 5, MaxLength: ptr(uint64(10))}], the first
    case of the test of the generator: every other field has its zero
    value. *)
Definition stringMinMax {float64} : Schema float64 :=
  {| Extensions := None; Required := []; Properties := [];
     MultipleOf := None; Pattern := ""; MinLength := 5; MaxLength := Some 10%N;
     Min := None; ExclusiveMin := false; Max := None; ExclusiveMax := false;
     MinItems := 0; MaxItems := None; UniqueItems := false; Format := "" |}.

(** ** Forests and their pre-order *)

(** A finite forest is a list of finite trees. *)
#[warnings="-register-all"]
Inductive tree (A : Type) : Type :=
| Node (label : A) (children : list (tree A)).
Arguments Node {A} label children.

Definition label {A} (t : tree A) : A :=
  match t with Node a _ => a end.

Definition children {A} (t : tree A) : list (tree A) :=
  match t with Node _ ts => ts end.

(** Depth-first pre-order: a node, then its subtrees from left to right,
    each one whole before the next. *)
Fixpoint preorder {A} (t : tree A) : list A :=
  match t with
  | Node a ts => a :: flat_map preorder ts
  end.

Fixpoint height {A} (t : tree A) : nat :=
  match t with
  | Node _ ts => S (max_list (List.map height ts))
  end.

(** [t] is what the child-producing function [kids] unfolds to from the
    node [label t]: the children of each node of [t] are the nodes that
    [kids] gives for it, in the same order. *)
#[warnings="-register-all"]
Inductive unfolds {A} (kids : A → list A) : tree A → Prop :=
| unfolds_Node a ts :
    kids a = label <$> ts → Forall (unfolds kids) ts →
    unfolds kids (Node a ts).

(** [t] is a tree of the forest [f] or a subtree of one. *)
Inductive within {A} : tree A → list (tree A) → Prop :=
| within_here t f : t ∈ f → within t f
| within_below t t' f : t' ∈ f → within t (children t') → within t f.

(** The loop [for x := range xs] with a flag that says whether the loop
    ran to its end ([true]) or the body stopped it. *)
Fixpoint rangeToEnd {St A L : Type} (xs : list A)
    (body : A → L → action St (bool * L)) (l : L) : action St (bool * L) :=
  match xs with
  | [] => mret (true, l)
  | x :: xs =>
      '(more, l) ← body x l;
      if more : bool then rangeToEnd xs body l else mret (false, l)
  end.

(** ** What the document holds for a schema *)

(** The extension map of the schema at [v], [propRef.Value.Extensions];
    [None] when it is nil. *)
Definition extensionsOf {float64} (h : Heap float64) (v : loc)
    : option (gmap string any) :=
  sv ← schemas h !! v; ext ← Extensions sv; dicts h !! ext.

(** The map stored under [tagKey] in the extensions of the schema at [v],
    when there is one. *)
Definition extraTagsOf {float64} (h : Heap float64) (v : loc)
    : option (gmap string any) :=
  extensions ← extensionsOf h v;
  match extensions !! tagKey with
  | Some (anyMap m) => dicts h !! m
  | _ => None
  end.

(** The [validate] entry of that map: the stored rule string. *)
Definition storedValidate {float64} (h : Heap float64) (v : loc) : option any :=
  extraTags ← extraTagsOf h v; extraTags !! validate.

(** The rules of the stored rule string: its parts between commas,
    trimmed, the empty ones dropped. *)
Definition storedRules {float64} (h : Heap float64) (v : loc) : list string :=
  match storedValidate h v with
  | Some (anyString existingVal) =>
      if decide (existingVal = "") then []
      else parseRules (strings_SplitSeq existingVal ",") []
  | _ => []
  end.

(** The maps that the schema at [v] refers to are in the heap: its
    extension map when it is not nil, and the map under [tagKey] when
    there is one.  No reference of Go dangles; what this leaves out is a
    nil map stored as an [any], which no loader builds. *)
Definition allocated {float64} (h : Heap float64) (v : loc) : Prop :=
  ∀ sv ext, schemas h !! v = Some sv → Extensions sv = Some ext →
    ∃ extensions, dicts h !! ext = Some extensions
      ∧ ∀ m, extensions !! tagKey = Some (anyMap m) → is_Some (dicts h !! m).

(** ** Documents for the examples *)

(** The examples take the [float64] values that are integers, which
    [%.0f] prints in decimal; none of them has a pattern. *)
Definition fmt_f0_integer (x : Z) : string :=
  if (x <? 0)%Z then "-" +:+ fmt_d (Z.to_N (- x)) else fmt_d (Z.to_N x).

Definition noPattern (pattern : string) : option string := None.

(** An object schema with its required-field list and its properties. *)
Definition objectSchema (required : list string)
    (properties : list (string * loc)) : Schema Z :=
  {| Extensions := None; Required := required; Properties := properties;
     MultipleOf := None; Pattern := ""; MinLength := 0; MaxLength := None;
     Min := None; ExclusiveMin := false; Max := None; ExclusiveMax := false;
     MinItems := 0; MaxItems := None; UniqueItems := false; Format := "" |}.

(** A string schema with [minLength] ([0] is no constraint) and a number
    schema with [multipleOf]. *)
Definition stringSchema (extensions : option loc) (minLength : N) : Schema Z :=
  {| Extensions := extensions; Required := []; Properties := [];
     MultipleOf := None; Pattern := ""; MinLength := minLength;
     MaxLength := None;
     Min := None; ExclusiveMin := false; Max := None; ExclusiveMax := false;
     MinItems := 0; MaxItems := None; UniqueItems := false; Format := "" |}.

Definition multipleOfSchema (extensions : option loc) (x : Z) : Schema Z :=
  {| Extensions := extensions; Required := []; Properties := [];
     MultipleOf := Some x; Pattern := ""; MinLength := 0; MaxLength := None;
     Min := None; ExclusiveMin := false; Max := None; ExclusiveMax := false;
     MinItems := 0; MaxItems := None; UniqueItems := false; Format := "" |}.

Definition inlineRef (value : loc) : SchemaRef :=
  {| Ref := ""; Value := Some value |}.

(** The schema [User] with the required property [username] and the
    property [bio], which is a reference to the schema [Bio], itself a
    reference into another file.  The loader has resolved both: their
    [Value] is the one schema of [Bio]. *)
Definition userHeap : Heap Z :=
  {| schemaRefs :=
       list_to_map
         [(1%positive, inlineRef 1); (2%positive, inlineRef 2);
          (3%positive, {| Ref := "#/components/schemas/Bio";
                          Value := Some 3%positive |});
          (4%positive, {| Ref := "common.yaml#/components/schemas/Bio";
                          Value := Some 3%positive |})];
     schemas :=
       list_to_map
         [(1%positive, objectSchema ["username"]
                         [("username", 2%positive); ("bio", 3%positive)]);
          (2%positive, stringSchema None 0);
          (3%positive, stringSchema None 0)];
     dicts := ∅ |}.

Definition userDoc : T :=
  {| components :=
       Some {| Schemas := [("Bio", 4%positive); ("User", 1%positive)] |} |}.

(** The schema [Code] with one property [code], whose schema is
    [property] and whose extensions hold, under [tagKey], the stored rule
    string [stored] and an entry for another tag. *)
Definition codeHeap (property : Schema Z) (stored : string) : Heap Z :=
  {| schemaRefs := list_to_map [(1%positive, inlineRef 1); (2%positive, inlineRef 2)];
     schemas :=
       list_to_map
         [(1%positive, objectSchema [] [("code", 2%positive)]);
          (2%positive, property)];
     dicts :=
       list_to_map
         [(10%positive, {[ tagKey := anyMap 11%positive ]});
          (11%positive,
           list_to_map [(validate, anyString stored);
                        ("json", anyString "code,omitempty")])] |}.

Definition codeDoc : T :=
  {| components := Some {| Schemas := [("Code", 1%positive)] |} |}.

Definition codeCtx : SchemaContext := {| schema := 1%positive; Name := "Code" |}.

(** The schema [Order] with two properties that both have [multipleOf];
    [properties] lists them in the order in which [range] delivers them. *)
Definition orderHeap (properties : list (string * loc)) : Heap Z :=
  {| schemaRefs :=
       list_to_map [(1%positive, inlineRef 1); (2%positive, inlineRef 2);
                    (3%positive, inlineRef 3)];
     schemas :=
       list_to_map
         [(1%positive, objectSchema [] properties);
          (2%positive, multipleOfSchema None 5);
          (3%positive, multipleOfSchema None 1)];
     dicts := ∅ |}.

Definition qtyPrice : list (string * loc) :=
  [("qty", 2%positive); ("price", 3%positive)].

Definition orderDoc : T :=
  {| components := Some {| Schemas := [("Order", 1%positive)] |} |}.

(** The nodes that the traversal of a document yields, by name. *)
Definition visitedNames {float64} (fuel : nat) (doc : T)
    : action (Heap float64) (list string) :=
  c ← from_option mret panic (components doc);
  PreOrder fuel (toSchemaContext (Schemas c)) getChildren (list string)
    (λ ctx names, mret (true, names ++ [Name ctx])) [].

(** A schema that has both [minLength: 5] and [minItems: 2]. *)
Definition minLengthMinItems : Schema Z :=
  {| Extensions := None; Required := []; Properties := [];
     MultipleOf := None; Pattern := ""; MinLength := 5; MaxLength := None;
     Min := None; ExclusiveMin := false; Max := None; ExclusiveMax := false;
     MinItems := 2; MaxItems := None; UniqueItems := false; Format := "" |}.

(** ** What the enricher leaves as it is *)

(** Every call of [m] that returns leaves a state related by [R] to the
    state in which it started. *)
Definition preserves {St A} (R : St → St → Prop) (m : action St A) : Prop :=
  ∀ s a s', m s = Done (a, s') → R s s'.

(** [h'] holds the schemas of [h], each with its constraints, its
    properties and its required-field list; the extension map that a
    schema has in [h] is still its extension map in [h']; and [h'] has
    every map of [h]. *)
Definition schemasKept {float64} (h h' : Heap float64) : Prop :=
  (∀ p, (λ s, withExtensions s None) <$> schemas h' !! p
        = (λ s, withExtensions s None) <$> schemas h !! p)
  ∧ (∀ p s ext, schemas h !! p = Some s → Extensions s = Some ext →
       ∃ s', schemas h' !! p = Some s' ∧ Extensions s' = Some ext)
  ∧ dom (dicts h) ⊆ dom (dicts h').

(** The document of [h'] is the document of [h] with other extension
    maps: what [enrichNode] may do. *)
Definition enriched {float64} (h h' : Heap float64) : Prop :=
  schemaRefs h' = schemaRefs h ∧ schemasKept h h'.

(** The reference [r], found at [p], once the traversal has cleared the
    [Ref] of the roots that have a schema: [roots] are the locations of
    the root references. *)
Definition clearedRef (roots : list loc) (p : loc) (r : SchemaRef) : SchemaRef :=
  if decide (p ∈ roots ∧ is_Some (Value r)) then withRef r "" else r.

(** ** The graph of the schemas *)

(** The schema at [w] is the schema of a property of the schema at
    [v]. *)
Definition childOf {float64} (h : Heap float64) (v w : loc) : Prop :=
  ∃ sv propName propRef r,
    schemas h !! v = Some sv ∧ (propName, propRef) ∈ Properties sv
    ∧ schemaRefs h !! propRef = Some r ∧ Value r = Some w.

(** [h'] has the graph of [h]: each reference points to the schema it
    pointed to, and the schemas are kept. *)
Definition sameGraph {float64} (h h' : Heap float64) : Prop :=
  (∀ p, Value <$> schemaRefs h' !! p = Value <$> schemaRefs h !! p)
  ∧ schemasKept h h'.

(** The schema [Node] of a linked list: a property [value] and a
    property [next], which is a reference to [Node] itself. *)
Definition nodeHeap : Heap Z :=
  {| schemaRefs :=
       list_to_map
         [(1%positive, inlineRef 1); (2%positive, inlineRef 2);
          (3%positive, {| Ref := "#/components/schemas/Node";
                          Value := Some 1%positive |})];
     schemas :=
       list_to_map
         [(1%positive, objectSchema ["value"]
                         [("value", 2%positive); ("next", 3%positive)]);
          (2%positive, stringSchema None 0)];
     dicts := ∅ |}.

Definition nodeDoc : T :=
  {| components := Some {| Schemas := [("Node", 1%positive)] |} |}.

(** [rule] holds no comma. *)
Definition commaFree (rule : string) : Prop :=
  ","%char ∉ list_ascii_of_string rule.

(** What [extractAndResetValidateRules] makes of a stored rule string. *)
Definition parseValidate (existingVal : string) : list string :=
  if negb (String.eqb existingVal "")
  then parseRules (strings_SplitSeq existingVal ",") []
  else [].

(** ** The pass as a sequence of visits *)

(** The body of the loop of [enrichSpec]: the node is enriched, and its
    error, when it has one, is joined to the errors so far.  The loop is
    never left. *)
Definition visit {float64} (fmt_f0 : float64 → string)
    (regexp_Compile : string → option string)
    (ctx : SchemaContext) (errs : option error)
    : action (Heap float64) (bool * option error) :=
  err ← enrichNode fmt_f0 regexp_Compile ctx;
  match err with
  | Some _ => mret (true, errors_Join [errs; err])
  | None => mret (true, errs)
  end.

(** The node for the schema that the reference at [ref] points to, under
    the name [name]; [None] when the reference has no schema. *)
Definition contextOf {float64} (h : Heap float64) (name : string) (ref : loc)
    : option SchemaContext :=
  r ← schemaRefs h !! ref; v ← Value r; Some {| schema := v; Name := name |}.

(** The children of a node in the graph of [h]: the nodes for the
    properties of its schema that have a schema, in the order of the
    loop, each under the name of the node, a dot, and the name of the
    property. *)
Definition kidsOf {float64} (h : Heap float64) (ctx : SchemaContext)
    : list SchemaContext :=
  match schemas h !! schema ctx with
  | Some sv =>
      omap (λ '(propName, propRef),
              contextOf h (Name ctx +:+ "." +:+ propName) propRef)
        (Properties sv)
  | None => []
  end.

(** The roots of the document: the root references that have a schema,
    each with its node. *)
Definition rootsOf {float64} (h : Heap float64) (roots : list (string * loc))
    : list (loc * SchemaContext) :=
  omap (λ '(name, ref), ctx ← contextOf h name ref; Some (ref, ctx)) roots.

(** No reference of the document dangles: the root references, the
    schemas that references point to, and the references of the
    properties are in the heap. *)
Definition wellFormed {float64} (h : Heap float64) (roots : list (string * loc))
    : Prop :=
  (∀ name ref, (name, ref) ∈ roots → is_Some (schemaRefs h !! ref))
  ∧ (∀ p r v, schemaRefs h !! p = Some r → Value r = Some v →
       is_Some (schemas h !! v))
  ∧ (∀ v sv propName propRef,
       schemas h !! v = Some sv → (propName, propRef) ∈ Properties sv →
       is_Some (schemaRefs h !! propRef)).

(** The pass over a forest, root after root: the [Ref] of the root
    reference is cleared, then the nodes of its tree are visited in
    pre-order. *)
Definition visitForest {float64} (fmt_f0 : float64 → string)
    (regexp_Compile : string → option string)
    (forest : list (loc * tree SchemaContext))
    : action (Heap float64) (option error) :=
  range forest
    (λ '(ref, t) errs,
       r ← deref schemaRefs ref;
       setSchemaRef ref (withRef r "");;
       errs ← Values (preorder t) (option error) (visit fmt_f0 regexp_Compile) errs;
       mret (true, errs))
    None.

(** [enrichNode] on the nodes [ctxs], one after the other from the heap
    [h]: what each call returns, and the heap that the last one
    leaves. *)
Inductive nodeRuns {float64} (fmt_f0 : float64 → string)
    (regexp_Compile : string → option string)
    : list SchemaContext → Heap float64 → list (option error) → Heap float64 → Prop :=
| nodeRuns_nil h : nodeRuns fmt_f0 regexp_Compile [] h [] h
| nodeRuns_cons ctx ctxs h err h1 errs h' :
    enrichNode fmt_f0 regexp_Compile ctx h = Done (err, h1) →
    nodeRuns fmt_f0 regexp_Compile ctxs h1 errs h' →
    nodeRuns fmt_f0 regexp_Compile (ctx :: ctxs) h (err :: errs) h'.

(** A string schema with a pattern. *)
Definition patternSchema (extensions : option loc) (pattern : string) : Schema Z :=
  {| Extensions := extensions; Required := []; Properties := [];
     MultipleOf := None; Pattern := pattern; MinLength := 0; MaxLength := None;
     Min := None; ExclusiveMin := false; Max := None; ExclusiveMax := false;
     MinItems := 0; MaxItems := None; UniqueItems := false; Format := "" |}.

(** The number of checks of a schema that generate a rule of the key
    [min], and of the key [max]: the string length, the inclusive numeric
    bound and the array cardinality. *)
Definition minSources {float64} (s : Schema float64) : nat :=
  (if decide (0 < MinLength s)%N then 1 else 0)
  + match Min s with Some _ => if ExclusiveMin s then 0 else 1 | None => 0 end
  + (if decide (0 < MinItems s)%N then 1 else 0).

Definition maxSources {float64} (s : Schema float64) : nat :=
  match MaxLength s with Some _ => 1 | None => 0 end
  + match Max s with Some _ => if ExclusiveMax s then 0 else 1 | None => 0 end
  + match MaxItems s with Some _ => 1 | None => 0 end.

(** * Properties *)

(** ** Trimming *)

Section trimWhile.
Variable width : list ascii → nat.
Hypothesis width_le : ∀ bs, (width bs ≤ length bs)%nat.

Lemma trimWhile_fixed n bs : width bs = 0 → trimWhile width n bs = bs.
Proof. intros H. destruct n; cbn; [done|]. by rewrite H. Qed.

Lemma trimWhile_width n : ∀ bs,
  (length bs ≤ n)%nat → width (trimWhile width n bs) = 0.
Proof.
  induction n as [|n IH]; intros bs Hn; cbn.
  - pose proof (width_le bs). lia.
  - destruct (width bs) as [|w] eqn:Hw; [done|].
    apply IH. rewrite length_drop. lia.
Qed.

Lemma trimWhile_suffix n : ∀ bs, ∃ dropped, bs = dropped ++ trimWhile width n bs.
Proof.
  induction n as [|n IH]; intros bs; cbn; [by exists []|].
  destruct (width bs) as [|w]; [by exists []|].
  destruct (IH (drop (S w) bs)) as [dropped Hdropped].
  exists (take (S w) bs ++ dropped).
  by rewrite <- app_assoc, <- Hdropped, take_drop.
Qed.
End trimWhile.

Lemma spaceWidth_le bs : (spaceWidth bs ≤ length bs)%nat.
Proof.
  destruct bs as [|c [|d [|e r]]]; cbn; repeat case_match; lia.
Qed.

Lemma spaceWidthRev_le bs : (spaceWidthRev bs ≤ length bs)%nat.
Proof.
  destruct bs as [|c [|d [|e r]]]; cbn; repeat case_match; lia.
Qed.

(** A prefix of a string that starts with no white space starts with
    none. *)
Lemma spaceWidth_prefix bs rest : spaceWidth (bs ++ rest) = 0 → spaceWidth bs = 0.
Proof.
  destruct bs as [|c [|d [|e r]]]; cbn; try done.
  - destruct rest; cbn; repeat case_match; done.
  - destruct rest; cbn; repeat case_match; done.
Qed.

Lemma trimSpaceBytes_idemp bs : trimSpaceBytes (trimSpaceBytes bs) = trimSpaceBytes bs.
Proof.
  unfold trimSpaceBytes. cbv zeta.
  set (left := trimWhile spaceWidth (length bs) bs).
  set (right := trimWhile spaceWidthRev (length (reverse left)) (reverse left)).
  assert (spaceWidth left = 0) as Hleft
    by (by apply trimWhile_width; [apply spaceWidth_le|]).
  assert (spaceWidthRev right = 0) as Hright
    by (by apply trimWhile_width; [apply spaceWidthRev_le|]).
  destruct (trimWhile_suffix spaceWidthRev (length (reverse left)) (reverse left))
    as [dropped Hdropped]. fold right in Hdropped.
  assert (spaceWidth (reverse right) = 0) as Hleft'.
  { apply (spaceWidth_prefix _ (reverse dropped)).
    by rewrite <- reverse_app, <- Hdropped, reverse_involutive. }
  rewrite (trimWhile_fixed _ _ _ Hleft'), reverse_involutive.
  by rewrite (trimWhile_fixed _ _ _ Hright).
Qed.

Lemma strings_TrimSpace_idemp s :
  strings_TrimSpace (strings_TrimSpace s) = strings_TrimSpace s.
Proof.
  unfold strings_TrimSpace.
  by rewrite list_ascii_of_string_of_list_ascii, trimSpaceBytes_idemp.
Qed.

Lemma cleanRules_clean rules :
  Forall (λ rule, strings_TrimSpace rule = rule ∧ rule ≠ "") rules →
  cleanRules rules = rules.
Proof.
  unfold cleanRules. induction 1 as [|rule rules [Htrim Hne] _ IH]; [done|].
  by rewrite fmap_cons, filter_cons, Htrim, decide_True, IH.
Qed.

Lemma cleanRules_Forall rules :
  Forall (λ rule, strings_TrimSpace rule = rule ∧ rule ≠ "") (cleanRules rules).
Proof.
  unfold cleanRules. induction rules as [|rule rules IH]; [constructor|].
  cbn [fmap list_fmap]. rewrite filter_cons. case_decide; [|done].
  constructor; [|done]. split; [apply strings_TrimSpace_idemp|done].
Qed.

Lemma cleanRules_idemp rules : cleanRules (cleanRules rules) = cleanRules rules.
Proof. apply cleanRules_clean, cleanRules_Forall. Qed.

Lemma parseRules_eq parts : ∀ rules,
  parseRules parts rules = rules ++ cleanRules parts.
Proof.
  induction parts as [|part parts IH]; intros rules; cbn [parseRules].
  - by rewrite app_nil_r.
  - unfold cleanRules. rewrite fmap_cons, filter_cons.
    destruct (String.eqb_spec (strings_TrimSpace part) "") as [Heq|Hne].
    + rewrite decide_False by (intros H; by apply H). apply IH.
    + rewrite decide_True by done. rewrite IH. by rewrite <- app_assoc.
Qed.

Lemma storedRules_clean {float64} (h : Heap float64) (v : loc) :
  cleanRules (storedRules h v) = storedRules h v.
Proof.
  unfold storedRules. repeat case_match; try done.
  by rewrite parseRules_eq, app_nil_l, cleanRules_idemp.
Qed.

(** ** The rule merger *)

Lemma mergeRules_existing_eq existingRules rules existingKeys :
  mergeRules_existing existingRules rules existingKeys
  = (rules ++ cleanRules existingRules,
     recordKeys (cleanRules existingRules) existingKeys).
Proof.
  revert rules existingKeys.
  induction existingRules as [|part rest IH]; intros rules existingKeys.
  - cbn. by rewrite app_nil_r.
  - cbn [mergeRules_existing]. unfold cleanRules. rewrite fmap_cons, filter_cons.
    destruct (String.eqb_spec (strings_TrimSpace part) "") as [Heq|Hne].
    + rewrite decide_False by (intros H; by apply H). apply IH.
    + rewrite decide_True by done. rewrite IH. cbn.
      by rewrite <- app_assoc.
Qed.

Lemma recordKeys_lookup rules existingKeys key :
  recordKeys rules existingKeys !! key
  = match lastWithKey rules key with
    | Some rule => Some rule
    | None => existingKeys !! key
    end.
Proof.
  revert existingKeys.
  induction rules as [|rule rest IH]; intros existingKeys; [done|].
  cbn. unfold recordKeys in IH. rewrite IH. unfold lastWithKey.
  rewrite filter_cons. case_decide as Hkey.
  - subst key. rewrite last_cons. rewrite lookup_insert_eq.
    by destruct (last _).
  - by rewrite lookup_insert_ne.
Qed.

Lemma lastWithKey_is_Some rules key :
  is_Some (lastWithKey rules key) ↔ key ∈ getTagKey <$> rules.
Proof.
  unfold lastWithKey. rewrite list_elem_of_fmap. split.
  - intros [rule Hlast]. apply last_Some_elem_of in Hlast.
    apply list_elem_of_filter in Hlast as [? ?]. eauto.
  - intros (rule & -> & Hin).
    destruct (last _) eqn:Hlast; [eauto|].
    apply last_None in Hlast.
    assert (rule ∈ filter (λ r, getTagKey r = getTagKey rule) rules) as Hf
      by (by apply list_elem_of_filter).
    rewrite Hlast in Hf. by apply not_elem_of_nil in Hf.
Qed.

Lemma mergeRules_new_ok newRules : ∀ rules existingKeys keys merged,
  (∀ key, is_Some (existingKeys !! key) ↔ key ∈ keys) →
  mergeRules_new newRules rules existingKeys = Ok merged →
  merged = rules ++ appendedRules keys newRules.
Proof.
  induction newRules as [|tag rest IH]; intros rules existingKeys keys merged Hdom.
  - cbn. intros [= <-]. by rewrite app_nil_r.
  - cbn. destruct (existingKeys !! getTagKey tag) as [existingTag|] eqn:Hk.
    + rewrite decide_True by (apply Hdom; eauto).
      destruct (String.eqb_spec existingTag tag); cbn; [|done].
      by apply IH.
    + rewrite decide_False by (rewrite <- Hdom, Hk; by intros [? ?]).
      intros Hm. apply (IH _ _ (getTagKey tag :: keys)) in Hm.
      * by rewrite Hm, <- app_assoc.
      * intros key. rewrite elem_of_cons, <- Hdom.
        destruct (decide (key = getTagKey tag)) as [->|Hne].
        -- rewrite lookup_insert_eq. split; eauto.
        -- rewrite lookup_insert_ne by done. tauto.
Qed.

Lemma mergeRules_new_err newRules : ∀ rules existingKeys,
  (∃ existingTag tag,
     mergeRules_new newRules rules existingKeys = Err (errConflict existingTag tag))
  ↔ conflicting newRules existingKeys.
Proof.
  unfold conflicting.
  induction newRules as [|tag0 rest IH]; intros rules existingKeys.
  - cbn. split; [by intros (? & ? & ?)|].
    intros [(? & ? & []%not_elem_of_nil & _)|(? & ? & []%not_elem_of_nil & _)].
  - cbn. destruct (existingKeys !! getTagKey tag0) as [t|] eqn:Hk.
    + destruct (String.eqb_spec t tag0) as [->|Hne]; cbn.
      * rewrite IH. split.
        -- intros [(tag & x & ? & ? & ?)|(tag & tag' & ? & ? & ? & ? & ?)].
           ++ left. exists tag, x. rewrite elem_of_cons. eauto.
           ++ right. exists tag, tag'. rewrite !elem_of_cons. eauto 10.
        -- intros [(tag & x & Hin & Hx & Hne)|(tag & tag' & Hin & Hin' & Hkk & Hne & Hn)].
           ++ apply elem_of_cons in Hin as [->|Hin]; [congruence|]. left; eauto.
           ++ apply elem_of_cons in Hin as [->|Hin]; [congruence|].
              apply elem_of_cons in Hin' as [->|Hin']; [congruence|].
              right; eauto 10.
      * split; [|eauto]. intros _. left. exists tag0, t. rewrite elem_of_cons. eauto.
    + rewrite IH. split.
      * intros [(tag & x & Hin & Hx & Hne)|(tag & tag' & ? & ? & ? & ? & Hn)].
        -- destruct (decide (getTagKey tag = getTagKey tag0)) as [Heq|Hkne].
           ++ rewrite Heq, lookup_insert_eq in Hx. injection Hx as <-.
              right. exists tag0, tag. rewrite !elem_of_cons. eauto 10.
           ++ rewrite lookup_insert_ne in Hx by done. left. exists tag, x. rewrite elem_of_cons. eauto.
        -- right. exists tag, tag'. rewrite !elem_of_cons. repeat split; [eauto..|].
           destruct (decide (getTagKey tag0 = getTagKey tag)) as [Heq|Hkne].
           ++ by rewrite Heq, lookup_insert_eq in Hn.
           ++ by rewrite lookup_insert_ne in Hn.
      * intros [(tag & x & Hin & Hx & Hne)
               |(tag & tag' & Hin & Hin' & Hkk & Hne & Hn)].
        -- apply elem_of_cons in Hin as [->|Hin]; [congruence|].
           left. exists tag, x. split; [done|]. split; [|done].
           rewrite lookup_insert_ne; [done|]. intros Heq. rewrite <- Heq in Hx. congruence.
        -- destruct (decide (getTagKey tag = getTagKey tag0)) as [Heq|Hkne].
           ++ left.
              destruct (decide (tag = tag0)) as [->|Hne0].
              ** exists tag', tag0.
                 apply elem_of_cons in Hin' as [->|Hin']; [done|].
                 rewrite <- Hkk, lookup_insert_eq. done.
              ** exists tag, tag0.
                 apply elem_of_cons in Hin as [->|Hin]; [done|].
                 rewrite Heq, lookup_insert_eq. split; [done|]. split; [done|congruence].
           ++ right. exists tag, tag'.
              apply elem_of_cons in Hin as [->|Hin]; [done|].
              apply elem_of_cons in Hin' as [->|Hin']; [congruence|].
              rewrite lookup_insert_ne by done. done.
Qed.

Lemma mergeRules_errors existingRules newRules e :
  mergeRules existingRules newRules = Err e →
  ∃ existingTag tag, e = errConflict existingTag tag.
Proof.
  unfold mergeRules. destruct (mergeRules_existing _ _ _) as [rules keys].
  revert rules keys. induction newRules as [|tag rest IH]; intros rules keys; cbn; [done|].
  destruct (keys !! getTagKey tag) as [t|]; [|by apply IH].
  destruct (negb _); [|by apply IH]. intros [= <-]. eauto.
Qed.

Lemma recordKeys_empty_lookup rules key :
  recordKeys rules ∅ !! key = lastWithKey rules key.
Proof. rewrite recordKeys_lookup, lookup_empty. by destruct (lastWithKey _ _). Qed.

Lemma lastWithKey_None rules key :
  lastWithKey rules key = None ↔ key ∉ getTagKey <$> rules.
Proof. rewrite <- lastWithKey_is_Some, eq_None_not_Some. done. Qed.

(** What [mergeRules] does on lists of any shape.  A key recorded by the
    first loop holds the last existing rule of that key; a generated rule
    is compared with what is recorded under its key, be it an existing
    rule or an earlier generated one. *)
Lemma mergeRules_spec existingRules newRules :
  let existing := cleanRules existingRules in
  (∀ rules, mergeRules existingRules newRules = Ok rules →
     rules = existing ++ appendedRules (getTagKey <$> existing) newRules)
  ∧ ((∃ e, mergeRules existingRules newRules = Err e)
     ↔ (∃ tag existingTag, tag ∈ newRules
          ∧ lastWithKey existing (getTagKey tag) = Some existingTag
          ∧ existingTag ≠ tag)
       ∨ (∃ tag tag', tag ∈ newRules ∧ tag' ∈ newRules
            ∧ getTagKey tag = getTagKey tag' ∧ tag ≠ tag'
            ∧ getTagKey tag ∉ getTagKey <$> existing))
  ∧ (∀ e, mergeRules existingRules newRules = Err e →
       ∃ existingTag tag, e = errConflict existingTag tag).
Proof.
  intros existing. split; [|split].
  - intros rules. unfold mergeRules. rewrite mergeRules_existing_eq. cbn.
    apply mergeRules_new_ok. intros key.
    by rewrite recordKeys_empty_lookup, lastWithKey_is_Some.
  - transitivity (conflicting newRules (recordKeys existing ∅)).
    + rewrite <- (mergeRules_new_err newRules existing). split.
      * intros [e He]. destruct (mergeRules_errors _ _ _ He) as (x & g & ->).
        exists x, g. revert He. unfold mergeRules.
        by rewrite mergeRules_existing_eq.
      * intros (x & g & He). exists (errConflict x g). unfold mergeRules.
        by rewrite mergeRules_existing_eq.
    + unfold conflicting. setoid_rewrite recordKeys_empty_lookup.
      by setoid_rewrite lastWithKey_None.
  - apply mergeRules_errors.
Qed.

Lemma filter_ext_elem {A} (P Q : A → Prop) `{!∀ x, Decision (P x)}
    `{!∀ x, Decision (Q x)} (l : list A) :
  (∀ x, x ∈ l → P x ↔ Q x) → filter P l = filter Q l.
Proof.
  induction l as [|a l IH]; intros Hext; [done|].
  rewrite !filter_cons, IH by (intros; apply Hext; by right).
  pose proof (Hext a (list_elem_of_here _ _)).
  repeat case_decide; tauto.
Qed.

Lemma appendedRules_NoDup newRules : ∀ keys,
  NoDup (getTagKey <$> newRules) →
  appendedRules keys newRules = filter (λ tag, getTagKey tag ∉ keys) newRules.
Proof.
  induction newRules as [|tag rest IH]; intros keys Hnd; [done|].
  rewrite fmap_cons in Hnd. apply NoDup_cons in Hnd as [Hnotin Hnd].
  cbn [appendedRules]. rewrite filter_cons. destruct (decide (getTagKey tag ∈ keys)) as [Hin|Hout].
  - rewrite decide_False by (intros H; by apply H). by apply IH.
  - rewrite decide_True by done. f_equal. rewrite IH by done.
    apply filter_ext_elem. intros tag' Hin'. rewrite not_elem_of_cons.
    split; [tauto|]. intros Hk. split; [|done]. intros Heq.
    apply Hnotin. rewrite <- Heq. by apply list_elem_of_fmap_2.
Qed.

Lemma lastWithKey_NoDup rules rule :
  NoDup (getTagKey <$> rules) → rule ∈ rules →
  lastWithKey rules (getTagKey rule) = Some rule.
Proof.
  intros Hnd Hin.
  destruct (lastWithKey rules (getTagKey rule)) as [rule'|] eqn:Hlast.
  - f_equal. unfold lastWithKey in Hlast. apply last_Some_elem_of in Hlast.
    apply list_elem_of_filter in Hlast as [Hkey Hin'].
    apply list_elem_of_lookup in Hin as [i Hi], Hin' as [j Hj].
    assert (i = j) as ->; [|congruence].
    apply (NoDup_lookup _ _ _ (getTagKey rule) Hnd); rewrite list_lookup_fmap.
    + by rewrite Hi.
    + by rewrite Hj; cbn; rewrite Hkey.
  - apply lastWithKey_None in Hlast. exfalso. apply Hlast.
    by apply list_elem_of_fmap_2.
Qed.

(** C6, amended.  [mergeRules] trims the existing rules and drops the
    empty ones.  When the keys of the rules it keeps are pairwise distinct,
    and so are the keys of the generated rules, it returns the kept
    existing rules in their order as the prefix of the result, followed by
    exactly the generated rules, in generator order, whose key is the key
    of no kept existing rule (one whose key is taken is not appended); and
    it fails if and only if some generated rule has the key of a kept
    existing rule whose token differs.  Every failure is a conflict. *)
Theorem mergeRules_rule_sets existingRules newRules :
  let existing := cleanRules existingRules in
  NoDup (getTagKey <$> existing) →
  NoDup (getTagKey <$> newRules) →
  (∀ rules, mergeRules existingRules newRules = Ok rules →
     rules = existing
             ++ filter (λ tag, getTagKey tag ∉ getTagKey <$> existing) newRules)
  ∧ ((∃ e, mergeRules existingRules newRules = Err e)
     ↔ ∃ tag existingTag, tag ∈ newRules ∧ existingTag ∈ existing
         ∧ getTagKey tag = getTagKey existingTag ∧ existingTag ≠ tag)
  ∧ (∀ e, mergeRules existingRules newRules = Err e →
       ∃ existingTag tag, e = errConflict existingTag tag).
Proof.
  intros existing Hexisting HnewRules.
  destruct (mergeRules_spec existingRules newRules) as (Hok & Herr & Hconflict).
  fold existing in Hok, Herr. split; [|split]; [|clear Hok|done].
  - intros rules Hrules. rewrite <- appendedRules_NoDup by done. by apply Hok.
  - rewrite Herr. split.
    + intros [(tag & x & Hin & Hlast & Hne)|(tag & tag' & Hin & Hin' & Hkey & Hne & _)].
      * exists tag, x. unfold lastWithKey in Hlast.
        apply last_Some_elem_of, list_elem_of_filter in Hlast as [Hkey Hx]. done.
      * exfalso. apply Hne.
        apply list_elem_of_lookup in Hin as [i Hi], Hin' as [j Hj].
        assert (i = j) as ->; [|congruence].
        apply (NoDup_lookup _ _ _ (getTagKey tag) HnewRules); rewrite list_lookup_fmap.
        -- by rewrite Hi.
        -- by rewrite Hj; cbn; rewrite Hkey.
    + intros (tag & x & Hin & Hx & Hkey & Hne). left. exists tag, x.
      rewrite Hkey. by rewrite lastWithKey_NoDup.
Qed.

(** The theorem at work: a manual tag, an agreeing stored rule and two new
    rules. *)
Lemma mergeRules_rule_sets_witness :
  mergeRules [" manual_tag"; "max=9"] ["min=5"; "max=9"; "unique"]
  = Ok ["manual_tag"; "max=9"; "min=5"; "unique"].
Proof.
  pose proof (mergeRules_rule_sets [" manual_tag"; "max=9"] ["min=5"; "max=9"; "unique"])
    as H.
  cbv zeta in H.
  destruct H as (Hok & _ & _).
  - vm_compute. apply (bool_decide_unpack (NoDup ["manual_tag"; "max"])). by vm_compute.
  - vm_compute. apply (bool_decide_unpack (NoDup ["min"; "max"; "unique"])). by vm_compute.
  - destruct (mergeRules _ _) as [rules|e] eqn:Hm.
    + rewrite (Hok rules eq_refl). vm_compute. reflexivity.
    + vm_compute in Hm. discriminate.
Defined.

(** C6 as stated fails on rules that share a key and on rules that are
    not trimmed: a stored [min=3] before a stored [min=5] goes unnoticed;
    two generated rules of one key conflict with no existing rule at all;
    an existing rule is returned trimmed, not verbatim. *)
Lemma mergeRules_claimed_counterexample :
  ¬ mergeRules_claimed ["min=3"; "min=5"] ["min=5"]
  ∧ ¬ mergeRules_claimed [] ["min=5"; "min=2"]
  ∧ ¬ mergeRules_claimed [" manual_tag "] [].
Proof.
  split; [|split]; intros [Hok Herr].
  - destruct Herr as [_ Herr]. destruct Herr as [e He].
    + exists "min=5", "min=3".
      split; [apply list_elem_of_here|].
      split; [apply list_elem_of_here|].
      split; [by vm_compute|discriminate].
    + vm_compute in He. discriminate.
  - destruct Herr as [Herr _]. destruct Herr as (tag & x & _ & Hx & _).
    + eexists. vm_compute. reflexivity.
    + by apply not_elem_of_nil in Hx.
  - specialize (Hok ["manual_tag"]). vm_compute in Hok.
    specialize (Hok eq_refl). discriminate.
Qed.

(** ** The rule generator *)

Section generator.
Context {float64 : Type} (fmt_f0 : float64 → string)
  (regexp_Compile : string → option string).

Lemma formatRules_eq (s : Schema float64) (tags : list string) :
  (if String.eqb (Format s) "email" then tags ++ ["email"]
   else if String.eqb (Format s) "uuid" then tags ++ ["uuid"]
   else if String.eqb (Format s) "ipv4" then tags ++ ["ipv4"]
   else if String.eqb (Format s) "ipv6" then tags ++ ["ipv6"]
   else if String.eqb (Format s) "uri" || String.eqb (Format s) "url"
        then tags ++ ["url"]
   else tags)
  = tags ++ formatRules s.
Proof.
  unfold formatRules, slices_Contains. cbn [existsb].
  repeat match goal with
         | |- context [String.eqb (Format s) ?x] =>
             destruct (String.eqb_spec (Format s) x) as [Heq|?];
             [rewrite Heq; reflexivity|]
         end.
  cbn [orb]. by rewrite app_nil_r.
Qed.

Lemma generated_rules (s : Schema float64) (tags : list string) :
  (let tags :=
     if (0 <? MinLength s)%N then tags ++ ["min=" +:+ fmt_d (MinLength s)]
     else tags in
   let tags :=
     match MaxLength s with
     | Some n => tags ++ ["max=" +:+ fmt_d n]
     | None => tags
     end in
   let tags :=
     match Min s with
     | Some x =>
         let op := if ExclusiveMin s then "gt" else "min" in
         tags ++ [op +:+ "=" +:+ fmt_f0 x]
     | None => tags
     end in
   let tags :=
     match Max s with
     | Some x =>
         let op := if ExclusiveMax s then "lt" else "max" in
         tags ++ [op +:+ "=" +:+ fmt_f0 x]
     | None => tags
     end in
   let tags :=
     if (0 <? MinItems s)%N then tags ++ ["min=" +:+ fmt_d (MinItems s)]
     else tags in
   let tags :=
     match MaxItems s with
     | Some n => tags ++ ["max=" +:+ fmt_d n]
     | None => tags
     end in
   let tags := if UniqueItems s then tags ++ ["unique"] else tags in
   tags)
  = tags ++ lengthRules s ++ boundRules fmt_f0 s ++ itemRules s.
Proof.
  assert (∀ (n : N) (a b : list string),
            (if (0 <? n)%N then a else b) = if decide (0 < n)%N then a else b)
    as Hpos.
  { intros n a b. destruct (N.ltb_spec 0 n); case_decide; done || lia. }
  unfold lengthRules, boundRules, itemRules. cbv zeta. rewrite !Hpos.
  destruct (decide (0 < MinLength s)%N), (decide (0 < MinItems s)%N),
    (MaxLength s), (Min s), (ExclusiveMin s), (Max s), (ExclusiveMax s),
    (MaxItems s), (UniqueItems s); cbn; rewrite <- ?app_assoc; cbn;
    rewrite ?app_nil_r; reflexivity.
Qed.

(** C7.  [generateRules] is a function of the schema alone.  It fails on
    [multipleOf], then on a pattern that does not compile; otherwise its
    rules are those of the checks in their fixed order: pattern, string
    length, numeric bounds, array cardinality and uniqueness, format.
    For [minLength=5] and [maxLength=10] it returns exactly [min=5],
    [max=10], in this order. *)
Theorem generateRules_order (s : Schema float64) :
  generateRules fmt_f0 regexp_Compile s
  = match MultipleOf s with
    | Some _ => Err errMultipleOf
    | None =>
        match (if decide (Pattern s = "") then None
               else regexp_Compile (Pattern s)) with
        | Some cause => Err (errPattern (Pattern s) cause)
        | None =>
            Ok (patternRules s ++ lengthRules s ++ boundRules fmt_f0 s
                  ++ itemRules s ++ formatRules s)
        end
    end
  ∧ generateRules fmt_f0 regexp_Compile stringMinMax = Ok ["min=5"; "max=10"].
Proof.
  split; [|reflexivity].
  unfold generateRules, patternRules.
  destruct (MultipleOf s); [done|].
  destruct (String.eqb_spec (Pattern s) "") as [Hp|Hp]; cbn [negb].
  - rewrite !decide_True by done.
    by rewrite formatRules_eq, generated_rules, <- !app_assoc.
  - rewrite !decide_False by done. destruct (regexp_Compile _); [done|].
    by rewrite formatRules_eq, generated_rules, <- !app_assoc.
Qed.
End generator.

(** ** The traversal *)

Section traversal.
Context {St T : Type}.
Implicit Types (s : St) (kids : T → list T).

Lemma range_rangeToEnd {A L} (xs : list A)
    (body : A → L → action St (bool * L)) (l : L) s :
  range xs body l s
  = match rangeToEnd xs body l s with
    | Done ((_, l), s) => Done (l, s)
    | NilDeref => NilDeref
    | OutOfFuel => OutOfFuel
    end.
Proof.
  revert l s. induction xs as [|x xs IH]; intros l s; [done|].
  cbn. unfold mbind, action_bind.
  destruct (body x l s) as [[[[] l'] s']| |]; cbn; auto.
Qed.

Lemma rangeToEnd_app {A L} (xs ys : list A)
    (body : A → L → action St (bool * L)) (l : L) s :
  rangeToEnd (xs ++ ys) body l s
  = match rangeToEnd xs body l s with
    | Done ((true, l), s) => rangeToEnd ys body l s
    | other => other
    end.
Proof.
  revert l s. induction xs as [|x xs IH]; intros l s; [done|].
  cbn. unfold mbind, action_bind.
  destruct (body x l s) as [[[[] l'] s']| |]; cbn; auto.
Qed.

(** The loop of [walk] over the children, given what [walk] does on each
    of them. *)
Lemma walk_children kids fuel {L} (yield : T → L → action St (bool * L))
    (ts : list (tree T)) :
  (∀ t l s, t ∈ ts →
     walk fuel (λ n, Values (kids n)) yield (label t) l s
     = rangeToEnd (preorder t) yield l s) →
  ∀ (ret : bool) l s,
    range (label <$> ts)
      (λ child '(ret, l),
         '(more, l) ← walk fuel (λ n, Values (kids n)) yield child l;
         if negb more then mret (false, (false, l))
         else mret (true, (ret, l)))
      (ret, l) s
    = match rangeToEnd (flat_map preorder ts) yield l s with
      | Done ((more, l), s) => Done ((more && ret, l), s)
      | NilDeref => NilDeref
      | OutOfFuel => OutOfFuel
      end.
Proof.
  induction ts as [|t ts IH]; intros Hwalk ret l s; [done|].
  cbn [fmap list_fmap range flat_map]. rewrite rangeToEnd_app.
  unfold mbind at 1, action_bind at 1. unfold mbind at 1, action_bind at 1.
  rewrite Hwalk by apply list_elem_of_here.
  destruct (rangeToEnd (preorder t) yield l s) as [[[[] l'] s']| |]; cbn; auto.
  apply IH. intros. apply Hwalk. by right.
Qed.

Lemma walk_tree kids {L} (yield : T → L → action St (bool * L)) fuel :
  ∀ t l s, unfolds kids t → (height t ≤ fuel)%nat →
    walk fuel (λ n, Values (kids n)) yield (label t) l s
    = rangeToEnd (preorder t) yield l s.
Proof.
  induction fuel as [|fuel IH]; intros [a ts] l s Ht Hfuel; cbn in Hfuel; [lia|].
  inversion Ht as [a' ts' Hkids Hts]; subst a' ts'.
  cbn [walk label preorder rangeToEnd]. unfold mbind, action_bind.
  destruct (yield a l s) as [[[[] l'] s']| |]; cbn [negb]; auto.
  unfold Values. rewrite Hkids.
  pose proof (walk_children kids fuel yield ts) as Hc.
  unfold mbind, action_bind in Hc. rewrite Hc.
  - destruct (rangeToEnd _ _ _ _) as [[[[] l''] s'']| |]; auto.
  - intros t l0 s0 Hin. apply IH.
    + by eapply Forall_forall in Hts.
    + assert (height t ≤ max_list (List.map height ts))%nat; [|lia].
      apply max_list_elem_of_le. by apply (list_elem_of_fmap_2 height).
Qed.

Lemma walk_roots kids {L} (yield : T → L → action St (bool * L)) fuel
    (forest : list (tree T)) :
  Forall (unfolds kids) forest →
  (max_list (List.map height forest) ≤ fuel)%nat →
  ∀ l s,
    rangeToEnd (label <$> forest)
      (λ root l, walk fuel (λ n, Values (kids n)) yield root l) l s
    = rangeToEnd (flat_map preorder forest) yield l s.
Proof.
  induction forest as [|t forest IH]; intros Hforest Hfuel l s; [done|].
  apply Forall_cons in Hforest as [Ht Hforest]. cbn in Hfuel.
  cbn [fmap list_fmap rangeToEnd flat_map]. rewrite rangeToEnd_app.
  unfold mbind, action_bind. rewrite (walk_tree kids) by (done || lia).
  destruct (rangeToEnd (preorder t) yield l s) as [[[[] l'] s']| |]; auto.
  apply IH; [done|lia].
Qed.

Lemma collect_Values (xs visited : list T) s :
  Values xs (list T) (λ n visited, mret (true, visited ++ [n])) visited s
  = Done (visited ++ xs, s).
Proof.
  unfold Values. revert visited.
  induction xs as [|x xs IH]; intros visited; cbn.
  - by rewrite app_nil_r.
  - unfold mbind, action_bind, mret, action_ret. rewrite IH.
    by rewrite <- app_assoc.
Qed.

Lemma preorder_within (t : tree T) (forest : list (tree T)) :
  within t forest →
  ∃ before after,
    flat_map preorder forest
    = before ++ label t :: flat_map preorder (children t) ++ after.
Proof.
  induction 1 as [t f Hin|t t' f Hin _ (before & after & IH)];
    apply list_elem_of_split in Hin as (f1 & f2 & ->);
    rewrite flat_map_app; cbn [flat_map].
  - exists (flat_map preorder f1), (flat_map preorder f2). by destruct t.
  - destruct t' as [a ts]. cbn [children preorder] in *. rewrite IH.
    exists (flat_map preorder f1 ++ a :: before),
           (after ++ flat_map preorder f2).
    cbn [app]. rewrite <- ?app_assoc. cbn [app]. by rewrite <- ?app_assoc.
Qed.

(** C8.  For the finite forest that a child-producing function [kids]
    unfolds to from a sequence of roots, [PreOrder], once its bound is at
    least the height of the forest, is the iterator over the nodes of the
    forest in depth-first pre-order, for every consumer and also when the
    consumer stops it; a consumer that records what it is given ends
    with exactly this list of nodes; and in this list each node stands
    right before the nodes below it, which come subtree after subtree
    from left to right. *)
Theorem PreOrder_forest kids (forest : list (tree T)) (fuel : nat) :
  Forall (unfolds kids) forest →
  (max_list (List.map height forest) ≤ fuel)%nat →
  (∀ L (yield : T → L → action St (bool * L)) l s,
     PreOrder fuel (Values (label <$> forest)) (λ n, Values (kids n))
       L yield l s
     = Values (flat_map preorder forest) L yield l s)
  ∧ (∀ s,
       PreOrder fuel (Values (label <$> forest)) (λ n, Values (kids n))
         (list T) (λ n visited, mret (true, visited ++ [n])) [] s
       = Done (flat_map preorder forest, s))
  ∧ (∀ t, within t forest →
       ∃ before after,
         flat_map preorder forest
         = before ++ label t :: flat_map preorder (children t) ++ after).
Proof.
  intros Hforest Hfuel.
  assert (∀ L (yield : T → L → action St (bool * L)) l s,
            PreOrder fuel (Values (label <$> forest)) (λ n, Values (kids n))
              L yield l s
            = Values (flat_map preorder forest) L yield l s) as Heq.
  { intros L yield l s. unfold PreOrder, Values.
    by rewrite !range_rangeToEnd, (walk_roots kids). }
  split; [done|]. split.
  - intros s. by rewrite Heq, collect_Values.
  - intros t. apply preorder_within.
Qed.
End traversal.

(** The forest of the roots 1 and 5, where 1 has the children 2 and 3,
    and 2 the child 4. *)
Lemma PreOrder_forest_witness :
  PreOrder 3 (Values [1; 5])
    (λ n, Values (if decide (n = 1) then [2; 3]
                  else if decide (n = 2) then [4] else []))
    (list nat) (λ n visited, mret (true, visited ++ [n])) [] tt
  = Done ([1; 2; 4; 3; 5], tt).
Proof.
  pose proof (PreOrder_forest (St := unit)
    (λ n : nat, if decide (n = 1) then [2; 3]
                else if decide (n = 2) then [4] else [])
    [Node 1 [Node 2 [Node 4 []]; Node 3 []]; Node 5 []] 3) as H.
  destruct H as (_ & Hvisits & _).
  - repeat first [apply Forall_nil_2 | apply Forall_cons_2 | constructor].
  - vm_compute. lia.
  - exact (Hvisits tt).
Defined.

(** ** The orchestrator *)

Section orchestrator.
Context {float64 : Type} (fmt_f0 : float64 → string)
  (regexp_Compile : string → option string).
Implicit Types (h : Heap float64) (sv : Schema float64) (v ext extMap : loc).

Lemma bind_Done {St A B} (m : action St A) (f : A → action St B) s a s' :
  m s = Done (a, s') → (m ≫= f) s = f a s'.
Proof. unfold mbind, action_bind. by intros ->. Qed.

Lemma deref_Done {A} (sel : Heap float64 → gmap loc A) p h a :
  sel h !! p = Some a → deref sel p h = Done (a, h).
Proof. unfold deref. by intros ->. Qed.

Lemma dictStore_Done p k x h m :
  dicts h !! p = Some m →
  dictStore p k x h
  = Done (tt, {| schemaRefs := schemaRefs h; schemas := schemas h;
                 dicts := <[p := <[k := x]> m]> (dicts h) |}).
Proof. intros Hp. unfold dictStore. by erewrite bind_Done by by apply deref_Done. Qed.

Lemma dictDelete_Done p k h m :
  dicts h !! p = Some m →
  dictDelete p k h
  = Done (tt, {| schemaRefs := schemaRefs h; schemas := schemas h;
                 dicts := <[p := delete k m]> (dicts h) |}).
Proof. intros Hp. unfold dictDelete. by erewrite bind_Done by by apply deref_Done. Qed.

Lemma storedRules_eq h v (extraTags : gmap string any) :
  default ∅ (extraTagsOf h v) = extraTags →
  storedRules h v
  = let existingVal :=
      match extraTags !! validate with
      | Some (anyString v) => v
      | _ => ""
      end in
    if negb (String.eqb existingVal "")
    then parseRules (strings_SplitSeq existingVal ",") []
    else [].
Proof.
  intros <-. unfold storedRules, storedValidate.
  destruct (extraTagsOf h v) as [extraTags|]; cbn; [|done].
  destruct (extraTags !! validate) as [[val| |]|]; try done.
  destruct (String.eqb_spec val ""); case_decide; done.
Qed.

Lemma fresh_dict_None (d : gmap loc (gmap string any)) :
  d !! fresh (dom d) = None.
Proof. apply not_elem_of_dom, is_fresh. Qed.

(** [extractAndResetValidateRules]: what it returns and the heap it
    leaves.  [ext] is the extension map of the schema, made when it was
    nil; [extMap] the map under [tagKey], made when there was none. *)
Lemma extractAndResetValidateRules_spec h v sv :
  schemas h !! v = Some sv → allocated h v →
  ∃ ext extMap,
    let extensions := default ∅ (extensionsOf h v) in
    let extraTags := default ∅ (extraTagsOf h v) in
    extractAndResetValidateRules v h
    = Done ((storedRules h v, extMap),
            {| schemaRefs := schemaRefs h;
               schemas := <[v := withExtensions sv (Some ext)]> (schemas h);
               dicts := <[extMap := delete validate extraTags]>
                          (<[ext := extensions]> (dicts h)) |})
    ∧ (Extensions sv = Some ext
       ∨ Extensions sv = None ∧ dicts h !! ext = None)
    ∧ (extensions !! tagKey = Some (anyMap extMap)
       ∨ (∀ m, extensions !! tagKey ≠ Some (anyMap m))
         ∧ extMap ≠ ext ∧ dicts h !! extMap = None).
Proof.
  intros Hv Halloc. unfold extractAndResetValidateRules.
  erewrite bind_Done by by apply deref_Done.
  destruct (Extensions sv) as [ext|] eqn:Hext.
  - destruct (Halloc sv ext Hv Hext) as (extensions & Hextensions & Hm).
    assert (extensionsOf h v = Some extensions) as Hexts.
    { unfold extensionsOf. rewrite Hv. cbn. rewrite Hext. done. }
    assert (withExtensions sv (Some ext) = sv) as Hsv.
    { destruct sv. cbn in Hext. by subst. }
    unfold mbind, action_bind, mret, action_ret, deref. cbn. rewrite Hextensions.
    destruct (extensions !! tagKey) as [tag|] eqn:Htag;
      [destruct tag as [val|m|other]|].
    2:{ destruct (Hm m eq_refl) as [extraTags HextraTags].
        assert (extraTagsOf h v = Some extraTags) as HextraTagsOf.
        { unfold extraTagsOf. rewrite Hexts. cbn. by rewrite Htag. }
        exists ext, m. cbn. rewrite HextraTags.
        rewrite (dictDelete_Done _ _ _ _ HextraTags).
        rewrite (storedRules_eq h v extraTags) by by rewrite HextraTagsOf.
        rewrite Hexts, HextraTagsOf, Hsv. cbn.
        rewrite (insert_id (schemas h)), (insert_id (dicts h) ext) by done.
        split; [done|]. split; eauto. }
    all: assert (extraTagsOf h v = None) as HextraTagsOf
        by (unfold extraTagsOf; rewrite Hexts; cbn; by rewrite Htag).
    all: exists ext, (fresh (dom (dicts h))).
    all: pose proof (fresh_dict_None (dicts h)) as Hfresh.
    all: unfold makeDict; cbn; rewrite lookup_insert_eq.
    all: erewrite dictDelete_Done by apply lookup_insert_eq.
    all: rewrite (storedRules_eq h v ∅) by by rewrite HextraTagsOf.
    all: rewrite Hexts, HextraTagsOf, Hsv; cbn.
    all: rewrite insert_insert_eq, (insert_id (schemas h)),
           (insert_id (dicts h) ext) by done.
    all: split; [done|]; split; [eauto|]; right.
    all: split; [by rewrite Htag; intros ? [=]|].
    all: split; [congruence|done].
  - pose proof (fresh_dict_None (dicts h)) as Hfresh.
    set (ext := fresh (dom (dicts h))) in *.
    pose proof (fresh_dict_None (<[ext := ∅]> (dicts h))) as Hfresh'.
    set (extMap := fresh (dom (<[ext := ∅]> (dicts h)))) in *.
    assert (extensionsOf h v = None) as Hexts.
    { unfold extensionsOf. rewrite Hv. cbn. by rewrite Hext. }
    assert (extraTagsOf h v = None) as HextraTagsOf.
    { unfold extraTagsOf. by rewrite Hexts. }
    assert (extMap ≠ ext) as Hne.
    { intros Heq. rewrite Heq, lookup_insert_eq in Hfresh'. done. }
    exists ext, extMap.
    unfold mbind, action_bind, mret, action_ret, deref, makeDict, setSchema.
    cbn. fold ext. rewrite lookup_insert_eq, lookup_empty. cbn. fold extMap.
    rewrite lookup_insert_eq.
    erewrite dictDelete_Done by apply lookup_insert_eq.
    rewrite (storedRules_eq h v ∅) by by rewrite HextraTagsOf.
    rewrite Hexts, HextraTagsOf. cbn. rewrite insert_insert_eq.
    split; [done|]. split; [eauto|]. right.
    split; [by intros ?; rewrite lookup_empty|]. split; [done|].
    by rewrite lookup_insert_ne in Hfresh'.
Qed.

Lemma Extensions_withExtensions sv (e : option loc) :
  Extensions (withExtensions sv e) = e.
Proof. done. Qed.

(** [writeRules] stores the joined rules where [storedValidate] reads
    them, also when [extMap] is the extension map itself. *)
Lemma writeRules_spec h v sv ext extMap (extraTags : gmap string any)
    (oapiRules : list string) :
  schemas h !! v = Some sv → Extensions sv = Some ext →
  dicts h !! extMap = Some extraTags → is_Some (dicts h !! ext) →
  ∃ h', writeRules v extMap oapiRules h = Done (tt, h')
    ∧ schemaRefs h' = schemaRefs h ∧ schemas h' = schemas h
    ∧ storedValidate h' v = Some (anyString (strings_Join oapiRules ",")).
Proof.
  intros Hv Hext HextMap [extensions Hextensions]. unfold writeRules.
  erewrite bind_Done by by apply dictStore_Done.
  erewrite bind_Done by by apply deref_Done.
  rewrite Hext. cbn [from_option].
  unfold mbind at 1, action_bind at 1, mret, action_ret.
  set (extraTags' := <[validate := anyString (strings_Join oapiRules ",")]> extraTags).
  destruct (decide (ext = extMap)) as [->|Hne].
  - erewrite dictStore_Done by apply lookup_insert_eq.
    eexists. split; [done|]. cbn. split; [done|]. split; [done|].
    unfold storedValidate, extraTagsOf, extensionsOf. cbn. rewrite Hv. cbn.
    rewrite Hext. cbn. rewrite !lookup_insert_eq. cbn.
    rewrite !lookup_insert_eq. cbn. rewrite lookup_insert_ne by done.
    apply lookup_insert_eq.
  - erewrite dictStore_Done by (cbn; by rewrite lookup_insert_ne).
    eexists. split; [done|]. cbn. split; [done|]. split; [done|].
    unfold storedValidate, extraTagsOf, extensionsOf. cbn. rewrite Hv. cbn.
    rewrite Hext. cbn. rewrite !lookup_insert_eq. cbn.
    rewrite lookup_insert_eq. rewrite lookup_insert_ne by done.
    rewrite lookup_insert_eq. cbn. apply lookup_insert_eq.
Qed.
End orchestrator.

Section orchestrator_turn.
Context {float64 : Type} (fmt_f0 : float64 → string)
  (regexp_Compile : string → option string).
Implicit Types (h : Heap float64) (sv : Schema float64) (v : loc).

(** The heap after [extractAndResetValidateRules], as [writeRules] and
    the deletion of the tag entry need it. *)
Lemma after_extract h v sv ext extMap (extensions extraTags : gmap string any) :
  let h1 := {| schemaRefs := schemaRefs h;
               schemas := <[v := withExtensions sv (Some ext)]> (schemas h);
               dicts := <[extMap := delete validate extraTags]>
                          (<[ext := extensions]> (dicts h)) |} in
  schemas h1 !! v = Some (withExtensions sv (Some ext))
  ∧ dicts h1 !! extMap = Some (delete validate extraTags)
  ∧ is_Some (dicts h1 !! ext).
Proof.
  cbn. rewrite !lookup_insert_eq. split; [done|]. split; [done|].
  destruct (decide (extMap = ext)) as [->|Hne].
  - rewrite lookup_insert_eq. eauto.
  - rewrite lookup_insert_ne, lookup_insert_eq by done. eauto.
Qed.

(** C5.  A turn of the loop of [enrichNode] on a property whose rules are
    generated and merged without error writes the merged rules behind
    exactly one leading token: [required] when the name of the property
    is in the required-field list of the parent; otherwise [omitempty]
    when the merged rules are not empty; otherwise it writes nothing
    and deletes the entry under [tagKey] from the extensions. *)
Theorem enrichProperty_prefix h (ctx : SchemaContext) (required : list string)
    (propName : string) (propRef : loc) (r : SchemaRef) v sv
    (oapiRules rules : list string) :
  schemaRefs h !! propRef = Some r → Value r = Some v →
  schemas h !! v = Some sv → allocated h v →
  generateRules fmt_f0 regexp_Compile sv = Ok oapiRules →
  mergeRules (storedRules h v) oapiRules = Ok rules →
  ∃ h',
    enrichProperty fmt_f0 regexp_Compile ctx required propName propRef h
    = Done (None, h')
    ∧ if slices_Contains required propName then
        storedValidate h' v
        = Some (anyString (strings_Join ("required" :: rules) ","))
      else if decide (rules = []) then
        ∃ extensions,
          extensionsOf h' v = Some extensions ∧ extensions !! tagKey = None
      else
        storedValidate h' v
        = Some (anyString (strings_Join ("omitempty" :: rules) ",")).
Proof.
  intros Hr Hvalue Hv Halloc Hgen Hmerge. unfold enrichProperty.
  erewrite bind_Done by by apply deref_Done. rewrite Hvalue.
  erewrite bind_Done by by apply deref_Done. rewrite Hgen.
  destruct (extractAndResetValidateRules_spec h v sv Hv Halloc)
    as (ext & extMap & Hextract & Hext & HextMap).
  cbv zeta in Hextract.
  erewrite bind_Done by exact Hextract. cbv beta iota. rewrite Hmerge.
  destruct (after_extract h v sv ext extMap
              (default ∅ (extensionsOf h v)) (default ∅ (extraTagsOf h v)))
    as (Hv1 & HextMap1 & Hext1).
  destruct (slices_Contains required propName).
  - destruct (writeRules_spec _ v _ ext extMap _ ("required" :: rules)
                Hv1 eq_refl HextMap1 Hext1) as (h' & Hwrite & _ & _ & Hstored).
    exists h'. by erewrite bind_Done by exact Hwrite.
  - destruct rules as [|rule rules]; cbn [length Nat.ltb Nat.leb].
    + case_decide; [|done].
      erewrite bind_Done by by apply deref_Done.
      rewrite Extensions_withExtensions. destruct Hext1 as [extensions1 Hext1].
      erewrite bind_Done by by apply dictDelete_Done.
      eexists. split; [done|]. exists (delete tagKey extensions1).
      unfold extensionsOf. cbn. rewrite lookup_insert_eq. cbn.
      rewrite lookup_insert_eq. split; [done|]. apply lookup_delete_eq.
    + case_decide; [done|].
      destruct (writeRules_spec _ v _ ext extMap _ ("omitempty" :: rule :: rules)
                  Hv1 eq_refl HextMap1 Hext1) as (h' & Hwrite & _ & _ & Hstored).
      exists h'. by erewrite bind_Done by exact Hwrite.
Qed.

(** After [extractAndResetValidateRules] the document holds no stored
    rule string for the schema. *)
Lemma storedValidate_reset h v sv ext extMap :
  schemas h !! v = Some sv →
  Extensions sv = Some ext ∨ Extensions sv = None ∧ dicts h !! ext = None →
  default ∅ (extensionsOf h v) !! tagKey = Some (anyMap extMap)
  ∨ (∀ m, default ∅ (extensionsOf h v) !! tagKey ≠ Some (anyMap m))
    ∧ extMap ≠ ext ∧ dicts h !! extMap = None →
  storedValidate
    {| schemaRefs := schemaRefs h;
       schemas := <[v := withExtensions sv (Some ext)]> (schemas h);
       dicts := <[extMap := delete validate (default ∅ (extraTagsOf h v))]>
                  (<[ext := default ∅ (extensionsOf h v)]> (dicts h)) |} v
  = None.
Proof.
  intros Hv Hext HextMap.
  assert (∀ extensions m,
            default ∅ (extensionsOf h v) !! tagKey = Some (anyMap m) →
            default ∅ (extensionsOf h v) = extensions →
            extensionsOf h v = Some extensions
            ∧ dicts h !! ext = Some extensions
            ∧ extraTagsOf h v = dicts h !! m) as Hmap.
  { intros extensions m Htag <-. unfold extraTagsOf, extensionsOf in *.
    rewrite Hv in *. cbn in *.
    destruct Hext as [Hext|[Hext _]]; rewrite Hext in *; cbn in *.
    - destruct (dicts h !! ext) eqn:?; cbn in *; [by rewrite Htag|].
      by rewrite lookup_empty in Htag.
    - by rewrite lookup_empty in Htag. }
  set (extensions := default ∅ (extensionsOf h v)) in *.
  set (extraTags := default ∅ (extraTagsOf h v)) in *.
  unfold storedValidate, extraTagsOf, extensionsOf.
  cbn [schemas dicts]. rewrite lookup_insert_eq. cbn.
  destruct HextMap as [Htag|(Hnomap & Hne & _)].
  - destruct (Hmap extensions extMap Htag eq_refl) as (Hexts & Hd & Htags).
    destruct (decide (extMap = ext)) as [->|Hne].
    + assert (extraTags = extensions) as ->.
      { unfold extraTags. by rewrite Htags, Hd. }
      rewrite lookup_insert_eq. cbn.
      rewrite lookup_delete_ne, Htag by done. rewrite lookup_insert_eq. cbn.
      apply lookup_delete_eq.
    + rewrite lookup_insert_ne, lookup_insert_eq by done. cbn.
      rewrite Htag, lookup_insert_eq. cbn. apply lookup_delete_eq.
  - rewrite lookup_insert_ne, lookup_insert_eq by done. cbn.
    destruct (extensions !! tagKey) as [[]|] eqn:Htag; try done.
    by destruct (Hnomap m).
Qed.

(** C9.  For a property that is not required and whose merged rules are
    empty, the turn deletes the whole entry under [tagKey] from the
    extensions of the property: none of the entries that the map under
    [tagKey] held, [validate] or another, can be reached from the
    property any more.  The other extensions stay (when the map under
    [tagKey] is not the extension map itself). *)
Theorem enrichProperty_deletes_tag_entry h (ctx : SchemaContext)
    (required : list string) (propName : string) (propRef : loc)
    (r : SchemaRef) v sv (oapiRules : list string) :
  schemaRefs h !! propRef = Some r → Value r = Some v →
  schemas h !! v = Some sv → allocated h v →
  generateRules fmt_f0 regexp_Compile sv = Ok oapiRules →
  mergeRules (storedRules h v) oapiRules = Ok [] →
  slices_Contains required propName = false →
  ∃ h' extensions',
    enrichProperty fmt_f0 regexp_Compile ctx required propName propRef h
    = Done (None, h')
    ∧ extensionsOf h' v = Some extensions'
    ∧ extensions' !! tagKey = None
    ∧ extraTagsOf h' v = None
    ∧ ((∀ ext, Extensions sv = Some ext →
          default ∅ (extensionsOf h v) !! tagKey ≠ Some (anyMap ext)) →
       extensions' = delete tagKey (default ∅ (extensionsOf h v))).
Proof.
  intros Hr Hvalue Hv Halloc Hgen Hmerge Hrequired. unfold enrichProperty.
  erewrite bind_Done by by apply deref_Done. rewrite Hvalue.
  erewrite bind_Done by by apply deref_Done. rewrite Hgen.
  destruct (extractAndResetValidateRules_spec h v sv Hv Halloc)
    as (ext & extMap & Hextract & Hext & HextMap).
  cbv zeta in Hextract.
  erewrite bind_Done by exact Hextract. cbv beta iota.
  rewrite Hmerge, Hrequired. cbn [length Nat.ltb Nat.leb].
  destruct (after_extract h v sv ext extMap
              (default ∅ (extensionsOf h v)) (default ∅ (extraTagsOf h v)))
    as (Hv1 & HextMap1 & [extensions1 Hext1]).
  erewrite bind_Done by by apply deref_Done.
  rewrite Extensions_withExtensions.
  erewrite bind_Done by by apply dictDelete_Done.
  eexists _, (delete tagKey extensions1). split; [done|].
  assert (∀ d : gmap loc (gmap string any),
            extensionsOf
              {| schemaRefs := schemaRefs h;
                 schemas := <[v := withExtensions sv (Some ext)]> (schemas h);
                 dicts := <[ext := delete tagKey extensions1]> d |} v
            = Some (delete tagKey extensions1)) as Hexts'.
  { intros d. unfold extensionsOf. cbn. rewrite lookup_insert_eq. cbn.
    by rewrite lookup_insert_eq. }
  split; [apply Hexts'|]. split; [apply lookup_delete_eq|]. split.
  - unfold extraTagsOf. cbn [dicts]. rewrite Hexts'. cbn.
    by rewrite lookup_delete_eq.
  - intros Hnoalias. f_equal. cbn in Hext1.
    destruct (decide (extMap = ext)) as [->|Hne].
    + exfalso. destruct HextMap as [Htag|(_ & ? & _)]; [|done].
      destruct Hext as [Hext|[Hext _]]; [by eapply Hnoalias|].
      unfold extensionsOf in Htag. rewrite Hv in Htag. cbn in Htag.
      rewrite Hext in Htag. cbn in Htag. by rewrite lookup_empty in Htag.
    + rewrite lookup_insert_ne, lookup_insert_eq in Hext1 by done.
      congruence.
Qed.

(** C10.  When the generation of the rules fails for a property, on
    [multipleOf] or on a pattern that does not compile, the turn returns
    the error with the path of the property and leaves the whole heap
    as it was: nothing has been extracted or reset. *)
Theorem enrichProperty_generation_error h (ctx : SchemaContext)
    (required : list string) (propName : string) (propRef : loc)
    (r : SchemaRef) v sv :
  schemaRefs h !! propRef = Some r → Value r = Some v →
  schemas h !! v = Some sv →
  is_Some (MultipleOf sv)
  ∨ Pattern sv ≠ "" ∧ is_Some (regexp_Compile (Pattern sv)) →
  ∃ err,
    generateRules fmt_f0 regexp_Compile sv = Err err
    ∧ enrichProperty fmt_f0 regexp_Compile ctx required propName propRef h
      = Done (Some (errProperty (Name ctx) propName err), h).
Proof.
  intros Hr Hvalue Hv Hfails.
  assert (∃ err, generateRules fmt_f0 regexp_Compile sv = Err err)
    as [err Hgen].
  { destruct (generateRules_order fmt_f0 regexp_Compile sv) as [-> _].
    destruct Hfails as [[x ->]|[Hpattern [cause Hcause]]]; [eauto|].
    destruct (MultipleOf sv); [eauto|].
    rewrite decide_False, Hcause by done. eauto. }
  exists err. split; [done|]. unfold enrichProperty.
  erewrite bind_Done by by apply deref_Done. rewrite Hvalue.
  erewrite bind_Done by by apply deref_Done. by rewrite Hgen.
Qed.

(** C1, amended.  For a property whose rules are generated without
    error and whose stored rule string has, as the last of its rules of
    some key, a rule that differs from a generated rule of that key, the
    turn returns a conflict error with the path of the property; the
    stored rule string, which was there and not empty, is then gone
    from the document, since it was reset before the merge. *)
Theorem enrichProperty_conflict h (ctx : SchemaContext)
    (required : list string) (propName : string) (propRef : loc)
    (r : SchemaRef) v sv (oapiRules : list string) (tag existingTag : string) :
  schemaRefs h !! propRef = Some r → Value r = Some v →
  schemas h !! v = Some sv → allocated h v →
  generateRules fmt_f0 regexp_Compile sv = Ok oapiRules →
  tag ∈ oapiRules →
  lastWithKey (storedRules h v) (getTagKey tag) = Some existingTag →
  existingTag ≠ tag →
  ∃ h' existingTag' tag',
    enrichProperty fmt_f0 regexp_Compile ctx required propName propRef h
    = Done (Some (errProperty (Name ctx) propName
                    (errConflict existingTag' tag')), h')
    ∧ (∃ existingVal,
         storedValidate h v = Some (anyString existingVal) ∧ existingVal ≠ "")
    ∧ storedValidate h' v = None.
Proof.
  intros Hr Hvalue Hv Halloc Hgen Htag Hlast Hne.
  destruct (mergeRules_spec (storedRules h v) oapiRules) as (_ & Herr & Hconflict).
  rewrite storedRules_clean in Herr.
  destruct Herr as [_ [err Hmerge]]; [left; eauto|].
  destruct (Hconflict err Hmerge) as (existingTag' & tag' & ->).
  unfold enrichProperty.
  erewrite bind_Done by by apply deref_Done. rewrite Hvalue.
  erewrite bind_Done by by apply deref_Done. rewrite Hgen.
  destruct (extractAndResetValidateRules_spec h v sv Hv Halloc)
    as (ext & extMap & Hextract & Hext & HextMap).
  cbv zeta in Hextract.
  erewrite bind_Done by exact Hextract. cbv beta iota. rewrite Hmerge.
  eexists _, existingTag', tag'. split; [done|]. split.
  - unfold storedRules in Hlast.
    destruct (storedValidate h v) as [[existingVal| |]|]; try done.
    exists existingVal. split; [done|]. intros ->.
    by rewrite decide_True in Hlast.
  - by eapply storedValidate_reset.
Qed.
End orchestrator_turn.

(** ** The enrichment pass on documents *)

(** The heaps of the examples refer to maps that they hold. *)
Lemma codeHeap_allocated (property : Schema Z) (stored : string) :
  Extensions property = Some 10%positive →
  allocated (codeHeap property stored) 2.
Proof.
  intros Hext sv ext Hsv Hext'.
  assert (sv = property) as -> by (vm_compute in Hsv; congruence).
  rewrite Hext in Hext'. injection Hext' as <-.
  eexists. split; [reflexivity|]. intros m Hm.
  assert (m = 11%positive) as -> by (vm_compute in Hm; congruence).
  by eexists.
Qed.

(** The old test of the repository: a stored [manual_tag] and a generated
    [min=5]. *)
Lemma enrichProperty_prefix_witness :
  ∃ h',
    enrichProperty fmt_f0_integer noPattern codeCtx [] "code" 2
      (codeHeap (stringSchema (Some 10%positive) 5) "manual_tag")
    = Done (None, h')
    ∧ storedValidate h' 2 = Some (anyString "omitempty,manual_tag,min=5").
Proof.
  exact (enrichProperty_prefix fmt_f0_integer noPattern
           (codeHeap (stringSchema (Some 10%positive) 5) "manual_tag")
           codeCtx [] "code" 2 (inlineRef 2) 2
           (stringSchema (Some 10%positive) 5) ["min=5"] ["manual_tag"; "min=5"]
           eq_refl eq_refl eq_refl
           (codeHeap_allocated (stringSchema (Some 10%positive) 5) "manual_tag" eq_refl)
           eq_refl eq_refl).
Defined.

(** A property with no constraint, not required, whose stored rule string
    holds no rule: the entry under [tagKey] goes, with the other tag it
    held. *)
Lemma enrichProperty_deletes_tag_entry_witness :
  ∃ h' extensions',
    enrichProperty fmt_f0_integer noPattern codeCtx [] "code" 2
      (codeHeap (stringSchema (Some 10%positive) 0) " , ")
    = Done (None, h')
    ∧ extraTagsOf (codeHeap (stringSchema (Some 10%positive) 0) " , ") 2
      = Some (list_to_map [(validate, anyString " , ");
                           ("json", anyString "code,omitempty")])
    ∧ extensionsOf h' 2 = Some extensions'
    ∧ extensions' !! tagKey = None
    ∧ extraTagsOf h' 2 = None
    ∧ extensions' = ∅.
Proof.
  destruct (enrichProperty_deletes_tag_entry fmt_f0_integer noPattern
              (codeHeap (stringSchema (Some 10%positive) 0) " , ")
              codeCtx [] "code" 2 (inlineRef 2) 2
              (stringSchema (Some 10%positive) 0) []
              eq_refl eq_refl eq_refl
              (codeHeap_allocated (stringSchema (Some 10%positive) 0) " , " eq_refl)
              eq_refl eq_refl eq_refl)
    as (h' & extensions' & Hrun & Hexts & Htag & Htags & Hframe).
  exists h', extensions'. repeat split; try done.
  rewrite Hframe; [by vm_compute|].
  intros ext [= <-]. by vm_compute.
Defined.

(** A property with [multipleOf] and a stored rule: the heap after the
    turn is the heap before it. *)
Lemma enrichProperty_generation_error_witness :
  enrichProperty fmt_f0_integer noPattern codeCtx [] "code" 2
    (codeHeap (multipleOfSchema (Some 10%positive) 5) "min=3")
  = Done (Some (errProperty "Code" "code" errMultipleOf),
          codeHeap (multipleOfSchema (Some 10%positive) 5) "min=3").
Proof.
  destruct (enrichProperty_generation_error fmt_f0_integer noPattern
              (codeHeap (multipleOfSchema (Some 10%positive) 5) "min=3")
              codeCtx [] "code" 2 (inlineRef 2) 2
              (multipleOfSchema (Some 10%positive) 5)
              eq_refl eq_refl eq_refl (or_introl (ex_intro _ 5%Z eq_refl)))
    as (err & Hgen & Hrun).
  injection Hgen as <-. exact Hrun.
Defined.

(** A stored [min=3] against [minLength: 5]. *)
Lemma enrichProperty_conflict_witness :
  ∃ h',
    enrichProperty fmt_f0_integer noPattern codeCtx [] "code" 2
      (codeHeap (stringSchema (Some 10%positive) 5) "min=3")
    = Done (Some (errProperty "Code" "code" (errConflict "min=3" "min=5")), h')
    ∧ storedValidate (codeHeap (stringSchema (Some 10%positive) 5) "min=3") 2
      = Some (anyString "min=3")
    ∧ storedValidate h' 2 = None.
Proof.
  destruct (enrichProperty_conflict fmt_f0_integer noPattern
              (codeHeap (stringSchema (Some 10%positive) 5) "min=3")
              codeCtx [] "code" 2 (inlineRef 2) 2
              (stringSchema (Some 10%positive) 5) ["min=5"] "min=5" "min=3"
              eq_refl eq_refl eq_refl
              (codeHeap_allocated (stringSchema (Some 10%positive) 5) "min=3" eq_refl)
              eq_refl (list_elem_of_here _ _) eq_refl)
    as (h' & existingTag & tag & Hrun & _ & Hreset); [discriminate|].
  exists h'. split; [|by split].
  rewrite Hrun. f_equal. f_equal.
  assert (Done (Some (errProperty "Code" "code" (errConflict existingTag tag)), h')
          = enrichProperty fmt_f0_integer noPattern codeCtx [] "code" 2
              (codeHeap (stringSchema (Some 10%positive) 5) "min=3")) as Heq
    by done.
  vm_compute in Heq. by injection Heq as -> -> _.
Defined.

(** C1 as stated fails: on a stored [min=3] against the generated [min=5]
    the pass fails with the conflict, and the stored rule string is no
    longer in the document; on a stored [min=3,min=5] the stored [min=3]
    differs from the generated [min=5] and the pass does not fail. *)
Lemma enrichSpec_conflict_counterexample :
  (∃ e h',
     enrichSpec fmt_f0_integer noPattern 2 codeDoc
       (codeHeap (stringSchema (Some 10%positive) 5) "min=3")
     = Done (Some e, h')
     ∧ joined e = [errProperty "Code" "code" (errConflict "min=3" "min=5")]
     ∧ storedValidate (codeHeap (stringSchema (Some 10%positive) 5) "min=3") 2
       = Some (anyString "min=3")
     ∧ storedValidate h' 2 = None)
  ∧ (∃ h',
       enrichSpec fmt_f0_integer noPattern 2 codeDoc
         (codeHeap (stringSchema (Some 10%positive) 5) "min=3,min=5")
       = Done (None, h')
       ∧ storedValidate h' 2 = Some (anyString "omitempty,min=3,min=5")).
Proof.
  split.
  - eexists _, _. split; [by vm_compute|]. by vm_compute.
  - eexists. split; [by vm_compute|]. by vm_compute.
Qed.

(** C2 on the code: a second pass over an enriched document does not leave
    the stored rule strings as they are.  It reads the leading token as a
    stored rule and writes one more in front of it. *)
Theorem enrichSpec_twice_repeats_prefix :
  (∃ h1 h2,
     enrichSpec fmt_f0_integer noPattern 2 userDoc userHeap = Done (None, h1)
     ∧ storedValidate h1 2 = Some (anyString "required")
     ∧ enrichSpec fmt_f0_integer noPattern 2 userDoc h1 = Done (None, h2)
     ∧ storedValidate h2 2 = Some (anyString "required,required"))
  ∧ (∃ h1 h2,
       enrichSpec fmt_f0_integer noPattern 2 codeDoc
         (codeHeap (stringSchema (Some 10%positive) 5) "manual_tag")
       = Done (None, h1)
       ∧ storedValidate h1 2 = Some (anyString "omitempty,manual_tag,min=5")
       ∧ enrichSpec fmt_f0_integer noPattern 2 codeDoc h1 = Done (None, h2)
       ∧ storedValidate h2 2
         = Some (anyString "omitempty,omitempty,manual_tag,min=5")).
Proof.
  split; eexists _, _.
  - split; [by vm_compute|]. split; [by vm_compute|].
    split; [by vm_compute|]. by vm_compute.
  - split; [by vm_compute|]. split; [by vm_compute|].
    split; [by vm_compute|]. by vm_compute.
Qed.

(** C3 on the code: both properties of [Order] fail on their own, and the
    pass returns the error of one of them only, the first that [range]
    delivers, because [enrichNode] returns at the first property that
    fails. *)
Theorem enrichSpec_first_error_of_node :
  (∃ err,
     enrichProperty fmt_f0_integer noPattern
       {| schema := 1; Name := "Order" |} [] "qty" 2 (orderHeap qtyPrice)
     = Done (Some err, orderHeap qtyPrice)
     ∧ Error err = "property Order.qty: validation keyword 'multipleOf' is not supported by auto-enricher")
  ∧ (∃ err,
       enrichProperty fmt_f0_integer noPattern
         {| schema := 1; Name := "Order" |} [] "price" 3 (orderHeap qtyPrice)
       = Done (Some err, orderHeap qtyPrice)
       ∧ Error err = "property Order.price: validation keyword 'multipleOf' is not supported by auto-enricher")
  ∧ (∃ errs h',
       enrichSpec fmt_f0_integer noPattern 2 orderDoc (orderHeap qtyPrice)
       = Done (Some errs, h')
       ∧ joined errs = [errProperty "Order" "qty" errMultipleOf]
       ∧ Error errs = "property Order.qty: validation keyword 'multipleOf' is not supported by auto-enricher")
  ∧ (∃ errs h',
       enrichSpec fmt_f0_integer noPattern 2 orderDoc
         (orderHeap (reverse qtyPrice))
       = Done (Some errs, h')
       ∧ joined errs = [errProperty "Order" "price" errMultipleOf]).
Proof.
  split; [|split; [|split]].
  - eexists. split; by vm_compute.
  - eexists. split; by vm_compute.
  - eexists _, _. split; [by vm_compute|]. split; by vm_compute.
  - eexists _, _. split; by vm_compute.
Qed.

(** C4 on the code: the traversal yields a node for the property [bio],
    reached through a reference, and the [Ref] of that reference is never
    cleared, neither by the traversal nor by the pass; the [Ref] of the
    root [Bio] is. *)
Theorem getChildren_keeps_Ref :
  ∃ h' h'',
    visitedNames 2 userDoc userHeap
    = Done (["Bio"; "User"; "User.username"; "User.bio"], h')
    ∧ enrichSpec fmt_f0_integer noPattern 2 userDoc userHeap = Done (None, h'')
    ∧ Ref <$> schemaRefs userHeap !! 4%positive
      = Some "common.yaml#/components/schemas/Bio"
    ∧ Ref <$> schemaRefs h' !! 4%positive = Some ""
    ∧ Ref <$> schemaRefs h'' !! 4%positive = Some ""
    ∧ Ref <$> schemaRefs userHeap !! 3%positive = Some "#/components/schemas/Bio"
    ∧ Ref <$> schemaRefs h' !! 3%positive = Some "#/components/schemas/Bio"
    ∧ Ref <$> schemaRefs h'' !! 3%positive = Some "#/components/schemas/Bio".
Proof.
  eexists _, _. split; [by vm_compute|]. split; [by vm_compute|].
  repeat split; by vm_compute.
Qed.

(** * Further properties of the code *)

(** ** Keys of rules *)

(** [getTagKey] reads the tag from its first byte on, up to the first
    [=]. *)
Lemma getTagKey_cons (c : ascii) (tag : string) :
  getTagKey (String c tag)
  = if Ascii.eqb c "=" then "" else String c (getTagKey tag).
Proof.
  unfold getTagKey, strings_Index. cbn [String.index String.prefix].
  destruct (ascii_dec "=" c) as [<-|Hne].
  - cbn. by destruct tag.
  - rewrite <- Ascii.eqb_neq in Hne. rewrite Ascii.eqb_sym, Hne.
    destruct (String.index 0 "=" tag) as [idx|]; reflexivity.
Qed.

(** The key of a tag has no [=], and the tag is its key alone or its
    key, one [=], and a value. *)
Lemma getTagKey_split (tag : string) :
  strings_Index (getTagKey tag) "=" = None
  ∧ (tag = getTagKey tag ∨ ∃ value, tag = getTagKey tag +:+ "=" +:+ value).
Proof.
  induction tag as [|c tag [IHkey IHtag]]; [by split; [|left]|].
  rewrite getTagKey_cons. destruct (Ascii.eqb_spec c "=") as [->|Hne].
  - split; [done|]. right. by exists tag.
  - split.
    + unfold strings_Index in *. cbn [String.index String.prefix].
      destruct (ascii_dec "=" c) as [<-|_]; [done|]. by rewrite IHkey.
    + destruct IHtag as [Heq|[value Heq]].
      * left. by rewrite <- Heq.
      * right. exists value.
        change (String c tag = String c (getTagKey tag +:+ "=" +:+ value)).
        congruence.
Qed.

(** A key and a value put together with [=] give back the key, when the
    key has no [=] of its own; a tag with no [=] is its own key. *)
Lemma getTagKey_key_value (key value : string) :
  strings_Index key "=" = None →
  getTagKey (key +:+ "=" +:+ value) = key ∧ getTagKey key = key.
Proof.
  change ("=" +:+ value) with (String "=" value).
  induction key as [|c key IH]; [by intros _; split; [apply getTagKey_cons|]|].
  unfold strings_Index. cbn [String.index String.prefix].
  destruct (ascii_dec "=" c) as [<-|Hne]; [by destruct key|].
  intros Hkey.
  change (String c key +:+ String "=" value)
    with (String c (key +:+ String "=" value)).
  rewrite !getTagKey_cons.
  rewrite <- Ascii.eqb_neq, Ascii.eqb_sym in Hne. rewrite Hne.
  destruct (String.index 0 "=" key) eqn:Hidx; [done|].
  destruct (IH Hidx) as [-> ->]. done.
Qed.

(** X1.  [getTagKey] splits a tag at its first [=]: [key] is
    the key of [tag] exactly when [key] has no [=] and [tag] is [key]
    alone or [key], one [=], and any value. *)
Theorem getTagKey_key (tag key : string) :
  getTagKey tag = key
  ↔ strings_Index key "=" = None
    ∧ (tag = key ∨ ∃ value, tag = key +:+ "=" +:+ value).
Proof.
  split.
  - intros <-. apply getTagKey_split.
  - intros [Hkey [->|[value ->]]].
    + apply (getTagKey_key_value key "" Hkey).
    + apply (getTagKey_key_value key value Hkey).
Qed.

(** ** More on the rule merger *)

Lemma recordKeys_app rules rules' existingKeys :
  recordKeys (rules ++ rules') existingKeys
  = recordKeys rules' (recordKeys rules existingKeys).
Proof. apply foldl_app. Qed.

Lemma lastWithKey_Some rules key rule :
  lastWithKey rules key = Some rule → rule ∈ rules ∧ getTagKey rule = key.
Proof.
  unfold lastWithKey. intros Hlast%last_Some_elem_of.
  by apply list_elem_of_filter in Hlast as [? ?].
Qed.

Lemma mergeRules_new_members newRules : ∀ rules existingKeys merged,
  (∀ key tag, existingKeys !! key = Some tag → tag ∈ rules) →
  mergeRules_new newRules rules existingKeys = Ok merged →
  ∀ rule, rule ∈ merged ↔ rule ∈ rules ∨ rule ∈ newRules.
Proof.
  induction newRules as [|tag rest IH]; intros rules existingKeys merged Hkeys.
  - cbn. intros [= <-] rule. rewrite elem_of_nil. tauto.
  - cbn. destruct (existingKeys !! getTagKey tag) as [existingTag|] eqn:Hk.
    + destruct (String.eqb_spec existingTag tag) as [->|]; cbn; [|done].
      intros Hm rule. rewrite (IH _ _ _ Hkeys Hm), elem_of_cons.
      split; [tauto|]. intros [?|[->|?]]; eauto.
    + intros Hm rule.
      assert (∀ key tag', <[getTagKey tag := tag]> existingKeys !! key = Some tag' →
                tag' ∈ rules ++ [tag]) as Hkeys'.
      { intros key tag' Hlookup. rewrite elem_of_app, list_elem_of_singleton.
        destruct (decide (getTagKey tag = key)) as [<-|Hne].
        - rewrite lookup_insert_eq in Hlookup. right. congruence.
        - rewrite lookup_insert_ne in Hlookup by done. eauto. }
      rewrite (IH _ _ _ Hkeys' Hm), !elem_of_app, !elem_of_cons, elem_of_nil.
      tauto.
Qed.

Lemma appendedRules_sublist newRules : ∀ keys,
  sublist (appendedRules keys newRules) newRules.
Proof.
  induction newRules as [|tag rest IH]; intros keys; cbn; [constructor|].
  case_decide; by constructor.
Qed.

(** X2.  When the merger succeeds, its result is the kept
    existing rules (trimmed, the empty ones dropped) in their order,
    followed by some of the generated rules in generator order; and it
    holds every kept existing rule and every generated rule, and nothing
    else. *)
Theorem mergeRules_members existingRules newRules rules :
  mergeRules existingRules newRules = Ok rules →
  (∃ appended,
     rules = cleanRules existingRules ++ appended ∧ sublist appended newRules)
  ∧ ∀ rule, rule ∈ rules ↔ rule ∈ cleanRules existingRules ∨ rule ∈ newRules.
Proof.
  intros Hmerge. split.
  - destruct (mergeRules_spec existingRules newRules) as (Hok & _).
    eexists. split; [by apply Hok|]. apply appendedRules_sublist.
  - revert Hmerge. unfold mergeRules. rewrite mergeRules_existing_eq. cbn.
    apply mergeRules_new_members. intros key tag.
    rewrite recordKeys_empty_lookup. by intros [? _]%lastWithKey_Some.
Qed.

Lemma mergeRules_members_witness :
  (∃ appended,
     ["manual_tag"; "min=5"] = cleanRules [" manual_tag "; " "; "min=5"] ++ appended
     ∧ sublist appended ["min=5"])
  ∧ ∀ rule, rule ∈ ["manual_tag"; "min=5"]
      ↔ rule ∈ cleanRules [" manual_tag "; " "; "min=5"] ∨ rule ∈ ["min=5"].
Proof.
  exact (mergeRules_members [" manual_tag "; " "; "min=5"] ["min=5"]
           ["manual_tag"; "min=5"] eq_refl).
Defined.

Lemma mergeRules_new_NoDup newRules : ∀ rules existingKeys merged,
  (∀ key, is_Some (existingKeys !! key) ↔ key ∈ getTagKey <$> rules) →
  NoDup (getTagKey <$> rules) →
  mergeRules_new newRules rules existingKeys = Ok merged →
  NoDup (getTagKey <$> merged).
Proof.
  induction newRules as [|tag rest IH]; intros rules existingKeys merged Hdom Hnd.
  - cbn. by intros [= <-].
  - cbn. destruct (existingKeys !! getTagKey tag) as [existingTag|] eqn:Hk.
    + destruct (negb _); [done|]. by apply IH.
    + apply IH.
      * intros key. rewrite fmap_app, elem_of_app, <- Hdom. cbn.
        rewrite list_elem_of_singleton.
        destruct (decide (getTagKey tag = key)) as [<-|Hne].
        -- rewrite lookup_insert_eq. split; eauto.
        -- rewrite lookup_insert_ne by done. split; [eauto|]. intros [?|?]; [done|].
           congruence.
      * rewrite fmap_app. apply NoDup_app. split; [done|]. split.
        -- intros key Hin [->|[]%elem_of_nil]%elem_of_cons.
           apply Hdom in Hin as [? Hin]. congruence.
        -- apply NoDup_singleton.
Qed.

(** X3.  The merger keeps the keys apart: when the kept existing rules have
    pairwise distinct keys, so have the rules of the result. *)
Theorem mergeRules_keys_NoDup existingRules newRules rules :
  NoDup (getTagKey <$> cleanRules existingRules) →
  mergeRules existingRules newRules = Ok rules →
  NoDup (getTagKey <$> rules).
Proof.
  intros Hnd. unfold mergeRules. rewrite mergeRules_existing_eq. cbn.
  apply mergeRules_new_NoDup; [|done]. intros key.
  by rewrite recordKeys_empty_lookup, lastWithKey_is_Some.
Qed.

Lemma mergeRules_keys_NoDup_witness :
  NoDup (getTagKey <$> ["max=9"; "min=5"; "unique"]).
Proof.
  apply (mergeRules_keys_NoDup ["max=9"] ["min=5"; "max=9"; "unique"]).
  - vm_compute. apply (bool_decide_unpack (NoDup ["max"])). by vm_compute.
  - by vm_compute.
Defined.

Lemma mergeRules_new_skips newRules : ∀ rules existingKeys,
  (∀ tag, tag ∈ newRules → existingKeys !! getTagKey tag = Some tag) →
  mergeRules_new newRules rules existingKeys = Ok rules.
Proof.
  induction newRules as [|tag rest IH]; intros rules existingKeys Hagree; [done|].
  cbn. rewrite (Hagree tag) by apply list_elem_of_here.
  rewrite String.eqb_refl. cbn. apply IH. intros tag' Hin. apply Hagree. by right.
Qed.

Lemma mergeRules_new_final newRules : ∀ rules existingKeys merged,
  mergeRules_new newRules rules existingKeys = Ok merged →
  ∃ appended,
    merged = rules ++ appended
    ∧ Forall (λ tag, tag ∈ newRules) appended
    ∧ (∀ key tag, existingKeys !! key = Some tag →
         recordKeys appended existingKeys !! key = Some tag)
    ∧ (∀ tag, tag ∈ newRules →
         recordKeys appended existingKeys !! getTagKey tag = Some tag).
Proof.
  induction newRules as [|tag rest IH]; intros rules existingKeys merged.
  - cbn. intros [= <-]. exists []. rewrite app_nil_r.
    repeat split; [constructor|done|]. by intros ? ?%elem_of_nil.
  - cbn. destruct (existingKeys !! getTagKey tag) as [existingTag|] eqn:Hk.
    + destruct (String.eqb_spec existingTag tag) as [->|]; cbn; [|done].
      intros (appended & -> & Hin & Hext & Hagree)%IH.
      exists appended. repeat split; [|done|].
      * eapply Forall_impl; [done|]. intros ? ?. by right.
      * intros tag' [->|?]%elem_of_cons; eauto.
    + intros (appended & -> & Hin & Hext & Hagree)%IH.
      exists (tag :: appended). rewrite <- app_assoc. repeat split.
      * constructor; [by left|]. eapply Forall_impl; [done|]. intros ? ?. by right.
      * intros key tag' Hlookup. cbn. apply Hext.
        rewrite lookup_insert_ne; [done|]. congruence.
      * intros tag' [->|?]%elem_of_cons; cbn; [|eauto].
        apply Hext, lookup_insert_eq.
Qed.

(** The rules of an earlier merge of [newRules], with whatever trimmed
    rules in front, take [newRules] again and stay as they are: only the
    last rule of a key is compared. *)
Lemma mergeRules_front_again front existingRules newRules rules :
  Forall (λ tag, strings_TrimSpace tag = tag ∧ tag ≠ "") front →
  Forall (λ tag, strings_TrimSpace tag = tag ∧ tag ≠ "") newRules →
  mergeRules existingRules newRules = Ok rules →
  mergeRules (front ++ rules) newRules = Ok (front ++ rules).
Proof.
  intros Hfront Hclean. unfold mergeRules at 1. rewrite mergeRules_existing_eq. cbn.
  intros (appended & -> & Hin & _ & Hagree)%mergeRules_new_final.
  assert (cleanRules (front ++ cleanRules existingRules ++ appended)
          = front ++ cleanRules existingRules ++ appended) as Hrules.
  { apply cleanRules_clean. rewrite !Forall_app.
    split; [done|]. split; [apply cleanRules_Forall|].
    eapply Forall_impl; [done|]. intros tag Htag. cbn in Htag.
    by eapply Forall_forall in Hclean. }
  unfold mergeRules. rewrite mergeRules_existing_eq, Hrules. cbn.
  apply mergeRules_new_skips. intros tag Htag.
  specialize (Hagree tag Htag).
  rewrite <- recordKeys_app, recordKeys_empty_lookup in Hagree.
  by rewrite (recordKeys_app front), recordKeys_lookup, Hagree.
Qed.

(** X4.  Merging the same generated rules into the result of
    a merge once more changes nothing, provided the generated rules are
    trimmed and not empty. *)
Theorem mergeRules_again existingRules newRules rules :
  Forall (λ tag, strings_TrimSpace tag = tag ∧ tag ≠ "") newRules →
  mergeRules existingRules newRules = Ok rules →
  mergeRules rules newRules = Ok rules.
Proof. intros. by apply (mergeRules_front_again [] existingRules). Qed.

Lemma mergeRules_again_witness :
  mergeRules ["min=3"; "min=5"; "len=2"; "unique"] ["min=5"; "unique"; "max=9"]
  = Ok ["min=3"; "min=5"; "len=2"; "unique"; "max=9"]
  ∧ mergeRules ["min=3"; "min=5"; "len=2"; "unique"; "max=9"]
      ["min=5"; "unique"; "max=9"]
    = Ok ["min=3"; "min=5"; "len=2"; "unique"; "max=9"].
Proof.
  split; [by vm_compute|].
  apply (mergeRules_again ["min=3"; "min=5"; "len=2"; "unique"]).
  - repeat constructor; by vm_compute.
  - by vm_compute.
Defined.

Lemma mergeRules_new_conflict (pool newRules : list string) :
  ∀ rules existingKeys existingTag tag,
  (∀ key rule, existingKeys !! key = Some rule →
     getTagKey rule = key ∧ rule ∈ pool) →
  (∀ rule, rule ∈ newRules → rule ∈ pool) →
  mergeRules_new newRules rules existingKeys = Err (errConflict existingTag tag) →
  tag ∈ newRules ∧ getTagKey existingTag = getTagKey tag ∧ existingTag ≠ tag
  ∧ existingTag ∈ pool.
Proof.
  induction newRules as [|tag0 rest IH]; intros rules existingKeys x g Hkeys Hpool;
    [done|].
  cbn. destruct (existingKeys !! getTagKey tag0) as [t|] eqn:Hk.
  - destruct (String.eqb_spec t tag0) as [->|Hne]; cbn.
    + intros Herr. apply IH in Herr as (? & ? & ? & ?); [|done|].
      * repeat split; [by right|done..].
      * intros rule Hin. apply Hpool. by right.
    + intros [= <- <-]. destruct (Hkeys _ _ Hk) as [? ?].
      repeat split; [by left|done..].
  - intros Herr. apply IH in Herr as (? & ? & ? & ?).
    + repeat split; [by right|done..].
    + intros key rule Hlookup.
      destruct (decide (getTagKey tag0 = key)) as [<-|Hne].
      * rewrite lookup_insert_eq in Hlookup. injection Hlookup as <-.
        split; [done|]. apply Hpool. by left.
      * rewrite lookup_insert_ne in Hlookup by done. eauto.
    + intros rule Hin. apply Hpool. by right.
Qed.

(** X5.  The merger fails with a conflict only, and the
    conflict names two rules of one key that differ: the second is a
    generated rule, the first a kept existing rule or a generated
    rule. *)
Theorem mergeRules_conflict existingRules newRules err :
  mergeRules existingRules newRules = Err err →
  ∃ existingTag tag,
    err = errConflict existingTag tag
    ∧ tag ∈ newRules ∧ getTagKey existingTag = getTagKey tag ∧ existingTag ≠ tag
    ∧ (existingTag ∈ cleanRules existingRules ∨ existingTag ∈ newRules).
Proof.
  intros Herr. destruct (mergeRules_errors _ _ _ Herr) as (existingTag & tag & ->).
  exists existingTag, tag. split; [done|].
  revert Herr. unfold mergeRules. rewrite mergeRules_existing_eq. cbn. intros Herr.
  apply (mergeRules_new_conflict (cleanRules existingRules ++ newRules)) in Herr
    as (? & ? & ? & Hin%elem_of_app); [done|..].
  - intros key rule. rewrite recordKeys_empty_lookup, elem_of_app.
    intros [? ?]%lastWithKey_Some. eauto.
  - intros rule Hin. rewrite elem_of_app. by right.
Qed.

Lemma mergeRules_conflict_witness :
  ∃ existingTag tag,
    errConflict "min=5" "min=2" = errConflict existingTag tag
    ∧ tag ∈ ["min=5"; "min=2"] ∧ getTagKey existingTag = getTagKey tag
    ∧ existingTag ≠ tag
    ∧ (existingTag ∈ cleanRules ["manual_tag"] ∨ existingTag ∈ ["min=5"; "min=2"]).
Proof.
  exact (mergeRules_conflict ["manual_tag"] ["min=5"; "min=2"]
           (errConflict "min=5" "min=2") eq_refl).
Defined.

(** With no existing rule, generated rules of pairwise distinct keys are
    returned as they are. *)
Lemma mergeRules_no_existing newRules :
  NoDup (getTagKey <$> newRules) → mergeRules [] newRules = Ok newRules.
Proof.
  intros Hnd. destruct (mergeRules_spec [] newRules) as (Hok & Herr & _).
  cbv zeta in Hok, Herr. destruct (mergeRules [] newRules) as [rules|e].
  - rewrite (Hok rules eq_refl), appendedRules_NoDup by done.
    cbn. f_equal. clear. induction newRules as [|tag rest IH]; [done|].
    rewrite filter_cons, decide_True by apply not_elem_of_nil.
    by f_equal.
  - exfalso. destruct Herr as [Herr _].
    destruct Herr as [(tag & x & _ & Hlast & _)|(tag & tag' & Hin & Hin' & Hkey & Hne & _)];
      [eauto|done|].
    apply Hne.
    apply list_elem_of_lookup in Hin as [i Hi].
    apply list_elem_of_lookup in Hin' as [j Hj].
    assert (i = j) as ->; [|congruence].
    apply (NoDup_lookup _ _ _ (getTagKey tag) Hnd); rewrite list_lookup_fmap.
    + by rewrite Hi.
    + by rewrite Hj; cbn; rewrite Hkey.
Qed.

(** X6.  With no generated rule the merger cannot fail:
    it returns the existing rules, trimmed and without the empty ones.
    With no existing rule it returns the generated rules as they are,
    when their keys are pairwise distinct. *)
Theorem mergeRules_empty_side (rules : list string) :
  mergeRules rules [] = Ok (cleanRules rules)
  ∧ (NoDup (getTagKey <$> rules) → mergeRules [] rules = Ok rules).
Proof.
  split; [|apply mergeRules_no_existing].
  unfold mergeRules. by rewrite mergeRules_existing_eq.
Qed.

Lemma mergeRules_empty_side_witness :
  mergeRules [" min=5 "; ""; "max=10"] [] = Ok ["min=5"; "max=10"]
  ∧ mergeRules [] ["min=5"; "max=10"] = Ok ["min=5"; "max=10"].
Proof.
  destruct (mergeRules_empty_side ["min=5"; "max=10"]) as [_ Hnew].
  split; [exact (proj1 (mergeRules_empty_side [" min=5 "; ""; "max=10"]))|].
  apply Hnew. vm_compute.
  apply (bool_decide_unpack (NoDup ["min"; "max"])). by vm_compute.
Defined.

(** ** More on the rule generator *)

Lemma fmt_d_inj (n m : N) : fmt_d n = fmt_d m → n = m.
Proof.
  unfold fmt_d. intros H.
  apply (f_equal NilEmpty.uint_of_string) in H.
  rewrite !NilEmpty.usu in H. injection H as H.
  by apply DecimalN.Unsigned.to_uint_inj.
Qed.

(** Two generated rules of one key that differ make the merger fail,
    whatever the existing rules are. *)
Lemma mergeRules_clash existingRules newRules tag tag' :
  tag ∈ newRules → tag' ∈ newRules →
  getTagKey tag = getTagKey tag' → tag ≠ tag' →
  ∃ existingTag tag, mergeRules existingRules newRules = Err (errConflict existingTag tag).
Proof.
  intros Hin Hin' Hkey Hne.
  destruct (mergeRules_spec existingRules newRules) as (_ & Herr & Hconflict).
  cbv zeta in Herr. destruct Herr as [_ [err Herr]].
  - destruct (lastWithKey (cleanRules existingRules) (getTagKey tag))
      as [existingTag|] eqn:Hlast.
    + left. destruct (decide (existingTag = tag)) as [->|?]; [|by eauto].
      exists tag', tag. by rewrite <- Hkey.
    + right. apply lastWithKey_None in Hlast. eauto 10.
  - destruct (Hconflict err Herr) as (existingTag & t & ->). eauto.
Qed.

Section generator_more.
Context {float64 : Type} (fmt_f0 : float64 → string)
  (regexp_Compile : string → option string).

Lemma generateRules_Ok (s : Schema float64) (rules : list string) :
  generateRules fmt_f0 regexp_Compile s = Ok rules →
  rules = patternRules s ++ lengthRules s ++ boundRules fmt_f0 s
            ++ itemRules s ++ formatRules s.
Proof.
  unfold generateRules, patternRules.
  destruct (MultipleOf s); [done|].
  destruct (String.eqb_spec (Pattern s) "") as [Hp|Hp]; cbn [negb].
  - rewrite decide_True by done.
    rewrite formatRules_eq, generated_rules, <- !app_assoc. by intros [= <-].
  - rewrite decide_False by done. destruct (regexp_Compile _); [done|].
    rewrite formatRules_eq, generated_rules, <- !app_assoc. by intros [= <-].
Qed.

(** X7.  Every rule that [generateRules] returns is not
    empty, and its key is one of eleven: [regex], [min], [max], [gt],
    [lt], [unique], [email], [uuid], [ipv4], [ipv6], [url]; whatever the
    pattern and the bounds are.  So no generated rule has the key
    [required] or [omitempty]. *)
Theorem generateRules_keys (s : Schema float64) (rules : list string) :
  generateRules fmt_f0 regexp_Compile s = Ok rules →
  ∀ rule, rule ∈ rules →
    rule ≠ ""
    ∧ getTagKey rule ∈ ["regex"; "min"; "max"; "gt"; "lt"; "unique"; "email";
                        "uuid"; "ipv4"; "ipv6"; "url"].
Proof.
  intros ->%generateRules_Ok rule.
  assert (∀ key value : string,
            bool_decide (key ∈ ["regex"; "min"; "max"; "gt"; "lt"]) →
            rule = key +:+ "=" +:+ value →
            rule ≠ ""
            ∧ getTagKey rule ∈ ["regex"; "min"; "max"; "gt"; "lt"; "unique"; "email";
                                "uuid"; "ipv4"; "ipv6"; "url"]) as Hkv.
  { intros key value Hkey%bool_decide_unpack ->.
    rewrite !elem_of_cons, elem_of_nil in Hkey.
    destruct Hkey as [->|[->|[->|[->|[->|[]]]]]];
      (split; [done|]);
      match goal with
      | |- context [getTagKey (?key +:+ "=" +:+ value)] =>
          rewrite (proj1 (getTagKey_key_value key value eq_refl))
      end;
      rewrite !elem_of_cons; tauto. }
  assert (bool_decide (rule ∈ ["unique"; "email"; "uuid"; "ipv4"; "ipv6"; "url"]) →
          rule ≠ ""
          ∧ getTagKey rule ∈ ["regex"; "min"; "max"; "gt"; "lt"; "unique"; "email";
                              "uuid"; "ipv4"; "ipv6"; "url"]) as Hk.
  { intros Hkey%bool_decide_unpack.
    rewrite !elem_of_cons, elem_of_nil in Hkey.
    destruct Hkey as [->|[->|[->|[->|[->|[->|[]]]]]]];
      (split; [done|]); rewrite !elem_of_cons; cbv; tauto. }
  unfold patternRules, lengthRules, boundRules, itemRules, formatRules.
  rewrite !elem_of_app.
  intros [Hin|[[Hin|Hin]|[[Hin|Hin]|[[Hin|[Hin|Hin]]|Hin]]]]; revert Hin.
  - destruct (decide (Pattern s = "")); [by intros ?%elem_of_nil|].
    intros ->%list_elem_of_singleton. by apply (Hkv "regex" (Pattern s)).
  - destruct (decide (0 < MinLength s)%N); [|by intros ?%elem_of_nil].
    intros ->%list_elem_of_singleton. by apply (Hkv "min" (fmt_d (MinLength s))).
  - destruct (MaxLength s) as [n|]; [|by intros ?%elem_of_nil].
    intros ->%list_elem_of_singleton. by apply (Hkv "max" (fmt_d n)).
  - destruct (Min s) as [x|]; [|by intros ?%elem_of_nil].
    intros ->%list_elem_of_singleton. destruct (ExclusiveMin s).
    + by apply (Hkv "gt" (fmt_f0 x)).
    + by apply (Hkv "min" (fmt_f0 x)).
  - destruct (Max s) as [x|]; [|by intros ?%elem_of_nil].
    intros ->%list_elem_of_singleton. destruct (ExclusiveMax s).
    + by apply (Hkv "lt" (fmt_f0 x)).
    + by apply (Hkv "max" (fmt_f0 x)).
  - destruct (decide (0 < MinItems s)%N); [|by intros ?%elem_of_nil].
    intros ->%list_elem_of_singleton. by apply (Hkv "min" (fmt_d (MinItems s))).
  - destruct (MaxItems s) as [n|]; [|by intros ?%elem_of_nil].
    intros ->%list_elem_of_singleton. by apply (Hkv "max" (fmt_d n)).
  - destruct (UniqueItems s); [|by intros ?%elem_of_nil].
    intros ->%list_elem_of_singleton. by apply Hk.
  - unfold slices_Contains. cbn [existsb].
    repeat match goal with
           | |- context [String.eqb (Format s) ?x] =>
               destruct (String.eqb_spec (Format s) x) as [->|?];
               [cbn; intros ->%list_elem_of_singleton; by apply Hk|]
           end.
    cbn. by intros ?%elem_of_nil.
Qed.

(** X8.  The rules of the string length and of the array
    cardinality share the keys [min] and [max].  For a schema with
    [minLength] and [minItems] both positive and different, or with
    [maxLength] and [maxItems] both set and different, [generateRules]
    succeeds with rules that [mergeRules] refuses, whatever the stored
    rules are: it reports a conflict, with a generated rule in the place
    of the manual tag when no stored rule has the key. *)
Theorem generateRules_clash (s : Schema float64) (rules existingRules : list string) :
  generateRules fmt_f0 regexp_Compile s = Ok rules →
  ((0 < MinLength s)%N ∧ (0 < MinItems s)%N ∧ MinLength s ≠ MinItems s)
  ∨ (∃ a b, MaxLength s = Some a ∧ MaxItems s = Some b ∧ a ≠ b) →
  ∃ existingTag tag,
    mergeRules existingRules rules = Err (errConflict existingTag tag).
Proof.
  intros ->%generateRules_Ok [(Hlen & Hitems & Hne)|(a & b & Hlen & Hitems & Hne)].
  - apply (mergeRules_clash _ _ ("min=" +:+ fmt_d (MinLength s))
             ("min=" +:+ fmt_d (MinItems s))).
    + unfold lengthRules. rewrite decide_True by done.
      rewrite !elem_of_app, elem_of_cons. tauto.
    + unfold itemRules. rewrite decide_True by done.
      rewrite !elem_of_app, elem_of_cons. tauto.
    + transitivity "min"; [|symmetry].
      * exact (proj1 (getTagKey_key_value "min" (fmt_d (MinLength s)) eq_refl)).
      * exact (proj1 (getTagKey_key_value "min" (fmt_d (MinItems s)) eq_refl)).
    + intros Heq. apply Hne, fmt_d_inj.
      cbn in Heq. by injection Heq.
  - apply (mergeRules_clash _ _ ("max=" +:+ fmt_d a) ("max=" +:+ fmt_d b)).
    + unfold lengthRules. rewrite Hlen.
      rewrite !elem_of_app, !elem_of_cons. tauto.
    + unfold itemRules. rewrite Hitems.
      rewrite !elem_of_app, !elem_of_cons. tauto.
    + transitivity "max"; [|symmetry].
      * exact (proj1 (getTagKey_key_value "max" (fmt_d a) eq_refl)).
      * exact (proj1 (getTagKey_key_value "max" (fmt_d b) eq_refl)).
    + intros Heq. apply Hne, fmt_d_inj.
      cbn in Heq. by injection Heq.
Qed.
End generator_more.

Lemma generateRules_keys_witness :
  "max=10" ≠ ""
  ∧ getTagKey "max=10" ∈ ["regex"; "min"; "max"; "gt"; "lt"; "unique"; "email";
                          "uuid"; "ipv4"; "ipv6"; "url"].
Proof.
  apply (generateRules_keys fmt_f0_integer noPattern stringMinMax
           ["min=5"; "max=10"] eq_refl).
  rewrite !elem_of_cons. tauto.
Defined.

(** With nothing stored, the [min=5] of the string length stands where
    the message of the error names the manual tag. *)
Lemma generateRules_clash_witness :
  generateRules fmt_f0_integer noPattern minLengthMinItems = Ok ["min=5"; "min=2"]
  ∧ mergeRules [] ["min=5"; "min=2"] = Err (errConflict "min=5" "min=2").
Proof.
  split; [reflexivity|].
  destruct (generateRules_clash fmt_f0_integer noPattern minLengthMinItems
              ["min=5"; "min=2"] [] eq_refl) as (existingTag & tag & Herr).
  - left. repeat split; [reflexivity..|discriminate].
  - rewrite Herr. assert (Err (errConflict existingTag tag)
                          = mergeRules [] ["min=5"; "min=2"]) as Heq by done.
    vm_compute in Heq. by injection Heq as -> ->.
Defined.

(** ** What the enricher never changes *)

Lemma bind_Done_inv {St A B} (m : action St A) (f : A → action St B) s b s'' :
  (m ≫= f) s = Done (b, s'') →
  ∃ a s', m s = Done (a, s') ∧ f a s' = Done (b, s'').
Proof.
  unfold mbind, action_bind. destruct (m s) as [[a s']| |]; [eauto|done..].
Qed.

Section preserves.
Context {St : Type} (R : St → St → Prop) `{!Reflexive R, !Transitive R}.

Lemma preserves_ret {A} (a : A) : preserves R (mret a : action St A).
Proof. by intros s a' s' [= _ <-]. Qed.

Lemma preserves_bind {A B} (m : action St A) (f : A → action St B) :
  preserves R m → (∀ a, preserves R (f a)) → preserves R (m ≫= f).
Proof.
  intros Hm Hf s b s'' (a & s' & Hm' & Hf')%bind_Done_inv.
  transitivity s'; [by eapply Hm|by eapply Hf].
Qed.

Lemma preserves_panic {A} : preserves R (panic : action St A).
Proof. by intros s a s'. Qed.

Lemma preserves_diverge {A} : preserves R (diverge : action St A).
Proof. by intros s a s'. Qed.

Lemma preserves_range {A L} (xs : list A) (body : A → L → action St (bool * L)) :
  (∀ x l, x ∈ xs → preserves R (body x l)) → ∀ l, preserves R (range xs body l).
Proof.
  induction xs as [|x xs IH]; intros Hbody l; [apply preserves_ret|].
  cbn [range]. apply preserves_bind; [apply Hbody; by left|].
  intros [[] l']; [|apply preserves_ret].
  apply IH. intros. apply Hbody. by right.
Qed.

(** [PreOrder] does to the state what the roots, the child functions and
    the consumer do. *)
Lemma preserves_walk {T L} (getChildren : T → Seq St T)
    (yield : T → L → action St (bool * L)) :
  (∀ n L' (y : T → L' → action St (bool * L')) l,
     (∀ x l, preserves R (y x l)) → preserves R (getChildren n L' y l)) →
  (∀ n l, preserves R (yield n l)) →
  ∀ fuel n l, preserves R (walk fuel getChildren yield n l).
Proof.
  intros Hchildren Hyield fuel.
  induction fuel as [|fuel IH]; intros n l; [apply preserves_diverge|].
  cbn [walk]. apply preserves_bind; [apply Hyield|].
  intros [more l']. destruct (negb more); [apply preserves_ret|].
  apply Hchildren. intros child [ret l''].
  apply preserves_bind; [apply IH|].
  intros [more' l3]. destruct (negb more'); apply preserves_ret.
Qed.

Lemma preserves_PreOrder {T L} (roots : Seq St T) (getChildren : T → Seq St T)
    (yield : T → L → action St (bool * L)) fuel l :
  (∀ (y : T → L → action St (bool * L)) l,
     (∀ x l, preserves R (y x l)) → preserves R (roots L y l)) →
  (∀ n L' (y : T → L' → action St (bool * L')) l,
     (∀ x l, preserves R (y x l)) → preserves R (getChildren n L' y l)) →
  (∀ n l, preserves R (yield n l)) →
  preserves R (PreOrder fuel roots getChildren L yield l).
Proof.
  intros Hroots Hchildren Hyield. unfold PreOrder.
  apply Hroots. intros root l'. by apply preserves_walk.
Qed.
End preserves.

Section frame.
Context {float64 : Type} (fmt_f0 : float64 → string)
  (regexp_Compile : string → option string).
Implicit Types (h : Heap float64) (sv : Schema float64).

#[global] Instance schemasKept_refl : Reflexive (@schemasKept float64).
Proof. intros h. split; [done|]. split; [eauto|done]. Qed.

#[global] Instance schemasKept_trans : Transitive (@schemasKept float64).
Proof.
  intros h1 h2 h3 (Hs & He & Hd) (Hs' & He' & Hd').
  split; [|split].
  - intros p. by rewrite Hs', Hs.
  - intros p s ext Hp Hext. destruct (He p s ext Hp Hext) as (s' & Hp' & Hext').
    eauto.
  - set_solver.
Qed.

#[global] Instance enriched_refl : Reflexive (@enriched float64).
Proof. by intros h. Qed.

#[global] Instance enriched_trans : Transitive (@enriched float64).
Proof.
  intros h1 h2 h3 [Hr Hs] [Hr' Hs']. split; [congruence|by etransitivity].
Qed.

Lemma deref_Done_inv {A} (sel : Heap float64 → gmap loc A) p h a h' :
  deref sel p h = Done (a, h') → h' = h ∧ sel h !! p = Some a.
Proof. unfold deref. destruct (sel h !! p); [|done]. by intros [= -> ->]. Qed.

Lemma preserves_deref {A} (R : relation (Heap float64)) `{!Reflexive R}
    (sel : Heap float64 → gmap loc A) p :
  preserves R (deref sel p).
Proof. by intros h a h' [-> _]%deref_Done_inv. Qed.

(** A write to the maps alone that loses no map. *)
Lemma enriched_dicts h (d : gmap loc (gmap string any)) :
  dom (dicts h) ⊆ dom d →
  enriched h {| schemaRefs := schemaRefs h; schemas := schemas h; dicts := d |}.
Proof. intros Hd. split; [done|]. split; [done|]. split; [eauto|done]. Qed.

Lemma preserves_makeDict : preserves enriched (@makeDict float64).
Proof.
  intros h p h' [= _ <-]. apply enriched_dicts. cbn. set_solver.
Qed.

Lemma preserves_setDict p m : preserves enriched (@setDict float64 p m).
Proof.
  intros h a h' [= _ <-]. apply enriched_dicts. cbn. set_solver.
Qed.

Lemma preserves_dictStore p k x : preserves enriched (@dictStore float64 p k x).
Proof.
  apply preserves_bind; [apply _|apply preserves_deref, _|].
  intros m. apply preserves_setDict.
Qed.

Lemma preserves_dictDelete p k : preserves enriched (@dictDelete float64 p k).
Proof.
  apply preserves_bind; [apply _|apply preserves_deref, _|].
  intros m. apply preserves_setDict.
Qed.

Lemma preserves_extractAndResetValidateRules s :
  preserves enriched (@extractAndResetValidateRules float64 s).
Proof.
  intros h [rules extMap] h'. unfold extractAndResetValidateRules.
  intros (sv & h0 & [-> Hs]%deref_Done_inv & Hrun)%bind_Done_inv.
  apply bind_Done_inv in Hrun as (ext & h1 & Hext & Hrun).
  transitivity h1.
  - destruct (Extensions sv) as [ext'|] eqn:Hsv.
    + by injection Hext as _ <-.
    + cbn in Hext. injection Hext as _ <-. split; [done|]. split; [|split]; cbn.
      * intros p. destruct (decide (p = s)) as [->|Hne].
        -- rewrite lookup_insert_eq, Hs. cbn. f_equal.
        -- by rewrite lookup_insert_ne.
      * intros p s' ext' Hp Hext'. destruct (decide (p = s)) as [->|Hne].
        -- congruence.
        -- rewrite lookup_insert_ne by done. eauto.
      * set_solver.
  - revert Hrun. generalize h1 (rules, extMap) h'.
    apply preserves_bind; [apply _|apply preserves_deref, _|]. intros extensions.
    apply preserves_bind; [apply _| |].
    { repeat case_match; apply preserves_makeDict || apply preserves_ret, _. }
    intros extMap'.
    apply preserves_bind; [apply _|apply preserves_deref, _|]. intros inner.
    apply preserves_bind; [apply _|apply preserves_dictDelete|]. intros _.
    apply preserves_ret, _.
Qed.

Lemma preserves_writeRules v extMap oapiRules :
  preserves enriched (@writeRules float64 v extMap oapiRules).
Proof.
  unfold writeRules.
  apply preserves_bind; [apply _|apply preserves_dictStore|]. intros _.
  apply preserves_bind; [apply _|apply preserves_deref, _|]. intros sv.
  apply preserves_bind; [apply _| |intros ext; apply preserves_dictStore].
  destruct (Extensions sv); [apply preserves_ret, _|apply preserves_panic].
Qed.

Lemma preserves_enrichProperty ctx required propName propRef :
  preserves enriched
    (enrichProperty fmt_f0 regexp_Compile ctx required propName propRef).
Proof.
  unfold enrichProperty.
  apply preserves_bind; [apply _|apply preserves_deref, _|]. intros r.
  destruct (Value r) as [v|]; [|apply preserves_ret, _].
  apply preserves_bind; [apply _|apply preserves_deref, _|]. intros sv.
  destruct (generateRules _ _ sv) as [oapiRules|err]; [|apply preserves_ret, _].
  apply preserves_bind; [apply _|apply preserves_extractAndResetValidateRules|].
  intros [validatorRules extMap].
  destruct (mergeRules _ _) as [rules|err]; [|apply preserves_ret, _].
  destruct (slices_Contains _ _); [|destruct (0 <? length rules)%nat].
  - apply preserves_bind; [apply _|apply preserves_writeRules|].
    intros _. apply preserves_ret, _.
  - apply preserves_bind; [apply _|apply preserves_writeRules|].
    intros _. apply preserves_ret, _.
  - apply preserves_bind; [apply _|apply preserves_deref, _|]. intros sv'.
    apply preserves_bind; [apply _| |intros _; apply preserves_ret, _].
    destruct (Extensions sv'); [apply preserves_dictDelete|apply preserves_ret, _].
Qed.

Lemma preserves_enrichProperties ctx required properties :
  preserves enriched
    (enrichProperties fmt_f0 regexp_Compile ctx required properties).
Proof.
  induction properties as [|[propName propRef] rest IH]; [apply preserves_ret, _|].
  cbn [enrichProperties].
  apply preserves_bind; [apply _|apply preserves_enrichProperty|].
  intros [err|]; [apply preserves_ret, _|apply IH].
Qed.

Lemma preserves_enrichNode ctx :
  preserves enriched (enrichNode fmt_f0 regexp_Compile ctx).
Proof.
  unfold enrichNode.
  apply preserves_bind; [apply _|apply preserves_deref, _|]. intros sv.
  apply preserves_enrichProperties.
Qed.

(** X9.  Whatever [enrichNode] returns, it has changed no
    reference and no schema but in its extensions: every constraint,
    property list and required-field list is as it was; a schema that had
    an extension map still has that map; no map has been removed from
    the heap. *)
Theorem enrichNode_frame ctx h err h' :
  enrichNode fmt_f0 regexp_Compile ctx h = Done (err, h') →
  schemaRefs h' = schemaRefs h
  ∧ (∀ p, (λ s, withExtensions s None) <$> schemas h' !! p
          = (λ s, withExtensions s None) <$> schemas h !! p)
  ∧ (∀ p s ext, schemas h !! p = Some s → Extensions s = Some ext →
       ∃ s', schemas h' !! p = Some s' ∧ Extensions s' = Some ext)
  ∧ dom (dicts h) ⊆ dom (dicts h').
Proof. apply preserves_enrichNode. Qed.

(** ** The first property that fails *)

(** An error of a turn of the loop is the error of the generator or of
    the merger, with the path of the property. *)
Lemma enrichProperty_error ctx required propName propRef h err h' :
  enrichProperty fmt_f0 regexp_Compile ctx required propName propRef h
  = Done (Some err, h') →
  ∃ cause, err = errProperty (Name ctx) propName cause
    ∧ (cause = errMultipleOf
       ∨ (∃ pattern message, cause = errPattern pattern message)
       ∨ (∃ existingTag tag, cause = errConflict existingTag tag)).
Proof.
  unfold enrichProperty.
  intros (r & h0 & _ & Hrun)%bind_Done_inv.
  destruct (Value r) as [v|]; [|done].
  apply bind_Done_inv in Hrun as (sv & h1 & _ & Hrun).
  destruct (generateRules _ _ sv) as [oapiRules|cause] eqn:Hgen.
  - apply bind_Done_inv in Hrun as ([validatorRules extMap] & h2 & _ & Hrun).
    destruct (mergeRules _ _) as [rules|cause] eqn:Hmerge.
    + exfalso. destruct (slices_Contains _ _); [|destruct (0 <? length rules)%nat].
      * by apply bind_Done_inv in Hrun as (? & ? & _ & ?).
      * by apply bind_Done_inv in Hrun as (? & ? & _ & ?).
      * apply bind_Done_inv in Hrun as (? & ? & _ & Hrun).
        by apply bind_Done_inv in Hrun as (? & ? & _ & ?).
    + injection Hrun as <- _. exists cause. split; [done|].
      destruct (mergeRules_errors _ _ _ Hmerge) as (existingTag & tag & ->).
      eauto 10.
  - injection Hrun as <- _. exists cause. split; [done|].
    revert Hgen. unfold generateRules.
    destruct (MultipleOf sv); [intros [= <-]; eauto|].
    destruct (negb _); [|done].
    destruct (regexp_Compile _); [intros [= <-]; eauto 10|done].
Qed.

Lemma enrichProperties_error ctx required properties : ∀ h err h',
  enrichProperties fmt_f0 regexp_Compile ctx required properties h
  = Done (Some err, h')
  ↔ ∃ before propName propRef after h1,
      properties = before ++ (propName, propRef) :: after
      ∧ enrichProperties fmt_f0 regexp_Compile ctx required before h
        = Done (None, h1)
      ∧ enrichProperty fmt_f0 regexp_Compile ctx required propName propRef h1
        = Done (Some err, h').
Proof.
  induction properties as [|[propName propRef] rest IH]; intros h err h'.
  - split; [done|]. by intros ([] & ? & ? & ? & ? & ? & _).
  - cbn [enrichProperties]. split.
    + intros ([err0|] & h1 & Hturn & Hrest)%bind_Done_inv.
      * injection Hrest as <- <-. by exists [], propName, propRef, rest, h.
      * apply IH in Hrest as (before & name & ref & after & h2 & -> & Hbefore & Hfail).
        exists ((propName, propRef) :: before), name, ref, after, h2.
        split; [done|]. split; [|done].
        cbn [enrichProperties]. by erewrite bind_Done by done.
    + intros (before & name & ref & after & h1 & Heq & Hbefore & Hfail).
      destruct before as [|[name0 ref0] before]; cbn in Heq.
      * injection Heq as -> -> ->. injection Hbefore as <-.
        by erewrite bind_Done by done.
      * injection Heq as -> -> ->. cbn [enrichProperties] in Hbefore.
        apply bind_Done_inv in Hbefore as ([err0|] & h2 & Hturn & Hbefore); [done|].
        erewrite bind_Done by done. apply IH. eauto 10.
Qed.

(** X10.  [enrichNode] returns an error exactly when
    one of the properties of the node fails after all the properties
    before it, in the order of the loop, have passed.  The error is then
    the error of that one property, with its path, and the heap is the
    one that the failing turn left: the properties after it have not
    been looked at. *)
Theorem enrichNode_first_error ctx h sv err h' :
  schemas h !! schema ctx = Some sv →
  enrichNode fmt_f0 regexp_Compile ctx h = Done (Some err, h')
  ↔ ∃ before propName propRef after h1 cause,
      Properties sv = before ++ (propName, propRef) :: after
      ∧ enrichProperties fmt_f0 regexp_Compile ctx (Required sv) before h
        = Done (None, h1)
      ∧ enrichProperty fmt_f0 regexp_Compile ctx (Required sv) propName propRef h1
        = Done (Some err, h')
      ∧ err = errProperty (Name ctx) propName cause.
Proof.
  intros Hsv. unfold enrichNode. erewrite bind_Done by by apply deref_Done.
  rewrite enrichProperties_error. split.
  - intros (before & propName & propRef & after & h1 & Heq & Hbefore & Hfail).
    destruct (enrichProperty_error _ _ _ _ _ _ _ Hfail) as (cause & -> & _).
    exists before, propName, propRef, after, h1, cause. eauto.
  - intros (before & propName & propRef & after & h1 & cause & ? & ? & ? & _).
    eauto 10.
Qed.
End frame.

(** The node [Code] of the old test, with a stored [manual_tag] and a
    generated [min=5]. *)
Lemma enrichNode_frame_witness :
  ∃ h',
    enrichNode fmt_f0_integer noPattern codeCtx
      (codeHeap (stringSchema (Some 10%positive) 5) "manual_tag")
    = Done (None, h')
    ∧ schemaRefs h'
      = schemaRefs (codeHeap (stringSchema (Some 10%positive) 5) "manual_tag")
    ∧ schemas h' !! 2%positive = Some (stringSchema (Some 10%positive) 5).
Proof.
  eexists. split; [by vm_compute|].
  destruct (enrichNode_frame fmt_f0_integer noPattern codeCtx
              (codeHeap (stringSchema (Some 10%positive) 5) "manual_tag")
              None _ ltac:(by vm_compute)) as (Hrefs & _ & _ & _).
  split; [exact Hrefs|by vm_compute].
Defined.

(** The node [Order]: [qty] fails first, and [price] is not looked at. *)
Lemma enrichNode_first_error_witness :
  ∃ before propName propRef after h1 cause,
    Properties (objectSchema [] qtyPrice) = before ++ (propName, propRef) :: after
    ∧ enrichProperties fmt_f0_integer noPattern
        {| schema := 1; Name := "Order" |} [] before (orderHeap qtyPrice)
      = Done (None, h1)
    ∧ enrichProperty fmt_f0_integer noPattern
        {| schema := 1; Name := "Order" |} [] propName propRef h1
      = Done (Some (errProperty "Order" "qty" errMultipleOf), orderHeap qtyPrice)
    ∧ errProperty "Order" "qty" errMultipleOf = errProperty "Order" propName cause.
Proof.
  apply (proj1 (enrichNode_first_error fmt_f0_integer noPattern
                  {| schema := 1; Name := "Order" |} (orderHeap qtyPrice)
                  (objectSchema [] qtyPrice)
                  (errProperty "Order" "qty" errMultipleOf) (orderHeap qtyPrice)
                  eq_refl)).
  by vm_compute.
Defined.

(** ** What the pass does to the references and to the schemas *)

Lemma range_invariant {St A L} (I : L → St → Prop) (xs : list A)
    (body : A → L → action St (bool * L)) :
  (∀ x l s more l' s', x ∈ xs → I l s →
     body x l s = Done ((more, l'), s') → I l' s') →
  ∀ l s l' s', I l s → range xs body l s = Done (l', s') → I l' s'.
Proof.
  induction xs as [|x xs IH]; intros Hbody l s l' s' Hl.
  - by intros [= <- <-].
  - cbn [range]. intros ([[] l1] & s1 & Hx & Hrest)%bind_Done_inv.
    + eapply IH; [|by eapply Hbody; [left|..]|done].
      intros. eapply Hbody; [by right|done..].
    + injection Hrest as <- <-. eapply Hbody; [by left|done..].
Qed.

Section pass.
Context {float64 : Type} (fmt_f0 : float64 → string)
  (regexp_Compile : string → option string).
Implicit Types (h : Heap float64) (sv : Schema float64).

Lemma preserves_getChildren (R : relation (Heap float64))
    `{!Reflexive R, !Transitive R} (ctx : SchemaContext) {L}
    (yield : SchemaContext → L → action (Heap float64) (bool * L)) l :
  (∀ x l, preserves R (yield x l)) → preserves R (getChildren ctx L yield l).
Proof.
  intros Hyield. unfold getChildren.
  apply preserves_bind; [done|by apply preserves_deref|]. intros s.
  apply preserves_range; [done..|]. intros [propName propRef] l' _.
  apply preserves_bind; [done|by apply preserves_deref|]. intros r.
  destruct (Value r); [apply Hyield|by apply preserves_ret].
Qed.

(** A consumer that never stops the traversal is never told to stop by
    [walk]. *)
Lemma walk_getChildren_more {L}
    (yield : SchemaContext → L → action (Heap float64) (bool * L)) :
  (∀ n l h more l' h', yield n l h = Done ((more, l'), h') → more = true) →
  ∀ fuel n l h more l' h',
    walk fuel getChildren yield n l h = Done ((more, l'), h') → more = true.
Proof.
  intros Hyield fuel.
  induction fuel as [|fuel IH]; intros n l h more l' h'; [done|].
  cbn [walk].
  intros ([more0 l0] & h0 & Hn & Hrest)%bind_Done_inv.
  rewrite (Hyield _ _ _ _ _ _ Hn) in Hrest. cbn [negb] in Hrest.
  unfold getChildren in Hrest.
  apply bind_Done_inv in Hrest as (s & h1 & _ & Hrest).
  apply (range_invariant (λ '(ret, _) _, ret = true)) in Hrest; [done| |done].
  intros [propName propRef] [ret l1] h2 more1 [ret' l2] h3 _ ->.
  intros (r & h4 & _ & Hchild)%bind_Done_inv.
  destruct (Value r) as [v|]; [|by injection Hchild as _ <- _ _].
  apply bind_Done_inv in Hchild as ([more2 l3] & h5 & Hwalk & Hchild).
  rewrite (IH _ _ _ _ _ _ Hwalk) in Hchild. by injection Hchild as _ <- _ _.
Qed.

(** The consumer of [enrichSpec]: the body of its loop. *)
Lemma enrichSpec_yield_more ctx (errs : option error) h more errs' h' :
  (err ← enrichNode fmt_f0 regexp_Compile ctx;
   match err with
   | Some _ => mret (true, errors_Join [errs; err])
   | None => mret (true, errs)
   end) h = Done ((more, errs'), h') →
  more = true.
Proof.
  intros ([err|] & h1 & _ & Hrest)%bind_Done_inv; by injection Hrest as <- _ _.
Qed.

Lemma preserves_enrichSpec_yield ctx (errs : option error) :
  preserves enriched
    (err ← enrichNode fmt_f0 regexp_Compile ctx;
     match err with
     | Some _ => mret (true, errors_Join [errs; err])
     | None => mret (true, errs)
     end).
Proof.
  apply preserves_bind; [apply _|apply preserves_enrichNode|].
  intros [err|]; apply preserves_ret, _.
Qed.

Lemma clearedRef_Value roots p r : Value (clearedRef roots p r) = Value r.
Proof. unfold clearedRef. by case_decide. Qed.

(** The loop of [PreOrder] over the roots that [toSchemaContext] yields:
    [done] are the roots of the turns that are over. *)
Lemma enrichSpec_roots h fuel (todo : list (string * loc)) :
  ∀ (done : list loc) (errs : option error) hi errs' h',
    (∀ p, schemaRefs hi !! p = clearedRef done p <$> schemaRefs h !! p) →
    range todo
      (λ '(name, ref) l,
         r ← deref schemaRefs ref;
         match Value r with
         | Some v =>
             setSchemaRef ref (withRef r "");;
             walk fuel getChildren
               (λ ctx errs,
                  err ← enrichNode fmt_f0 regexp_Compile ctx;
                  match err with
                  | Some _ => mret (true, errors_Join [errs; err])
                  | None => mret (true, errs)
                  end)
               {| schema := v; Name := name |} l
         | None => mret (true, l)
         end)
      errs hi
    = Done (errs', h') →
    ∀ p, schemaRefs h' !! p = clearedRef (done ++ todo.*2) p <$> schemaRefs h !! p.
Proof.
  induction todo as [|[name ref] todo IH]; intros done errs hi errs' h' Hi.
  - intros [= _ <-] p. by rewrite app_nil_r.
  - cbn [range].
    intros ([more errs1] & h1 & Hturn & Hrest)%bind_Done_inv.
    apply bind_Done_inv in Hturn as (r & h0 & [-> Hr]%deref_Done_inv & Hturn).
    assert (more = true ∧
            ∀ p, schemaRefs h1 !! p
                 = clearedRef (done ++ [ref]) p <$> schemaRefs h !! p) as [-> Hi1].
    { rewrite Hi in Hr.
      destruct (schemaRefs h !! ref) as [r0|] eqn:Hr0; [|done].
      injection Hr as <-. rewrite clearedRef_Value in Hturn.
      destruct (Value r0) as [v|] eqn:Hv.
      - apply bind_Done_inv in Hturn as ([] & h2 & [= <-] & Hwalk).
        assert (withRef (clearedRef done ref r0) "" = withRef r0 "") as Hclear
          by (unfold clearedRef; by case_decide).
        rewrite Hclear in Hwalk.
        split; [by eapply walk_getChildren_more, Hwalk; apply enrichSpec_yield_more|].
        assert (schemaRefs h1 = <[ref := withRef r0 ""]> (schemaRefs hi)) as Hrefs.
        { eapply (preserves_walk enriched) in Hwalk as [Hrefs _]; [exact Hrefs|..].
          - intros. by apply preserves_getChildren; [apply _..|].
          - intros. apply preserves_enrichSpec_yield. }
        rewrite Hrefs. clear Hrefs.
        intros p. cbn [schemaRefs]. destruct (decide (p = ref)) as [->|Hne].
        + rewrite lookup_insert_eq, Hr0. cbn. f_equal.
          unfold clearedRef. rewrite Hv.
          rewrite (decide_True (P := ref ∈ done ++ [ref] ∧ _))
            by (split; [apply elem_of_app; right; apply list_elem_of_here|done]).
          done.
        + rewrite lookup_insert_ne, Hi by done.
          destruct (schemaRefs h !! p) as [rp|]; [|done]. cbn. f_equal.
          unfold clearedRef. apply decide_ext.
          rewrite elem_of_app, list_elem_of_singleton. tauto.
      - injection Hturn as <- _ <-. split; [done|]. intros p. rewrite Hi.
        destruct (schemaRefs h !! p) as [rp|] eqn:Hrp; [|done]. cbn. f_equal.
        unfold clearedRef. apply decide_ext.
        rewrite elem_of_app, list_elem_of_singleton.
        split; [tauto|]. intros [[?| ->] Hsome]; [done|].
        rewrite Hr0 in Hrp. injection Hrp as <-. rewrite Hv in Hsome.
        by destruct Hsome. }
    intros p. rewrite (IH _ _ _ _ _ Hi1 Hrest).
    by rewrite <- app_assoc.
Qed.

(** X11.  When the pass returns, the references of the
    document are those it had, but that [Ref] is empty in each root
    reference that has a schema: in no other reference, be it the
    reference of a property that the pass went through, has [Ref] been
    cleared, and no reference points to another schema. *)
Theorem enrichSpec_refs fuel doc (c : Components) h errs h' :
  components doc = Some c →
  enrichSpec fmt_f0 regexp_Compile fuel doc h = Done (errs, h') →
  ∀ p, schemaRefs h' !! p
       = clearedRef (Schemas c).*2 p <$> schemaRefs h !! p.
Proof.
  intros Hc. unfold enrichSpec. rewrite Hc. cbn [from_option].
  intros (c' & h0 & [= <- <-] & Hrun)%bind_Done_inv.
  apply (enrichSpec_roots h fuel (Schemas c) [] None h errs h'); [|done].
  intros p. destruct (schemaRefs h !! p); [|done]. cbn.
  unfold clearedRef. rewrite decide_False; [done|]. by intros [?%elem_of_nil _].
Qed.

(** X12.  Whatever the pass returns, it has changed no
    schema but in its extensions: the constraints, the property lists
    and the required-field lists of the document are as they were; a
    schema that had an extension map still has that map; and no map has
    been removed from the heap. *)
Theorem enrichSpec_frame fuel doc h errs h' :
  enrichSpec fmt_f0 regexp_Compile fuel doc h = Done (errs, h') →
  (∀ p, (λ s, withExtensions s None) <$> schemas h' !! p
        = (λ s, withExtensions s None) <$> schemas h !! p)
  ∧ (∀ p s ext, schemas h !! p = Some s → Extensions s = Some ext →
       ∃ s', schemas h' !! p = Some s' ∧ Extensions s' = Some ext)
  ∧ dom (dicts h) ⊆ dom (dicts h').
Proof.
  revert h errs h'. change (preserves schemasKept (enrichSpec fmt_f0 regexp_Compile fuel doc)).
  unfold enrichSpec. apply preserves_bind; [apply _| |].
  { destruct (components doc); [apply preserves_ret, _|apply preserves_panic]. }
  intros c. apply preserves_PreOrder; [apply _..| | |].
  - intros y l Hy. unfold toSchemaContext.
    apply preserves_range; [apply _..|]. intros [name ref] l' _.
    apply preserves_bind; [apply _|apply preserves_deref, _|]. intros r.
    destruct (Value r); [|apply preserves_ret, _].
    apply preserves_bind; [apply _| |intros; apply Hy].
    intros hi [] hi' [= <-]. split; [done|]. split; [eauto|done].
  - intros. by apply preserves_getChildren; [apply _..|].
  - intros ctx errs0 hi a hi' Hrun.
    by apply preserves_enrichSpec_yield in Hrun as [_ ?].
Qed.
End pass.

(** The document [User]: the [Ref] of the two roots is cleared, the
    [Ref] of the property [bio] stays. *)
Lemma enrichSpec_refs_witness :
  ∃ h',
    enrichSpec fmt_f0_integer noPattern 2 userDoc userHeap = Done (None, h')
    ∧ schemaRefs h' !! 4%positive = Some {| Ref := ""; Value := Some 3%positive |}
    ∧ schemaRefs h' !! 3%positive
      = Some {| Ref := "#/components/schemas/Bio"; Value := Some 3%positive |}.
Proof.
  eexists. split; [by vm_compute|].
  pose proof (enrichSpec_refs fmt_f0_integer noPattern 2 userDoc
                {| Schemas := [("Bio", 4%positive); ("User", 1%positive)] |}
                userHeap None _ eq_refl ltac:(by vm_compute)) as Hrefs.
  split; [exact (Hrefs 4%positive)|exact (Hrefs 3%positive)].
Defined.

Lemma enrichSpec_frame_witness :
  ∃ h',
    enrichSpec fmt_f0_integer noPattern 2 codeDoc
      (codeHeap (stringSchema (Some 10%positive) 5) "manual_tag")
    = Done (None, h')
    ∧ (λ s, withExtensions s None) <$> schemas h' !! 2%positive
      = Some (stringSchema None 5).
Proof.
  eexists. split; [by vm_compute|].
  destruct (enrichSpec_frame fmt_f0_integer noPattern 2 codeDoc
              (codeHeap (stringSchema (Some 10%positive) 5) "manual_tag")
              None _ ltac:(by vm_compute)) as (Hschemas & _ & _).
  exact (Hschemas 2%positive).
Defined.

(** ** Traversals that do not end *)

Section unbounded.
Context {St T L : Type} (kids : T → list T)
  (yield : T → L → action St (bool * L)).
Hypothesis yield_more : ∀ n l s, ∃ l' s', yield n l s = Done ((true, l'), s').

(** The loop of [walk] over the children, when [walk] on a child returns
    without a stop or exceeds the bound. *)
Lemma walk_children_Done_or_OutOfFuel fuel (children : list T) :
  (∀ n l s,
     (∃ l' s', walk fuel (λ n, Values (kids n)) yield n l s = Done ((true, l'), s'))
     ∨ walk fuel (λ n, Values (kids n)) yield n l s = OutOfFuel) →
  ∀ (ret : bool) l s,
    let loop :=
      range children
        (λ child '(ret, l),
           '(more, l) ← walk fuel (λ n, Values (kids n)) yield child l;
           if negb more then mret (false, (false, l))
           else mret (true, (ret, l)))
        (ret, l) s in
    (∃ l' s', loop = Done ((ret, l'), s')
       ∧ ∀ child, child ∈ children →
           ∃ l0 s0 l1 s1,
             walk fuel (λ n, Values (kids n)) yield child l0 s0
             = Done ((true, l1), s1))
    ∨ loop = OutOfFuel.
Proof.
  intros Hwalk. induction children as [|child rest IH]; intros ret l s loop.
  - left. exists l, s. split; [done|]. by intros ? ?%elem_of_nil.
  - unfold loop. cbn [range].
    destruct (Hwalk child l s) as [(l1 & s1 & Hchild)|Hchild].
    + erewrite bind_Done by by erewrite bind_Done by done.
      cbn [negb]. destruct (IH ret l1 s1) as [(l' & s' & Hrest & Hall)|Hrest].
      * left. exists l', s'. split; [done|].
        intros x [->|Hx]%elem_of_cons; eauto 10.
      * by right.
    + right. unfold mbind, action_bind. by rewrite Hchild.
Qed.

Lemma walk_Done_or_OutOfFuel fuel : ∀ n l s,
  (∃ l' s', walk fuel (λ n, Values (kids n)) yield n l s = Done ((true, l'), s'))
  ∨ walk fuel (λ n, Values (kids n)) yield n l s = OutOfFuel.
Proof.
  induction fuel as [|fuel IH]; intros n l s; [by right|].
  cbn [walk]. destruct (yield_more n l s) as (l1 & s1 & Hyield).
  erewrite bind_Done by done. cbn [negb]. unfold Values.
  destruct (walk_children_Done_or_OutOfFuel fuel (kids n) IH true l1 s1)
    as [(l' & s' & Hloop & _)|Hloop]; [left; eauto|by right].
Qed.

(** From a node of [endless], a set of nodes that each have a child in
    the set, [walk] exceeds every bound. *)
Lemma walk_endless (endless : T → Prop) :
  (∀ n, endless n → ∃ child, child ∈ kids n ∧ endless child) →
  ∀ fuel n l s, endless n →
    walk fuel (λ n, Values (kids n)) yield n l s = OutOfFuel.
Proof.
  intros Hendless fuel.
  induction fuel as [|fuel IH]; intros n l s Hn; [done|].
  cbn [walk]. destruct (yield_more n l s) as (l1 & s1 & Hyield).
  erewrite bind_Done by done. cbn [negb]. unfold Values.
  destruct (walk_children_Done_or_OutOfFuel fuel (kids n)
              (walk_Done_or_OutOfFuel fuel) true l1 s1)
    as [(l' & s' & _ & Hall)|Hloop]; [|done].
  destruct (Hendless n Hn) as (child & Hin & Hchild).
  destruct (Hall child Hin) as (l0 & s0 & l2 & s2 & Hwalk).
  by rewrite IH in Hwalk.
Qed.

(** X13.  [PreOrder] does not notice that it comes to a node
    again.  When a root belongs to a set of nodes that each have a child
    in the set, as the nodes of a cycle do, and the consumer always
    returns and never stops, the traversal exceeds every bound on the
    depth of its calls: in Go it does not return. *)
Theorem PreOrder_endless (endless : T → Prop) (roots : list T) (root : T) :
  (∀ n, endless n → ∃ child, child ∈ kids n ∧ endless child) →
  root ∈ roots → endless root →
  ∀ fuel l s,
    PreOrder fuel (Values roots) (λ n, Values (kids n)) L yield l s = OutOfFuel.
Proof.
  intros Hendless (before & after & ->)%list_elem_of_split Hin fuel.
  unfold PreOrder. unfold Values at 1.
  induction before as [|root0 before IH]; intros l s; cbn [app range];
    unfold mbind, action_bind.
  - by rewrite (walk_endless endless).
  - destruct (walk_Done_or_OutOfFuel fuel root0 l s) as [(l' & s' & ->)| ->];
      [apply IH|done].
Qed.
End unbounded.

(** Two nodes that are each the child of the other. *)
Lemma PreOrder_endless_witness :
  PreOrder 10 (Values [0; 1])
    (λ n, Values (if decide (n = 1) then [2]
                  else if decide (n = 2) then [1] else []))
    (list nat) (λ n visited, mret (true, visited ++ [n])) [] tt
  = OutOfFuel.
Proof.
  apply (PreOrder_endless (St := unit)
           (λ n : nat, if decide (n = 1) then [2]
                       else if decide (n = 2) then [1] else [])
           (λ n visited, mret (true, visited ++ [n]))
           (λ n l s, ex_intro _ _ (ex_intro _ _ eq_refl))
           (λ n, n = 1 ∨ n = 2) [0; 1] 1).
  - intros n [-> | ->]; [exists 2|exists 1]; cbn;
      (split; [apply list_elem_of_here|lia]).
  - apply list_elem_of_further, list_elem_of_here.
  - by left.
Defined.

(** ** Recursive schemas *)

Lemma preserves_weaken {St A} (R R' : St → St → Prop) (m : action St A) :
  (∀ s s', R s s' → R' s s') → preserves R m → preserves R' m.
Proof. intros HR Hm s a s' Hrun. by eapply HR, Hm. Qed.

(** A loop that ran to its end, with a body that never stops it, has
    run its body on every element. *)
Lemma range_Done_all {St A L} (R : St → St → Prop)
    `{!Reflexive R, !Transitive R} (xs : list A)
    (body : A → L → action St (bool * L)) :
  (∀ x l, preserves R (body x l)) →
  (∀ x l s more l' s', body x l s = Done ((more, l'), s') → more = true) →
  ∀ l s l' s', range xs body l s = Done (l', s') →
  ∀ x, x ∈ xs →
    ∃ l0 s0 l1 s1, R s s0 ∧ body x l0 s0 = Done ((true, l1), s1).
Proof.
  intros Hpreserves Hmore.
  induction xs as [|x0 xs IH]; intros l s l' s' Hrun x Hx;
    [by apply elem_of_nil in Hx|].
  cbn [range] in Hrun.
  apply bind_Done_inv in Hrun as ([more l1] & s1 & Hx0 & Hrest).
  pose proof (Hmore _ _ _ _ _ _ Hx0) as ->.
  apply elem_of_cons in Hx as [->|Hx]; [by eauto 10|].
  destruct (IH _ _ _ _ Hrest x Hx) as (l2 & s2 & l3 & s3 & HR & Hbody).
  exists l2, s2, l3, s3. split; [|done].
  transitivity s1; [by eapply Hpreserves|done].
Qed.

#[global] Instance sameGraph_refl {float64} : Reflexive (@sameGraph float64).
Proof. by intros h. Qed.

#[global] Instance sameGraph_trans {float64} : Transitive (@sameGraph float64).
Proof.
  intros h1 h2 h3 [Hr Hs] [Hr' Hs']. split; [|by etransitivity].
  intros p. by rewrite Hr', Hr.
Qed.

Section recursive.
Context {float64 : Type} (fmt_f0 : float64 → string)
  (regexp_Compile : string → option string).
Implicit Types (h : Heap float64) (sv : Schema float64).

Lemma enriched_sameGraph h h' : enriched h h' → sameGraph h h'.
Proof. intros [Hr Hs]. split; [|done]. intros p. by rewrite Hr. Qed.

Lemma childOf_sameGraph h h' v w : sameGraph h h' → childOf h v w → childOf h' v w.
Proof.
  intros [Hrefs (Hschemas & _)] (sv & propName & propRef & r & Hv & Hin & Hr & Hw).
  specialize (Hschemas v). specialize (Hrefs propRef).
  rewrite Hv in Hschemas. rewrite Hr in Hrefs.
  destruct (schemas h' !! v) as [sv'|] eqn:Hv'; [|done].
  destruct (schemaRefs h' !! propRef) as [r'|] eqn:Hr'; [|done].
  cbn in Hschemas, Hrefs. apply (inj Some) in Hschemas, Hrefs.
  exists sv', propName, propRef, r'. split; [done|]. split; [|split; [done|congruence]].
  apply (f_equal Properties) in Hschemas. cbn in Hschemas. by rewrite Hschemas.
Qed.

Lemma sameGraph_setSchemaRef h ref r :
  schemaRefs h !! ref = Some r →
  sameGraph h {| schemaRefs := <[ref := withRef r ""]> (schemaRefs h);
                 schemas := schemas h; dicts := dicts h |}.
Proof.
  intros Hr. split; [|split; [done|split; [eauto|done]]]. intros p. cbn.
  destruct (decide (p = ref)) as [->|Hne].
  - by rewrite lookup_insert_eq, Hr.
  - by rewrite lookup_insert_ne.
Qed.

Lemma preserves_walk_visit fuel ctx errs :
  preserves sameGraph (walk fuel getChildren (visit fmt_f0 regexp_Compile) ctx errs).
Proof.
  apply preserves_walk; [apply _..| |].
  - intros. by apply preserves_getChildren; [apply _..|].
  - intros. eapply preserves_weaken; [apply enriched_sameGraph|].
    apply preserves_enrichSpec_yield.
Qed.

Lemma walk_recursive h (recursive : loc → Prop) :
  (∀ v, recursive v → ∃ w, childOf h v w ∧ recursive w) →
  ∀ fuel ctx errs hi res h',
    sameGraph h hi → recursive (schema ctx) →
    walk fuel getChildren (visit fmt_f0 regexp_Compile) ctx errs hi ≠ Done (res, h').
Proof.
  intros Hrecursive fuel.
  induction fuel as [|fuel IH]; intros ctx errs hi res h' Hhi Hctx; [done|].
  cbn [walk]. intros ([more errs1] & h1 & Hyield & Hrest)%bind_Done_inv.
  pose proof (enrichSpec_yield_more _ _ _ _ _ _ _ _ Hyield) as ->.
  assert (sameGraph h h1) as Hh1.
  { transitivity hi; [done|].
    by apply preserves_enrichSpec_yield, enriched_sameGraph in Hyield. }
  cbn [negb] in Hrest. unfold getChildren in Hrest.
  apply bind_Done_inv in Hrest as (sv & h0 & [-> Hsv]%deref_Done_inv & Hrest).
  destruct (Hrecursive _ Hctx) as (w & Hchild & Hw).
  apply (childOf_sameGraph h h1) in Hchild
    as (sv' & propName & propRef & r & Hsv' & Hin & Hr & Hvalue); [|done].
  assert (sv' = sv) as -> by congruence.
  eapply (range_Done_all sameGraph) in Hrest
    as ([ret0 errs0] & h2 & l3 & h3 & Hh2 & Hturn); [| | |exact Hin].
  - apply bind_Done_inv in Hturn as (r' & h4 & [-> Hr']%deref_Done_inv & Hturn).
    assert (Value r' = Some w) as Hvalue'.
    { destruct Hh2 as [Hrefs _]. specialize (Hrefs propRef).
      rewrite Hr, Hr' in Hrefs. injection Hrefs as Hrefs. congruence. }
    rewrite Hvalue' in Hturn.
    apply bind_Done_inv in Hturn as (res' & h5 & Hwalk & _).
    eapply IH in Hwalk; [done| |done].
    by transitivity h1.
  - intros [name ref] [ret errs']. 
    apply preserves_bind; [apply _|apply preserves_deref, _|]. intros r0.
    destruct (Value r0); [|apply preserves_ret, _].
    apply preserves_bind; [apply _|apply preserves_walk_visit|].
    intros [more errs'']. destruct (negb more); apply preserves_ret, _.
  - intros [name ref] [ret errs'] h2 more l' h3.
    intros (r0 & h4 & _ & Hturn)%bind_Done_inv.
    destruct (Value r0); [|by injection Hturn as <- _ _].
    apply bind_Done_inv in Hturn as ([more' errs''] & h5 & Hwalk & Hturn).
    apply walk_getChildren_more in Hwalk as ->;
      [|intros; by eapply enrichSpec_yield_more].
    by injection Hturn as <- _ _.
Qed.

(** X14.  The pass does not end on a document with a
    recursive schema.  When a root reference points to a schema of
    [recursive], a set of schemas that each have a property whose schema
    is in the set, as a schema with a property of its own type has, the
    pass returns for no bound on the depth of the traversal: it panics,
    or it exceeds the bound, whatever the bound is. *)
Theorem enrichSpec_recursive (recursive : loc → Prop) fuel doc (c : Components) h
    (name : string) (ref : loc) (r : SchemaRef) (v : loc) :
  components doc = Some c → (name, ref) ∈ Schemas c →
  schemaRefs h !! ref = Some r → Value r = Some v → recursive v →
  (∀ v, recursive v → ∃ w, childOf h v w ∧ recursive w) →
  enrichSpec fmt_f0 regexp_Compile fuel doc h = NilDeref
  ∨ enrichSpec fmt_f0 regexp_Compile fuel doc h = OutOfFuel.
Proof.
  intros Hc Hin Hr Hvalue Hv Hrecursive.
  destruct (enrichSpec _ _ fuel doc h) as [[errs h']| |] eqn:Hrun; [|by left|by right].
  exfalso. revert Hrun. unfold enrichSpec. rewrite Hc. cbn [from_option].
  intros (c' & h0 & [= <- <-] & Hrun)%bind_Done_inv.
  unfold PreOrder, toSchemaContext in Hrun.
  eapply (range_Done_all sameGraph) in Hrun
    as (errs0 & h1 & l2 & h2 & Hh1 & Hturn); [| | |exact Hin].
  - apply bind_Done_inv in Hturn as (r' & h3 & [-> Hr']%deref_Done_inv & Hturn).
    assert (Value r' = Some v) as Hvalue'.
    { destruct Hh1 as [Hrefs _]. specialize (Hrefs ref).
      rewrite Hr, Hr' in Hrefs. injection Hrefs as Hrefs. congruence. }
    rewrite Hvalue' in Hturn.
    apply bind_Done_inv in Hturn as ([] & h4 & [= <-] & Hwalk).
    eapply (walk_recursive h recursive) in Hwalk; [done..| |done].
    transitivity h1; [done|]. by apply sameGraph_setSchemaRef.
  - intros [name0 ref0] errs0.
    intros h1 [more errs1] h2 (r0 & h3 & [-> Hr0]%deref_Done_inv & Hturn)%bind_Done_inv.
    destruct (Value r0) eqn:Hvalue0; [|injection Hturn as _ _ <-; reflexivity].
    apply bind_Done_inv in Hturn as ([] & h4 & [= <-] & Hwalk).
    apply preserves_walk_visit in Hwalk.
    etransitivity; [|exact Hwalk]. by apply sameGraph_setSchemaRef.
  - intros [name0 ref0] errs0 h1 more errs1 h2.
    intros (r0 & h3 & _ & Hturn)%bind_Done_inv.
    destruct (Value r0); [|by injection Hturn as <- _ _].
    apply bind_Done_inv in Hturn as ([] & h4 & _ & Hwalk).
    apply walk_getChildren_more in Hwalk as ->; [done|].
    intros; by eapply enrichSpec_yield_more.
Qed.
End recursive.

(** The schema [Node] of a list, with its property [next] of type
    [Node]. *)
Lemma enrichSpec_recursive_witness :
  enrichSpec fmt_f0_integer noPattern 10 nodeDoc nodeHeap = NilDeref
  ∨ enrichSpec fmt_f0_integer noPattern 10 nodeDoc nodeHeap = OutOfFuel.
Proof.
  apply (enrichSpec_recursive fmt_f0_integer noPattern (λ v, v = 1%positive)
           10 nodeDoc {| Schemas := [("Node", 1%positive)] |} nodeHeap
           "Node" 1 (inlineRef 1) 1 eq_refl (list_elem_of_here _ _)
           eq_refl eq_refl eq_refl).
  intros v ->. exists 1%positive. split; [|done].
  exists (objectSchema ["value"] [("value", 2%positive); ("next", 3%positive)]),
    "next", 3%positive,
    {| Ref := "#/components/schemas/Node"; Value := Some 1%positive |}.
  split; [done|]. split; [|done].
  apply list_elem_of_further, list_elem_of_here.
Defined.

(** ** Stored rule strings: parsing and joining *)

Lemma trimSpaceBytes_elem bs c : c ∈ trimSpaceBytes bs → c ∈ bs.
Proof.
  unfold trimSpaceBytes. cbv zeta.
  destruct (trimWhile_suffix spaceWidth (length bs) bs) as [dropped Hleft].
  set (left := trimWhile spaceWidth (length bs) bs) in *.
  destruct (trimWhile_suffix spaceWidthRev (length (reverse left)) (reverse left))
    as [dropped' Hright].
  set (right := trimWhile spaceWidthRev (length (reverse left)) (reverse left)) in *.
  intros Hc%elem_of_reverse. rewrite reverse_involutive in Hc.
  rewrite Hleft, elem_of_app. right.
  apply elem_of_reverse. rewrite Hright, elem_of_app. by right.
Qed.

Lemma strings_TrimSpace_commaFree s : commaFree s → commaFree (strings_TrimSpace s).
Proof.
  unfold commaFree, strings_TrimSpace.
  rewrite list_ascii_of_string_of_list_ascii. intros Hs Hc.
  by apply Hs, trimSpaceBytes_elem.
Qed.

Lemma strings_SplitSeq_commaFree s : Forall commaFree (strings_SplitSeq s ",").
Proof.
  unfold commaFree.
  induction s as [|c s IH]; cbn [strings_SplitSeq].
  - repeat constructor. cbn. apply not_elem_of_nil.
  - destruct (Ascii.eqb_spec c ",") as [->|Hne].
    + constructor; [apply not_elem_of_nil|done].
    + destruct (strings_SplitSeq s ",") as [|p ps].
      * repeat constructor. cbn. rewrite elem_of_cons, elem_of_nil.
        intros [?|[]]. by apply Hne.
      * apply Forall_cons in IH as [Hp Hps]. constructor; [|done].
        cbn. rewrite elem_of_cons. intros [?|?]; [by apply Hne|done].
Qed.

Lemma cleanRules_commaFree parts :
  Forall commaFree parts → Forall commaFree (cleanRules parts).
Proof.
  unfold cleanRules. induction 1 as [|part parts Hpart _ IH]; [constructor|].
  cbn [fmap list_fmap]. rewrite filter_cons. case_decide; [|done].
  constructor; [by apply strings_TrimSpace_commaFree|done].
Qed.

(** The rules that are read from a stored rule string are not empty,
    have no white space around them and hold no comma. *)
Lemma parseValidate_clean existingVal :
  Forall (λ rule, (strings_TrimSpace rule = rule ∧ rule ≠ "") ∧ commaFree rule)
    (parseValidate existingVal).
Proof.
  unfold parseValidate. destruct (negb _); [|constructor].
  rewrite parseRules_eq, app_nil_l. apply Forall_and. split.
  - apply cleanRules_Forall.
  - apply cleanRules_commaFree, strings_SplitSeq_commaFree.
Qed.

Lemma strings_SplitSeq_free s : commaFree s → strings_SplitSeq s "," = [s].
Proof.
  unfold commaFree. induction s as [|c s IH]; [done|].
  cbn. rewrite elem_of_cons. intros Hs.
  destruct (Ascii.eqb_spec c ",") as [->|Hne]; [tauto|].
  rewrite IH; [done|tauto].
Qed.

Lemma strings_SplitSeq_app s rest :
  commaFree s →
  strings_SplitSeq (s +:+ String "," rest) "," = s :: strings_SplitSeq rest ",".
Proof.
  unfold commaFree. induction s as [|c s IH].
  - intros _. reflexivity.
  - change (String c s +:+ String "," rest)
      with (String c (s +:+ String "," rest)).
    cbn [strings_SplitSeq list_ascii_of_string].
    rewrite elem_of_cons. intros Hs.
    destruct (Ascii.eqb_spec c ",") as [->|Hne]; [tauto|].
    rewrite IH; [done|tauto].
Qed.

Lemma strings_SplitSeq_Join rules :
  rules ≠ [] → Forall commaFree rules →
  strings_SplitSeq (strings_Join rules ",") "," = rules.
Proof.
  intros Hne Hrules. unfold strings_Join.
  induction Hrules as [|rule rules Hrule Hrules IH]; [done|].
  cbn [String.concat]. destruct rules as [|rule' rules].
  - by apply strings_SplitSeq_free.
  - change ("," +:+ ?s) with (String "," s).
    rewrite strings_SplitSeq_app by done. f_equal. by apply IH.
Qed.

(** Joined and read again, rules that are not empty, have no white space
    around them and hold no comma are the rules they were. *)
Lemma parseValidate_Join rules :
  Forall (λ rule, (strings_TrimSpace rule = rule ∧ rule ≠ "") ∧ commaFree rule) rules →
  parseValidate (strings_Join rules ",") = rules.
Proof.
  intros [Hclean Hfree]%Forall_and. unfold parseValidate.
  destruct rules as [|rule rules]; [done|].
  assert (strings_Join (rule :: rules) "," ≠ "") as Hne.
  { apply Forall_cons in Hclean as [[_ Hrule] _].
    unfold strings_Join. cbn [String.concat].
    destruct rule; [done|]. by destruct rules. }
  apply String.eqb_neq in Hne. rewrite Hne. cbn [negb].
  rewrite strings_SplitSeq_Join, parseRules_eq, app_nil_l by done.
  by apply cleanRules_clean.
Qed.

(** ** A turn of the loop that writes, and the turn after it *)

Section written.
Context {float64 : Type} (fmt_f0 : float64 → string)
  (regexp_Compile : string → option string).
Implicit Types (h : Heap float64) (sv : Schema float64) (v ext extMap : loc).

Lemma storedRules_parseValidate h v :
  storedRules h v
  = match storedValidate h v with
    | Some (anyString existingVal) => parseValidate existingVal
    | _ => []
    end.
Proof.
  unfold storedRules, parseValidate.
  destruct (storedValidate h v) as [[existingVal| |]|]; try done.
  case_decide as Hval; [by subst|]. apply String.eqb_neq in Hval. by rewrite Hval.
Qed.

Lemma storedRules_Forall h v :
  Forall (λ rule, (strings_TrimSpace rule = rule ∧ rule ≠ "") ∧ commaFree rule)
    (storedRules h v).
Proof.
  rewrite storedRules_parseValidate.
  destruct (storedValidate h v) as [[existingVal| |]|];
    apply parseValidate_clean || constructor.
Qed.

(** The rules of a merge have what the kept existing rules and the
    generated rules have. *)
Lemma mergeRules_Forall (P : string → Prop) existingRules newRules rules :
  Forall P (cleanRules existingRules) → Forall P newRules →
  mergeRules existingRules newRules = Ok rules → Forall P rules.
Proof.
  rewrite !Forall_forall. intros Hexisting HnewRules Hmerge rule Hin.
  revert Hmerge Hin. unfold mergeRules. rewrite mergeRules_existing_eq. cbn.
  intros Hmerge. eapply mergeRules_new_members in Hmerge as ->.
  - intros [?|?]; eauto.
  - intros key tag. rewrite recordKeys_empty_lookup.
    by intros [? _]%lastWithKey_Some.
Qed.

Lemma generateRules_withExtensions sv (e : option loc) :
  generateRules fmt_f0 regexp_Compile (withExtensions sv e)
  = generateRules fmt_f0 regexp_Compile sv.
Proof. reflexivity. Qed.

(** [writeRules] on a heap that holds the two maps: the heap it
    leaves. *)
Lemma writeRules_Done h v sv ext extMap (extensions extraTags : gmap string any)
    (oapiRules : list string) :
  schemas h !! v = Some sv → Extensions sv = Some ext →
  dicts h !! extMap = Some extraTags → dicts h !! ext = Some extensions →
  let written := <[validate := anyString (strings_Join oapiRules ",")]> extraTags in
  writeRules v extMap oapiRules h
  = Done (tt, {| schemaRefs := schemaRefs h; schemas := schemas h;
                 dicts := <[ext := <[tagKey := anyMap extMap]>
                                     (if decide (ext = extMap) then written
                                      else extensions)]>
                            (<[extMap := written]> (dicts h)) |}).
Proof.
  intros Hv Hext HextMap Hextensions written. unfold writeRules.
  erewrite bind_Done by by apply dictStore_Done.
  erewrite bind_Done by by apply deref_Done.
  rewrite Hext. cbn [from_option].
  unfold mbind at 1, action_bind at 1, mret, action_ret.
  case_decide as Halias.
  - subst extMap. by erewrite dictStore_Done by apply lookup_insert_eq.
  - by erewrite dictStore_Done by (cbn; by rewrite lookup_insert_ne).
Qed.

(** A turn of the loop that writes: the heap it leaves, as the next
    turn finds it. *)
Lemma enrichProperty_written h (ctx : SchemaContext) (required : list string)
    (propName : string) (propRef : loc) (r : SchemaRef) v sv
    (oapiRules rules : list string) :
  schemaRefs h !! propRef = Some r → Value r = Some v →
  schemas h !! v = Some sv → allocated h v →
  generateRules fmt_f0 regexp_Compile sv = Ok oapiRules →
  mergeRules (storedRules h v) oapiRules = Ok rules →
  slices_Contains required propName = true ∨ rules ≠ [] →
  ∃ h' ext extMap (extensions' : gmap string any),
    enrichProperty fmt_f0 regexp_Compile ctx required propName propRef h
    = Done (None, h')
    ∧ schemaRefs h' = schemaRefs h
    ∧ schemas h' = <[v := withExtensions sv (Some ext)]> (schemas h)
    ∧ dicts h' !! ext = Some extensions'
    ∧ extensions' !! tagKey = Some (anyMap extMap)
    ∧ dicts h' !! extMap
      = Some (<[validate :=
                  anyString
                    (strings_Join
                       ((if slices_Contains required propName
                         then "required" else "omitempty") :: rules) ",")]>
                (default ∅ (extraTagsOf h v)))
    ∧ ∀ k, k ≠ tagKey → k ≠ validate →
        extensions' !! k = default ∅ (extensionsOf h v) !! k.
Proof.
  intros Hr Hvalue Hv Halloc Hgen Hmerge Hwrites. unfold enrichProperty.
  erewrite bind_Done by by apply deref_Done. rewrite Hvalue.
  erewrite bind_Done by by apply deref_Done. rewrite Hgen.
  destruct (extractAndResetValidateRules_spec h v sv Hv Halloc)
    as (ext & extMap & Hextract & Hext & HextMap).
  cbv zeta in Hextract.
  erewrite bind_Done by exact Hextract. cbv beta iota. rewrite Hmerge.
  destruct (after_extract h v sv ext extMap
              (default ∅ (extensionsOf h v)) (default ∅ (extraTagsOf h v)))
    as (Hv1 & HextMap1 & [extensions1 Hext1]).
  set (prefix := if slices_Contains required propName
                 then "required" else "omitempty").
  assert (∀ rest : action (Heap float64) (option error),
            (if slices_Contains required propName
             then writeRules v extMap ("required" :: rules);; mret None
             else if (0 <? length rules)%nat
                  then writeRules v extMap ("omitempty" :: rules);; mret None
                  else rest)
            = (writeRules v extMap (prefix :: rules);; mret None)) as ->.
  { intros rest. unfold prefix. destruct (slices_Contains required propName); [done|].
    destruct Hwrites as [?|Hrules]; [done|]. by destruct rules. }
  erewrite bind_Done
    by (eapply writeRules_Done; [exact Hv1|done|exact HextMap1|exact Hext1]).
  set (written := <[validate := anyString (strings_Join (prefix :: rules) ",")]>
                    (delete validate (default ∅ (extraTagsOf h v)))).
  assert (written = <[validate := anyString (strings_Join (prefix :: rules) ",")]>
                      (default ∅ (extraTagsOf h v))) as Hwritten
    by apply insert_delete_eq.
  cbn [dicts] in Hext1.
  destruct (decide (ext = extMap)) as [<-|Hne].
  - (* the map under [tagKey] is the extension map itself *)
    rewrite lookup_insert_eq in Hext1. injection Hext1 as <-.
    assert (default ∅ (extensionsOf h v) !! tagKey = Some (anyMap ext)
            ∧ default ∅ (extraTagsOf h v) = default ∅ (extensionsOf h v))
      as [Htag Halias].
    { destruct HextMap as [Htag|(_ & ? & _)]; [|done]. split; [done|].
      unfold extraTagsOf, extensionsOf in *. rewrite Hv in *. cbn in *.
      destruct Hext as [Hext|[Hext _]]; rewrite Hext in *; cbn in *.
      - destruct (dicts h !! ext) eqn:Hd; cbn in *; [by rewrite Htag, Hd|].
        by rewrite lookup_empty in Htag.
      - by rewrite lookup_empty in Htag. }
    eexists _, ext, ext, _. split; [done|]. cbn [schemaRefs schemas dicts].
    split; [done|]. split; [done|]. rewrite lookup_insert_eq.
    split; [done|]. split; [apply lookup_insert_eq|]. split.
    + f_equal. rewrite Hwritten, Halias. apply insert_id.
      by rewrite lookup_insert_ne.
    + intros k Hk Hk'.
      by rewrite lookup_insert_ne, Hwritten, lookup_insert_ne, Halias.
  - rewrite lookup_insert_ne, lookup_insert_eq in Hext1 by done.
    injection Hext1 as <-.
    eexists _, ext, extMap, _. split; [done|]. cbn [schemaRefs schemas dicts].
    split; [done|]. split; [done|]. rewrite lookup_insert_eq.
    split; [done|]. split; [apply lookup_insert_eq|]. split.
    + rewrite lookup_insert_ne, lookup_insert_eq by done. by rewrite <- Hwritten.
    + intros k Hk Hk'. by rewrite lookup_insert_ne.
Qed.
End written.

Section turns.
Context {float64 : Type} (fmt_f0 : float64 → string)
  (regexp_Compile : string → option string).
Implicit Types (h : Heap float64) (sv : Schema float64) (v ext extMap : loc).

(** What can be read from a heap in which the schema at [v] has the
    extension map [extensions'], with the map [extraTags'] under
    [tagKey]. *)
Lemma extensions_view h v sv ext extMap (extensions' extraTags' : gmap string any) :
  schemas h !! v = Some sv → Extensions sv = Some ext →
  dicts h !! ext = Some extensions' →
  extensions' !! tagKey = Some (anyMap extMap) →
  dicts h !! extMap = Some extraTags' →
  extensionsOf h v = Some extensions'
  ∧ extraTagsOf h v = Some extraTags'
  ∧ storedValidate h v = extraTags' !! validate
  ∧ allocated h v.
Proof.
  intros Hv Hext Hextensions Htag HextMap.
  assert (extensionsOf h v = Some extensions') as Hexts.
  { unfold extensionsOf. rewrite Hv. cbn. by rewrite Hext. }
  assert (extraTagsOf h v = Some extraTags') as Htags.
  { unfold extraTagsOf. rewrite Hexts. cbn. by rewrite Htag. }
  split; [done|]. split; [done|]. split.
  - unfold storedValidate. by rewrite Htags.
  - intros sv' ext' Hv' Hext'. rewrite Hv in Hv'. injection Hv' as <-.
    rewrite Hext in Hext'. injection Hext' as <-.
    exists extensions'. split; [done|]. intros m Hm.
    rewrite Htag in Hm. injection Hm as <-. eauto.
Qed.

(** X15.  A turn of the loop that writes the rules of
    a property changes, in the map under [tagKey], the entry [validate]
    and no other: the tags that were stored for other uses are kept; and
    it changes, in the extensions of the property, the entry under
    [tagKey] alone (and [validate], when the map under [tagKey] is the
    extension map itself). *)
Theorem enrichProperty_keeps_tags h (ctx : SchemaContext) (required : list string)
    (propName : string) (propRef : loc) (r : SchemaRef) v sv
    (oapiRules rules : list string) :
  schemaRefs h !! propRef = Some r → Value r = Some v →
  schemas h !! v = Some sv → allocated h v →
  generateRules fmt_f0 regexp_Compile sv = Ok oapiRules →
  mergeRules (storedRules h v) oapiRules = Ok rules →
  slices_Contains required propName = true ∨ rules ≠ [] →
  ∃ h' extensions',
    enrichProperty fmt_f0 regexp_Compile ctx required propName propRef h
    = Done (None, h')
    ∧ extraTagsOf h' v
      = Some (<[validate :=
                  anyString
                    (strings_Join
                       ((if slices_Contains required propName
                         then "required" else "omitempty") :: rules) ",")]>
                (default ∅ (extraTagsOf h v)))
    ∧ extensionsOf h' v = Some extensions'
    ∧ ∀ k, k ≠ tagKey → k ≠ validate →
        extensions' !! k = default ∅ (extensionsOf h v) !! k.
Proof.
  intros Hr Hvalue Hv Halloc Hgen Hmerge Hwrites.
  destruct (enrichProperty_written fmt_f0 regexp_Compile h ctx required propName
              propRef r v sv oapiRules rules Hr Hvalue Hv Halloc Hgen Hmerge Hwrites)
    as (h' & ext & extMap & extensions' & Hrun & _ & Hschemas & Hext & Htag
        & HextMap & Hkept).
  destruct (extensions_view h' v (withExtensions sv (Some ext)) ext extMap
              extensions' _ ltac:(by rewrite Hschemas, lookup_insert_eq)
              eq_refl Hext Htag HextMap) as (Hexts & Htags & _ & _).
  by exists h', extensions'.
Qed.

(** X16.  A turn of the loop that writes the rules of a
    property, and then the same turn once more: the second turn reads the
    rules that the first has written, leading token included, merges the
    generated rules into them without a change, and writes them behind
    one more leading token.  This holds whenever the generated rules have
    no white space around them and hold no comma. *)
Theorem enrichProperty_twice h (ctx : SchemaContext) (required : list string)
    (propName : string) (propRef : loc) (r : SchemaRef) v sv
    (oapiRules rules : list string) :
  schemaRefs h !! propRef = Some r → Value r = Some v →
  schemas h !! v = Some sv → allocated h v →
  generateRules fmt_f0 regexp_Compile sv = Ok oapiRules →
  mergeRules (storedRules h v) oapiRules = Ok rules →
  slices_Contains required propName = true ∨ rules ≠ [] →
  Forall (λ rule, (strings_TrimSpace rule = rule ∧ rule ≠ "") ∧ commaFree rule)
    oapiRules →
  let prefix := if slices_Contains required propName
                then "required" else "omitempty" in
  ∃ h1 h2,
    enrichProperty fmt_f0 regexp_Compile ctx required propName propRef h
    = Done (None, h1)
    ∧ storedValidate h1 v
      = Some (anyString (strings_Join (prefix :: rules) ","))
    ∧ storedRules h1 v = prefix :: rules
    ∧ enrichProperty fmt_f0 regexp_Compile ctx required propName propRef h1
      = Done (None, h2)
    ∧ storedValidate h2 v
      = Some (anyString (strings_Join (prefix :: prefix :: rules) ",")).
Proof.
  intros Hr Hvalue Hv Halloc Hgen Hmerge Hwrites Hclean prefix.
  destruct (enrichProperty_written fmt_f0 regexp_Compile h ctx required propName
              propRef r v sv oapiRules rules Hr Hvalue Hv Halloc Hgen Hmerge Hwrites)
    as (h1 & ext & extMap & extensions1 & Hrun & Hrefs & Hschemas & Hext & Htag
        & HextMap & _).
  fold prefix in HextMap.
  assert (schemas h1 !! v = Some (withExtensions sv (Some ext))) as Hv1
    by (by rewrite Hschemas, lookup_insert_eq).
  destruct (extensions_view h1 v _ ext extMap extensions1 _ Hv1 eq_refl Hext Htag
              HextMap) as (_ & Htags1 & Hstored1 & Halloc1).
  rewrite lookup_insert_eq in Hstored1.
  assert (Forall (λ rule, (strings_TrimSpace rule = rule ∧ rule ≠ "") ∧ commaFree rule)
            (prefix :: rules)) as Hrules.
  { constructor.
    - unfold prefix, commaFree.
      destruct (slices_Contains required propName);
        (split; [by split|]); apply (bool_decide_unpack _); by vm_compute.
    - eapply mergeRules_Forall; [|exact Hclean|exact Hmerge].
      rewrite storedRules_clean. apply storedRules_Forall. }
  assert (storedRules h1 v = prefix :: rules) as Hrules1.
  { rewrite storedRules_parseValidate, Hstored1. by apply parseValidate_Join. }
  assert (mergeRules (storedRules h1 v) oapiRules = Ok (prefix :: rules)) as Hmerge1.
  { rewrite Hrules1.
    apply (mergeRules_front_again [prefix] (storedRules h v)); [| |done].
    - apply Forall_cons in Hrules as [[? _] _]. by constructor.
    - by apply Forall_and in Hclean as [? _]. }
  destruct (enrichProperty_written fmt_f0 regexp_Compile h1 ctx required propName
              propRef r v _ oapiRules (prefix :: rules)
              ltac:(by rewrite Hrefs) Hvalue Hv1 Halloc1 Hgen Hmerge1
              ltac:(by right))
    as (h2 & ext' & extMap' & extensions2 & Hrun2 & _ & Hschemas2 & Hext2 & Htag2
        & HextMap2 & _).
  fold prefix in HextMap2.
  destruct (extensions_view h2 v _ ext' extMap' extensions2 _
              ltac:(by rewrite Hschemas2, lookup_insert_eq) eq_refl Hext2 Htag2
              HextMap2) as (_ & _ & Hstored2 & _).
  rewrite lookup_insert_eq in Hstored2.
  by exists h1, h2.
Qed.

End turns.


(** The property [code] with a stored [manual_tag], a tag [json], and
    [minLength: 5]. *)
Lemma enrichProperty_keeps_tags_witness :
  ∃ h',
    enrichProperty fmt_f0_integer noPattern codeCtx [] "code" 2
      (codeHeap (stringSchema (Some 10%positive) 5) "manual_tag")
    = Done (None, h')
    ∧ extraTagsOf h' 2
      = Some (list_to_map [(validate, anyString "omitempty,manual_tag,min=5");
                           ("json", anyString "code,omitempty")]).
Proof.
  destruct (enrichProperty_keeps_tags fmt_f0_integer noPattern
              (codeHeap (stringSchema (Some 10%positive) 5) "manual_tag")
              codeCtx [] "code" 2 (inlineRef 2) 2
              (stringSchema (Some 10%positive) 5) ["min=5"] ["manual_tag"; "min=5"]
              eq_refl eq_refl eq_refl
              (codeHeap_allocated (stringSchema (Some 10%positive) 5) "manual_tag" eq_refl)
              eq_refl eq_refl ltac:(by right))
    as (h' & extensions' & Hrun & Htags & _).
  exists h'. split; [exact Hrun|]. rewrite Htags. by vm_compute.
Defined.

Lemma enrichProperty_twice_witness :
  ∃ h1 h2,
    enrichProperty fmt_f0_integer noPattern codeCtx [] "code" 2
      (codeHeap (stringSchema (Some 10%positive) 5) "manual_tag")
    = Done (None, h1)
    ∧ storedValidate h1 2 = Some (anyString "omitempty,manual_tag,min=5")
    ∧ storedRules h1 2 = ["omitempty"; "manual_tag"; "min=5"]
    ∧ enrichProperty fmt_f0_integer noPattern codeCtx [] "code" 2 h1
      = Done (None, h2)
    ∧ storedValidate h2 2
      = Some (anyString "omitempty,omitempty,manual_tag,min=5").
Proof.
  apply (enrichProperty_twice fmt_f0_integer noPattern
           (codeHeap (stringSchema (Some 10%positive) 5) "manual_tag")
           codeCtx [] "code" 2 (inlineRef 2) 2
           (stringSchema (Some 10%positive) 5) ["min=5"] ["manual_tag"; "min=5"]
           eq_refl eq_refl eq_refl
           (codeHeap_allocated (stringSchema (Some 10%positive) 5) "manual_tag" eq_refl)
           eq_refl eq_refl ltac:(by right)).
  repeat constructor; [discriminate|].
  apply (bool_decide_unpack _). by vm_compute.
Defined.


(** ** The pass on a document without recursion *)

Lemma bind_assoc_run {St A B C} (m : action St A) (f : A → action St B)
    (g : B → action St C) s :
  ((m ≫= f) ≫= g) s = (m ≫= λ a, f a ≫= g) s.
Proof. unfold mbind, action_bind. by destruct (m s) as [[a s']| |]. Qed.

Lemma bind_unfold {St A B} (m : action St A) (f : A → action St B) s :
  (m ≫= f) s
  = match m s with
    | Done (a, s') => f a s'
    | NilDeref => NilDeref
    | OutOfFuel => OutOfFuel
    end.
Proof. unfold mbind, action_bind. by destruct (m s) as [[a s']| |]. Qed.

Section preorder.
Context {float64 : Type} (fmt_f0 : float64 → string)
  (regexp_Compile : string → option string).
Implicit Types (h : Heap float64) (sv : Schema float64) (t : tree SchemaContext).

Lemma preserves_visit ctx errs :
  preserves sameGraph (visit fmt_f0 regexp_Compile ctx errs).
Proof.
  eapply preserves_weaken; [apply enriched_sameGraph|].
  apply preserves_enrichSpec_yield.
Qed.

Lemma visit_more ctx errs h more errs' h' :
  visit fmt_f0 regexp_Compile ctx errs h = Done ((more, errs'), h') → more = true.
Proof. apply enrichSpec_yield_more. Qed.

Lemma rangeToEnd_visit (ctxs : list SchemaContext) : ∀ errs h more errs' h',
  rangeToEnd ctxs (visit fmt_f0 regexp_Compile) errs h = Done ((more, errs'), h') →
  more = true ∧ sameGraph h h'.
Proof.
  induction ctxs as [|ctx ctxs IH]; intros errs h more errs' h'.
  - by intros [= <- _ <-].
  - cbn [rangeToEnd].
    intros ([more1 errs1] & h1 & Hvisit & Hrest)%bind_Done_inv.
    pose proof (visit_more _ _ _ _ _ _ Hvisit) as ->.
    apply IH in Hrest as [-> Hrest]. split; [done|].
    transitivity h1; [by eapply preserves_visit|done].
Qed.

(** In a heap with the graph of [h], a reference has the schema that it
    has in [h]. *)
Lemma deref_sameGraph h hi ref r :
  sameGraph h hi → schemaRefs h !! ref = Some r →
  ∃ r', deref schemaRefs ref hi = Done (r', hi) ∧ Value r' = Value r.
Proof.
  intros [Hrefs _] Hr. specialize (Hrefs ref). rewrite Hr in Hrefs.
  unfold deref. destruct (schemaRefs hi !! ref) as [r'|]; [|done].
  exists r'. split; [done|]. cbn in Hrefs. congruence.
Qed.

Lemma deref_schemas_sameGraph h hi v sv :
  sameGraph h hi → schemas h !! v = Some sv →
  ∃ sv', deref schemas v hi = Done (sv', hi) ∧ Properties sv' = Properties sv.
Proof.
  intros [_ (Hschemas & _)] Hv. specialize (Hschemas v). rewrite Hv in Hschemas.
  unfold deref. destruct (schemas hi !! v) as [sv'|]; [|done].
  exists sv'. split; [done|]. cbn in Hschemas. apply (inj Some) in Hschemas.
  by apply (f_equal Properties) in Hschemas.
Qed.

(** The loop of [walk] over the properties of a node, given what [walk]
    does on each child. *)
Lemma walk_properties h fuel (name : string) (properties : list (string * loc)) :
  ∀ (ts : list (tree SchemaContext)) (ret : bool) (errs : option error) hi,
    omap (λ '(propName, propRef),
            contextOf h (name +:+ "." +:+ propName) propRef) properties
    = label <$> ts →
    (∀ propName propRef, (propName, propRef) ∈ properties →
       is_Some (schemaRefs h !! propRef)) →
    (∀ t errs hi, t ∈ ts → sameGraph h hi →
       walk fuel getChildren (visit fmt_f0 regexp_Compile) (label t) errs hi
       = rangeToEnd (preorder t) (visit fmt_f0 regexp_Compile) errs hi) →
    sameGraph h hi →
    range properties
      (λ '(propName, propRef) acc,
         r ← deref schemaRefs propRef;
         match Value r with
         | Some v =>
             (λ child '(ret, l),
                '(more, l) ← walk fuel getChildren (visit fmt_f0 regexp_Compile)
                               child l;
                if negb more then mret (false, (false, l))
                else mret (true, (ret, l)))
               {| schema := v; Name := name +:+ "." +:+ propName |} acc
         | None => mret (true, acc)
         end)
      (ret, errs) hi
    = match rangeToEnd (flat_map preorder ts) (visit fmt_f0 regexp_Compile) errs hi with
      | Done ((more, errs), s) => Done ((more && ret, errs), s)
      | NilDeref => NilDeref
      | OutOfFuel => OutOfFuel
      end.
Proof.
  induction properties as [|[propName propRef] properties IH];
    intros ts ret errs hi Hkids Hrefs Hwalk Hhi.
  - destruct ts; [done|discriminate].
  - cbn [range omap list_omap] in *.
    destruct (Hrefs propName propRef) as [r Hr]; [by left|].
    destruct (deref_sameGraph h hi propRef r Hhi Hr) as (r' & Hderef & Hvalue).
    rewrite bind_assoc_run. erewrite bind_Done by exact Hderef. rewrite Hvalue.
    unfold contextOf in Hkids at 1. rewrite Hr in Hkids. cbn in Hkids.
    destruct (Value r) as [v|]; cbn in Hkids.
    + destruct ts as [|t ts]; [discriminate|].
      cbn [fmap list_fmap] in Hkids. injection Hkids as Ht Hkids.
      cbn [flat_map]. rewrite rangeToEnd_app, bind_assoc_run.
      unfold mbind at 1, action_bind at 1. rewrite Ht, Hwalk by (done || by left).
      destruct (rangeToEnd (preorder t) _ errs hi) as [[[more errs1] h1]| |] eqn:Ht';
        [|done..].
      apply rangeToEnd_visit in Ht' as [-> Hh1]. cbn [negb].
      erewrite bind_Done by done.
      apply IH; [done| | |by transitivity hi].
      * intros ? ? ?. eapply Hrefs. by right.
      * intros. apply Hwalk; [by right|done].
    + erewrite bind_Done by done.
      apply IH; [done| |done..]. intros ? ? ?. eapply Hrefs. by right.
Qed.

Lemma kidsOf_allocated h ctx child :
  (∀ p r v, schemaRefs h !! p = Some r → Value r = Some v →
     is_Some (schemas h !! v)) →
  child ∈ kidsOf h ctx → is_Some (schemas h !! schema child).
Proof.
  intros Hwf. unfold kidsOf. destruct (schemas h !! schema ctx) as [sv|];
    [|by intros ?%elem_of_nil].
  intros ([propName propRef] & _ & Hchild)%list_elem_of_omap.
  unfold contextOf in Hchild.
  destruct (schemaRefs h !! propRef) as [r|] eqn:Hr; [|done]. cbn in Hchild.
  destruct (Value r) as [v|] eqn:Hv; [|done]. injection Hchild as <-. eauto.
Qed.

(** [walk] on a node whose graph unfolds to a tree that the bound
    covers: the nodes of the tree are visited in pre-order. *)
Lemma walk_unfolds h fuel :
  (∀ p r v, schemaRefs h !! p = Some r → Value r = Some v →
     is_Some (schemas h !! v)) →
  (∀ v sv propName propRef,
     schemas h !! v = Some sv → (propName, propRef) ∈ Properties sv →
     is_Some (schemaRefs h !! propRef)) →
  ∀ t errs hi,
    unfolds (kidsOf h) t → (height t ≤ fuel)%nat →
    is_Some (schemas h !! schema (label t)) → sameGraph h hi →
    walk fuel getChildren (visit fmt_f0 regexp_Compile) (label t) errs hi
    = rangeToEnd (preorder t) (visit fmt_f0 regexp_Compile) errs hi.
Proof.
  intros Hschemas Hrefs.
  induction fuel as [|fuel IH]; intros [a ts] errs hi Ht Hfuel [sv Hsv] Hhi;
    cbn in Hfuel; [lia|].
  inversion Ht as [a' ts' Hkids Hts]; subst a' ts'.
  cbn [walk label preorder rangeToEnd] in *. unfold mbind at 1 3, action_bind at 1 3.
  destruct (visit _ _ a errs hi) as [[[more errs1] h1]| |] eqn:Hvisit; [|done..].
  pose proof (visit_more _ _ _ _ _ _ Hvisit) as ->. cbn [negb].
  assert (sameGraph h h1) as Hh1
    by (transitivity hi; [done|by eapply preserves_visit]).
  unfold getChildren.
  destruct (deref_schemas_sameGraph h h1 _ sv Hh1 Hsv) as (sv' & Hderef & Hprops).
  erewrite bind_Done by exact Hderef. rewrite Hprops.
  unfold kidsOf in Hkids. rewrite Hsv in Hkids.
  rewrite (walk_properties h fuel (Name a) (Properties sv) ts); [|done| | |done].
  - destruct (rangeToEnd _ _ errs1 h1) as [[[more errs2] h2]| |]; [|done..].
    by rewrite andb_true_r.
  - intros propName propRef Hin. by eapply Hrefs.
  - intros t errs' hi' Hin Hhi'. apply IH; [| | |done].
    + by eapply Forall_forall in Hts.
    + assert (height t ≤ max_list (List.map height ts))%nat; [|lia].
      apply max_list_elem_of_le. by apply (list_elem_of_fmap_2 height).
    + apply (kidsOf_allocated h a); [done|].
      unfold kidsOf. rewrite Hsv, Hkids. by apply list_elem_of_fmap_2.
Qed.

(** The loop of [PreOrder] over the roots that [toSchemaContext]
    yields. *)
Lemma enrichSpec_forest h fuel :
  (∀ p r v, schemaRefs h !! p = Some r → Value r = Some v →
     is_Some (schemas h !! v)) →
  (∀ v sv propName propRef,
     schemas h !! v = Some sv → (propName, propRef) ∈ Properties sv →
     is_Some (schemaRefs h !! propRef)) →
  ∀ (roots : list (string * loc)) (forest : list (loc * tree SchemaContext))
    (errs : option error) hi,
    (λ '(ref, t), (ref, label t)) <$> forest = rootsOf h roots →
    (∀ name ref, (name, ref) ∈ roots → is_Some (schemaRefs h !! ref)) →
    Forall (λ '(_, t), unfolds (kidsOf h) t ∧ (height t ≤ fuel)%nat) forest →
    sameGraph h hi →
    range roots
      (λ '(name, ref) l,
         r ← deref schemaRefs ref;
         match Value r with
         | Some v =>
             setSchemaRef ref (withRef r "");;
             (λ root l,
                walk fuel getChildren (visit fmt_f0 regexp_Compile) root l)
               {| schema := v; Name := name |} l
         | None => mret (true, l)
         end)
      errs hi
    = range forest
        (λ '(ref, t) errs,
           r ← deref schemaRefs ref;
           setSchemaRef ref (withRef r "");;
           errs ← Values (preorder t) (option error)
                    (visit fmt_f0 regexp_Compile) errs;
           mret (true, errs))
        errs hi.
Proof.
  intros Hschemas Hrefs roots.
  induction roots as [|[name ref] roots IH]; intros forest errs hi Hroots Hin Hforest Hhi.
  - by destruct forest.
  - cbn [rootsOf omap list_omap] in Hroots.
    destruct (Hin name ref) as [r Hr]; [by left|].
    destruct (deref_sameGraph h hi ref r Hhi Hr) as (r' & Hderef & Hvalue).
    cbn [range]. rewrite bind_assoc_run. erewrite bind_Done by exact Hderef.
    rewrite Hvalue. unfold contextOf in Hroots at 1. rewrite Hr in Hroots.
    cbn in Hroots. destruct (Value r) as [v|] eqn:Hv; cbn in Hroots.
    + destruct forest as [|[ref' t] forest]; [discriminate|].
      cbn [fmap list_fmap] in Hroots. injection Hroots as -> Ht Hroots.
      apply Forall_cons in Hforest as [[Hunfolds Hheight] Hforest].
      cbn [range]. rewrite (bind_assoc_run (deref _ _)).
      erewrite (bind_Done (deref _ _)) by exact Hderef.
      set (hi' := {| schemaRefs := <[ref := withRef r' ""]> (schemaRefs hi);
                     schemas := schemas hi; dicts := dicts hi |}).
      assert (setSchemaRef ref (withRef r' "") hi = Done (tt, hi')) as Hset by done.
      assert (sameGraph h hi') as Hhi'.
      { transitivity hi; [done|]. apply sameGraph_setSchemaRef.
        unfold deref in Hderef. destruct (schemaRefs hi !! ref); [|done].
        by injection Hderef as ->. }
      rewrite !(bind_assoc_run (setSchemaRef _ _)).
      erewrite !(bind_Done (setSchemaRef _ _)) by exact Hset.
      rewrite (bind_assoc_run (Values _ _ _ _)).
      rewrite (bind_unfold (walk _ _ _ _ _)), (bind_unfold (Values _ _ _ _)).
      rewrite <- Ht, (walk_unfolds h fuel Hschemas Hrefs t) by (rewrite ?Ht; eauto).
      unfold Values. rewrite range_rangeToEnd.
      destruct (rangeToEnd (preorder t) _ errs hi') as [[[more errs1] h1]| |] eqn:Ht';
        [|done..].
      apply rangeToEnd_visit in Ht' as [-> Hh1].
      erewrite bind_Done by done.
      apply IH; [done| |done|by transitivity hi'].
      intros ? ? ?. eapply Hin. by right.
    + erewrite bind_Done by done.
      apply IH; [done| |done..]. intros ? ? ?. eapply Hin. by right.
Qed.

(** X18.  On a document in which no reference dangles and
    whose graph of schemas unfolds, from the root references that have a
    schema, to a finite forest, the pass, once its bound is at least the
    height of the forest, is the pass over the forest root after root:
    the [Ref] of the root reference is cleared, then every node of its
    tree is enriched, in depth-first pre-order, and the error of each
    node that fails is joined to the errors of the nodes before it.  No
    node is left out after a failure, and the outcome, be it a result or
    a panic, is the same. *)
Theorem enrichSpec_preorder fuel doc (c : Components) h
    (forest : list (loc * tree SchemaContext)) :
  components doc = Some c → wellFormed h (Schemas c) →
  (λ '(ref, t), (ref, label t)) <$> forest = rootsOf h (Schemas c) →
  Forall (λ '(_, t), unfolds (kidsOf h) t ∧ (height t ≤ fuel)%nat) forest →
  enrichSpec fmt_f0 regexp_Compile fuel doc h
  = visitForest fmt_f0 regexp_Compile forest h.
Proof.
  intros Hc (Hroots & Hschemas & Hrefs) Hforest Hunfolds.
  unfold enrichSpec, visitForest. rewrite Hc. cbn [from_option].
  erewrite bind_Done by done. unfold PreOrder, toSchemaContext.
  by apply (enrichSpec_forest h fuel Hschemas Hrefs).
Qed.
End preorder.


(** The document [User]: the root [Bio], then the root [User] with its
    two properties. *)
Lemma enrichSpec_preorder_witness :
  enrichSpec fmt_f0_integer noPattern 2 userDoc userHeap
  = visitForest fmt_f0_integer noPattern
      [(4%positive, Node {| schema := 3; Name := "Bio" |} []);
       (1%positive,
        Node {| schema := 1; Name := "User" |}
          [Node {| schema := 2; Name := "User.username" |} [];
           Node {| schema := 3; Name := "User.bio" |} []])]
      userHeap.
Proof.
  apply (enrichSpec_preorder fmt_f0_integer noPattern 2 userDoc
           {| Schemas := [("Bio", 4%positive); ("User", 1%positive)] |} userHeap).
  - reflexivity.
  - split; [|split].
    + intros name ref Hin. cbn in Hin. rewrite !elem_of_cons, elem_of_nil in Hin.
      destruct Hin as [?|[?|[]]]; simplify_eq; by eexists.
    + intros p r v Hp%elem_of_list_to_map_2 Hv.
      rewrite !elem_of_cons, elem_of_nil in Hp.
      destruct Hp as [?|[?|[?|[?|[]]]]]; simplify_eq/=; by eexists.
    + intros v sv propName propRef Hv%elem_of_list_to_map_2 Hin.
      rewrite !elem_of_cons, elem_of_nil in Hv.
      destruct Hv as [?|[?|[?|[]]]]; simplify_eq/=;
        [|by apply elem_of_nil in Hin..].
      rewrite !elem_of_cons, elem_of_nil in Hin.
      destruct Hin as [?|[?|[]]]; simplify_eq; by eexists.
  - reflexivity.
  - repeat first [apply Forall_nil_2 | apply Forall_cons_2 | split
                 | constructor | by vm_compute | cbn; lia].
Defined.

(** ** The two adapters as iterators over lists *)

Section adapters.
Context {float64 : Type}.
Implicit Types (h : Heap float64) (sv : Schema float64).

Lemma getChildren_properties h (name : string) {L}
    (yield : SchemaContext → L → action (Heap float64) (bool * L))
    (properties : list (string * loc)) :
  (∀ x l, preserves sameGraph (yield x l)) →
  (∀ propName propRef, (propName, propRef) ∈ properties →
     is_Some (schemaRefs h !! propRef)) →
  ∀ l hi, sameGraph h hi →
    range properties
      (λ '(propName, propRef) l,
         r ← deref schemaRefs propRef;
         match Value r with
         | Some v => yield {| schema := v; Name := name +:+ "." +:+ propName |} l
         | None => mret (true, l)
         end)
      l hi
    = range
        (omap (λ '(propName, propRef),
                 contextOf h (name +:+ "." +:+ propName) propRef) properties)
        yield l hi.
Proof.
  intros Hyield.
  induction properties as [|[propName propRef] properties IH]; intros Hrefs l hi Hhi;
    [done|].
  cbn [range omap list_omap].
  destruct (Hrefs propName propRef) as [r Hr]; [by left|].
  destruct (deref_sameGraph h hi propRef r Hhi Hr) as (r' & Hderef & Hvalue).
  rewrite bind_assoc_run. erewrite bind_Done by exact Hderef. rewrite Hvalue.
  unfold contextOf at 1. rewrite Hr. cbn.
  assert (∀ propName0 propRef0, (propName0, propRef0) ∈ properties →
            is_Some (schemaRefs h !! propRef0)) as Hrefs'
    by (intros ? ? ?; eapply Hrefs; by right).
  destruct (Value r) as [v|]; cbn [mbind option_bind]; cbn [range].
  - rewrite !bind_unfold.
    destruct (yield _ l hi) as [[[[] l1] h1]| |] eqn:Hrun; [|done..].
    apply IH; [done|]. transitivity hi; [done|]. by eapply Hyield.
  - erewrite bind_Done by done. by apply IH.
Qed.

(** X19.  [getChildren] is the iterator over the children of
    the node: for a consumer that leaves the graph of the schemas as it
    is, on a heap that holds the schema of the node and the references of
    its properties, it yields the nodes for the properties that have a
    schema, in the order of the loop, each named after the node and the
    property, and stops when the consumer does.  It writes nothing
    itself. *)
Theorem getChildren_kids h (ctx : SchemaContext) sv {L}
    (yield : SchemaContext → L → action (Heap float64) (bool * L)) (l : L) :
  schemas h !! schema ctx = Some sv →
  (∀ propName propRef, (propName, propRef) ∈ Properties sv →
     is_Some (schemaRefs h !! propRef)) →
  (∀ x l, preserves sameGraph (yield x l)) →
  getChildren ctx L yield l h = Values (kidsOf h ctx) L yield l h.
Proof.
  intros Hsv Hrefs Hyield. unfold getChildren, Values, kidsOf.
  erewrite bind_Done by by apply deref_Done. rewrite Hsv.
  by apply getChildren_properties.
Qed.

Lemma toSchemaContext_range h {L}
    (yield : SchemaContext → L → action (Heap float64) (bool * L))
    (roots : list (string * loc)) :
  (∀ x l, preserves sameGraph (yield x l)) →
  (∀ name ref, (name, ref) ∈ roots → is_Some (schemaRefs h !! ref)) →
  ∀ l hi, sameGraph h hi →
    toSchemaContext roots L yield l hi
    = range (rootsOf h roots)
        (λ '(ref, ctx) l,
           r ← deref schemaRefs ref;
           setSchemaRef ref (withRef r "");;
           yield ctx l)
        l hi.
Proof.
  intros Hyield. unfold toSchemaContext.
  induction roots as [|[name ref] roots IH]; intros Hrefs l hi Hhi; [done|].
  cbn [range rootsOf omap list_omap].
  destruct (Hrefs name ref) as [r Hr]; [by left|].
  destruct (deref_sameGraph h hi ref r Hhi Hr) as (r' & Hderef & Hvalue).
  rewrite bind_assoc_run. erewrite bind_Done by exact Hderef. rewrite Hvalue.
  unfold contextOf at 1. rewrite Hr. cbn.
  assert (∀ name0 ref0, (name0, ref0) ∈ roots → is_Some (schemaRefs h !! ref0))
    as Hrefs' by (intros ? ? ?; eapply Hrefs; by right).
  destruct (Value r) as [v|]; cbn [mbind option_bind]; cbn [range].
  - rewrite (bind_assoc_run (deref _ _)).
    erewrite (bind_Done (deref _ _)) by exact Hderef.
    set (hi' := {| schemaRefs := <[ref := withRef r' ""]> (schemaRefs hi);
                   schemas := schemas hi; dicts := dicts hi |}).
    assert (setSchemaRef ref (withRef r' "") hi = Done (tt, hi')) as Hset by done.
    assert (sameGraph h hi') as Hhi'.
    { transitivity hi; [done|]. apply sameGraph_setSchemaRef.
      unfold deref in Hderef. destruct (schemaRefs hi !! ref); [|done].
      by injection Hderef as ->. }
    rewrite !(bind_assoc_run (setSchemaRef _ _)).
    erewrite !(bind_Done (setSchemaRef _ _)) by exact Hset.
    rewrite !bind_unfold.
    destruct (yield _ l hi') as [[[[] l1] h1]| |] eqn:Hrun; [|done..].
    apply IH; [done|]. transitivity hi'; [done|]. by eapply Hyield.
  - erewrite bind_Done by done. by apply IH.
Qed.

(** X20.  [toSchemaContext] is the iterator over the
    roots of the document: for a consumer that leaves the graph of the
    schemas as it is, on a heap that holds the root references, it takes
    the root references that have a schema, in the order of the loop,
    clears the [Ref] of each right before it yields its node, under the
    name of the entry, and stops when the consumer does.  A root
    reference without a schema is passed over, and so is every root
    after the one at which the consumer stops: their [Ref] stays. *)
Theorem toSchemaContext_roots h (roots : list (string * loc)) {L}
    (yield : SchemaContext → L → action (Heap float64) (bool * L)) (l : L) :
  (∀ name ref, (name, ref) ∈ roots → is_Some (schemaRefs h !! ref)) →
  (∀ x l, preserves sameGraph (yield x l)) →
  toSchemaContext roots L yield l h
  = range (rootsOf h roots)
      (λ '(ref, ctx) l,
         r ← deref schemaRefs ref;
         setSchemaRef ref (withRef r "");;
         yield ctx l)
      l h.
Proof. intros Hrefs Hyield. by apply toSchemaContext_range. Qed.
End adapters.

(** The children of [User], recorded by name. *)
Lemma getChildren_kids_witness :
  getChildren {| schema := 1; Name := "User" |} (list string)
    (λ ctx names, mret (true, names ++ [Name ctx])) [] userHeap
  = Done (["User.username"; "User.bio"], userHeap).
Proof.
  rewrite (getChildren_kids userHeap {| schema := 1; Name := "User" |}
             (objectSchema ["username"] [("username", 2%positive); ("bio", 3%positive)])
             (λ ctx names, mret (true, names ++ [Name ctx])) [] eq_refl).
  - reflexivity.
  - intros propName propRef Hin. cbn in Hin.
    rewrite !elem_of_cons, elem_of_nil in Hin.
    destruct Hin as [?|[?|[]]]; simplify_eq; by eexists.
  - intros ctx names h a h' [= _ <-]. reflexivity.
Defined.

(** The roots of the document [User], with a consumer that stops at the
    first: the [Ref] of [Bio] is cleared, the [Ref] of [User], which is
    empty, is not written. *)
Lemma toSchemaContext_roots_witness :
  ∃ h',
    toSchemaContext [("Bio", 4%positive); ("User", 1%positive)] (list string)
      (λ ctx names, mret (false, names ++ [Name ctx])) [] userHeap
    = Done (["Bio"], h')
    ∧ schemaRefs h' !! 4%positive = Some {| Ref := ""; Value := Some 3%positive |}.
Proof.
  rewrite (toSchemaContext_roots userHeap [("Bio", 4%positive); ("User", 1%positive)]
             (λ ctx names, mret (false, names ++ [Name ctx])) []).
  - eexists. split; [by vm_compute|]. by vm_compute.
  - intros name ref Hin. rewrite !elem_of_cons, elem_of_nil in Hin.
    destruct Hin as [?|[?|[]]]; simplify_eq; by eexists.
  - intros ctx names h a h' [= _ <-]. reflexivity.
Defined.

(** ** The errors that the pass gathers *)

Section errors.
Context {float64 : Type} (fmt_f0 : float64 → string)
  (regexp_Compile : string → option string).
Implicit Types (h : Heap float64) (errs : option error).

Lemma enrichNode_error ctx h err h' :
  enrichNode fmt_f0 regexp_Compile ctx h = Done (Some err, h') →
  ∃ propName cause, err = errProperty (Name ctx) propName cause.
Proof.
  unfold enrichNode. intros (sv & h0 & _ & Hrun)%bind_Done_inv.
  apply enrichProperties_error in Hrun
    as (before & propName & propRef & after & h1 & _ & _ & Hfail).
  apply enrichProperty_error in Hfail as (cause & -> & _). eauto.
Qed.

(** A turn of the loop of [enrichSpec]: the loop goes on, and the error
    of the node, when it has one, comes after the errors so far. *)
Lemma visit_Done ctx errs h more errs' h' :
  visit fmt_f0 regexp_Compile ctx errs h = Done ((more, errs'), h') →
  more = true
  ∧ ∃ err, enrichNode fmt_f0 regexp_Compile ctx h = Done (err, h')
      ∧ from_option joined [] errs'
        = from_option joined [] errs ++ option_list err.
Proof.
  unfold visit. intros ([err|] & h1 & Hnode & Hrest)%bind_Done_inv.
  - injection Hrest as <- <- <-. split; [done|]. exists (Some err).
    split; [done|].
    destruct (enrichNode_error _ _ _ _ Hnode) as (propName & cause & ->).
    destruct errs as [e|]; cbn; by rewrite ?app_nil_r.
  - injection Hrest as <- <- <-. split; [done|]. exists None.
    split; [done|]. by rewrite app_nil_r.
Qed.

(** X21.  The loop of the pass over a list of nodes, when it
    returns, has called [enrichNode] on every node of the list, in order,
    each from the heap that the call before it left, whether or not an
    earlier node failed; and the error that it returns holds, once the
    wrapping by [errors.Join] is removed, the errors that it started
    with, followed by the errors of the nodes that failed, in the order
    of the visits, one for each. *)
Theorem visit_all_nodes (ctxs : list SchemaContext) errs h errs' h' :
  Values ctxs (option error) (visit fmt_f0 regexp_Compile) errs h
  = Done (errs', h') →
  ∃ results,
    nodeRuns fmt_f0 regexp_Compile ctxs h results h'
    ∧ from_option joined [] errs'
      = from_option joined [] errs ++ omap id results.
Proof.
  unfold Values. revert errs h.
  induction ctxs as [|ctx ctxs IH]; intros errs h.
  - intros [= <- <-]. exists []. split; [constructor|]. by rewrite app_nil_r.
  - cbn [range]. intros ([more errs1] & h1 & Hvisit & Hrest)%bind_Done_inv.
    apply visit_Done in Hvisit as (-> & err & Hnode & Herrs).
    apply IH in Hrest as (results & Hruns & Hjoined).
    exists (err :: results). split; [by econstructor|].
    rewrite Hjoined, Herrs, <- app_assoc. by destruct err.
Qed.
End errors.

(** The two roots of the document [Order] twice over: both fail, and
    both errors are returned. *)
Lemma visit_all_nodes_witness :
  ∃ results,
    nodeRuns fmt_f0_integer noPattern
      [{| schema := 1; Name := "Order" |}; {| schema := 1; Name := "Again" |}]
      (orderHeap qtyPrice) results (orderHeap qtyPrice)
    ∧ [errProperty "Order" "qty" errMultipleOf;
       errProperty "Again" "qty" errMultipleOf]
      = [] ++ omap id results.
Proof.
  apply (visit_all_nodes fmt_f0_integer noPattern
           [{| schema := 1; Name := "Order" |}; {| schema := 1; Name := "Again" |}]
           None (orderHeap qtyPrice)
           (Some (errJoin [errJoin [errProperty "Order" "qty" errMultipleOf];
                           errProperty "Again" "qty" errMultipleOf]))
           (orderHeap qtyPrice)).
  by vm_compute.
Defined.

(** ** Patterns that hold a comma *)

Lemma string_of_list_ascii_app (l1 l2 : list ascii) :
  string_of_list_ascii (l1 ++ l2)
  = string_of_list_ascii l1 +:+ string_of_list_ascii l2.
Proof.
  induction l1 as [|c l1 IH]; [done|].
  cbn [app string_of_list_ascii]. by rewrite IH.
Qed.

Lemma list_ascii_of_string_app (s1 s2 : string) :
  list_ascii_of_string (s1 +:+ s2)
  = list_ascii_of_string s1 ++ list_ascii_of_string s2.
Proof.
  induction s1 as [|c s1 IH]; [done|].
  change (String c s1 +:+ s2) with (String c (s1 +:+ s2)).
  cbn [list_ascii_of_string app]. by rewrite IH.
Qed.

(** No white space rune ends with the byte [=], or has it as its first
    or second byte: trimming on the right does not go past a [=]. *)
Lemma spaceWidthRev_stop (xs ys : list ascii) :
  (spaceWidthRev (xs ++ "="%char :: ys) ≤ length xs)%nat.
Proof.
  destruct xs as [|e [|d [|c xs]]]; cbn [app length].
  - destruct ys as [|d [|c ys]]; cbn;
      change (byte "=") with 61; change (asciiSpace "=") with false;
      change (generalPunctuationSpace "=") with false; cbn [Nat.eqb];
      rewrite ?andb_false_r, ?orb_false_r; done.
  - unfold spaceWidthRev. destruct (asciiSpace e); [done|].
    destruct ys as [|c ys]; change (byte "=") with 61; cbn [Nat.eqb andb orb];
      rewrite ?andb_false_r, ?andb_false_l, ?orb_false_r, ?orb_false_l; lia.
  - unfold spaceWidthRev. destruct (asciiSpace e); [lia|].
    destruct (_ && _)%bool; [lia|].
    change (byte "=") with 61; cbn [Nat.eqb andb orb]. lia.
  - pose proof (spaceWidthRev_le [e; d; c]) as Hle.
    unfold spaceWidthRev in *. cbn [app] in *. cbn [length] in Hle. lia.
Qed.

Lemma trimWhile_stop (n : nat) : ∀ (xs ys : list ascii),
  ∃ xs', trimWhile spaceWidthRev n (xs ++ "="%char :: ys) = xs' ++ "="%char :: ys.
Proof.
  induction n as [|n IH]; intros xs ys; [by exists xs|].
  cbn [trimWhile]. pose proof (spaceWidthRev_stop xs ys) as Hle.
  destruct (spaceWidthRev (xs ++ "="%char :: ys)) as [|w]; [by exists xs|].
  rewrite drop_app_le by done. apply IH.
Qed.

(** A string that starts with [regex=] still does once it is trimmed. *)
Lemma strings_TrimSpace_regex (rest : string) :
  ∃ rest', strings_TrimSpace ("regex=" +:+ rest) = "regex=" +:+ rest'.
Proof.
  unfold strings_TrimSpace, trimSpaceBytes. cbv zeta.
  rewrite list_ascii_of_string_app.
  set (bs := list_ascii_of_string "regex=" ++ list_ascii_of_string rest).
  rewrite (trimWhile_fixed spaceWidth (length bs) bs) by done.
  assert (reverse bs
          = reverse (list_ascii_of_string rest)
              ++ "="%char :: ["x"; "e"; "g"; "e"; "r"]%char) as ->
    by (unfold bs; by rewrite reverse_app).
  destruct (trimWhile_stop
              (length (reverse (list_ascii_of_string rest)
                         ++ "="%char :: ["x"; "e"; "g"; "e"; "r"]%char))
              (reverse (list_ascii_of_string rest))
              ["x"; "e"; "g"; "e"; "r"]%char) as [xs' ->].
  exists (string_of_list_ascii (reverse xs')).
  by rewrite reverse_app, string_of_list_ascii_app.
Qed.

Lemma strings_SplitSeq_nonempty s : strings_SplitSeq s "," ≠ [].
Proof.
  destruct s as [|c s]; [done|]. cbn.
  destruct (Ascii.eqb c ","); [done|]. by destruct (strings_SplitSeq s ",").
Qed.

Lemma strings_SplitSeq_sep (a b : string) :
  strings_SplitSeq (a +:+ String "," b) ","
  = strings_SplitSeq a "," ++ strings_SplitSeq b ",".
Proof.
  induction a as [|c a IH]; [done|].
  change (String c a +:+ String "," b) with (String c (a +:+ String "," b)).
  cbn [strings_SplitSeq]. rewrite IH.
  destruct (Ascii.eqb c ","); [done|].
  pose proof (strings_SplitSeq_nonempty a).
  by destruct (strings_SplitSeq a ",").
Qed.

Lemma strings_SplitSeq_elem (rules : list string) (rule piece : string) :
  rule ∈ rules → piece ∈ strings_SplitSeq rule "," →
  piece ∈ strings_SplitSeq (strings_Join rules ",") ",".
Proof.
  unfold strings_Join.
  induction rules as [|rule0 rules IH]; intros Hrule Hpiece;
    [by apply elem_of_nil in Hrule|].
  cbn [String.concat]. destruct rules as [|rule1 rules].
  - apply elem_of_cons in Hrule as [->|[]%elem_of_nil]. done.
  - change ("," +:+ ?s) with (String "," s). rewrite strings_SplitSeq_sep.
    apply elem_of_app. apply elem_of_cons in Hrule as [->|Hrule]; [by left|].
    right. by apply IH.
Qed.

Lemma parseValidate_eq existingVal :
  parseValidate existingVal = cleanRules (strings_SplitSeq existingVal ",").
Proof.
  unfold parseValidate. destruct (String.eqb_spec existingVal "") as [->|?].
  - by vm_compute.
  - by rewrite parseRules_eq.
Qed.

(** Among the rules that are read from a joined rule string that holds
    a generated rule of the key [regex] there is a rule of that key. *)
Lemma parseValidate_regex (rules : list string) (pattern : string) :
  "regex=" +:+ pattern ∈ rules →
  ∃ stored, stored ∈ parseValidate (strings_Join rules ",")
    ∧ getTagKey stored = "regex".
Proof.
  intros Hrule.
  assert (∃ p ps, strings_SplitSeq ("regex=" +:+ pattern) ","
                  = ("regex=" +:+ p) :: ps) as (p & ps & Hsplit).
  { assert (∀ (c : ascii) s p ps, c ≠ ","%char →
              strings_SplitSeq s "," = p :: ps →
              strings_SplitSeq (String c s) "," = String c p :: ps) as Hcons.
    { intros c s p ps Hc Hs. cbn [strings_SplitSeq].
      apply Ascii.eqb_neq in Hc. by rewrite Hc, Hs. }
    pose proof (strings_SplitSeq_nonempty pattern).
    destruct (strings_SplitSeq pattern ",") as [|p ps] eqn:Hpattern; [done|].
    exists p, ps.
    change ("regex=" +:+ pattern)
      with (String "r" (String "e" (String "g" (String "e" (String "x"
              (String "=" pattern)))))).
    by repeat (apply Hcons; [done|]). }
  destruct (strings_TrimSpace_regex p) as [p' Htrim].
  exists ("regex=" +:+ p'). split.
  - rewrite parseValidate_eq. unfold cleanRules.
    apply list_elem_of_filter. split; [done|].
    rewrite <- Htrim. apply list_elem_of_fmap_2.
    eapply strings_SplitSeq_elem; [done|]. rewrite Hsplit. by left.
  - apply (getTagKey_key_value "regex" p' eq_refl).
Qed.


Section comma.
Context {float64 : Type} (fmt_f0 : float64 → string)
  (regexp_Compile : string → option string).
Implicit Types (h : Heap float64) (sv : Schema float64) (v : loc).

(** A turn of the loop in which the merger fails. *)
Lemma enrichProperty_merge_error h (ctx : SchemaContext) (required : list string)
    (propName : string) (propRef : loc) (r : SchemaRef) v sv
    (oapiRules : list string) (err : error) :
  schemaRefs h !! propRef = Some r → Value r = Some v →
  schemas h !! v = Some sv → allocated h v →
  generateRules fmt_f0 regexp_Compile sv = Ok oapiRules →
  mergeRules (storedRules h v) oapiRules = Err err →
  ∃ h',
    enrichProperty fmt_f0 regexp_Compile ctx required propName propRef h
    = Done (Some (errProperty (Name ctx) propName err), h').
Proof.
  intros Hr Hvalue Hv Halloc Hgen Hmerge. unfold enrichProperty.
  erewrite bind_Done by by apply deref_Done. rewrite Hvalue.
  erewrite bind_Done by by apply deref_Done. rewrite Hgen.
  destruct (extractAndResetValidateRules_spec h v sv Hv Halloc)
    as (ext & extMap & Hextract & _).
  cbv zeta in Hextract.
  erewrite bind_Done by exact Hextract. cbv beta iota. rewrite Hmerge. eauto.
Qed.

Lemma mergeRules_elem_of existingRules newRules rules rule :
  mergeRules existingRules newRules = Ok rules →
  rule ∈ rules ↔ rule ∈ cleanRules existingRules ∨ rule ∈ newRules.
Proof.
  unfold mergeRules. rewrite mergeRules_existing_eq. cbn.
  intros Hmerge. eapply mergeRules_new_members in Hmerge; [done|].
  intros key tag. rewrite recordKeys_empty_lookup. by intros [? _]%lastWithKey_Some.
Qed.

(** X22.  A pattern that holds a comma does not
    come back whole.  For a property with such a pattern, a turn of the
    loop that succeeds writes the rule [regex=] with the pattern into the
    rule string, where the commas part the rules; the same turn once more
    reads a piece of it as a stored rule of the key [regex], which
    differs from the generated rule, and fails with a conflict. *)
Theorem enrichProperty_comma_pattern h (ctx : SchemaContext)
    (required : list string) (propName : string) (propRef : loc)
    (r : SchemaRef) v sv (oapiRules rules : list string) :
  schemaRefs h !! propRef = Some r → Value r = Some v →
  schemas h !! v = Some sv → allocated h v →
  generateRules fmt_f0 regexp_Compile sv = Ok oapiRules →
  mergeRules (storedRules h v) oapiRules = Ok rules →
  ¬ commaFree (Pattern sv) →
  ∃ h1 h2 existingTag tag,
    enrichProperty fmt_f0 regexp_Compile ctx required propName propRef h
    = Done (None, h1)
    ∧ "regex=" +:+ Pattern sv ∈ rules
    ∧ enrichProperty fmt_f0 regexp_Compile ctx required propName propRef h1
      = Done (Some (errProperty (Name ctx) propName (errConflict existingTag tag)),
              h2).
Proof.
  intros Hr Hvalue Hv Halloc Hgen Hmerge Hcomma.
  assert (Pattern sv ≠ "") as Hpattern.
  { intros Heq. apply Hcomma. rewrite Heq. apply not_elem_of_nil. }
  assert ("regex=" +:+ Pattern sv ∈ oapiRules) as Hgenerated.
  { rewrite (generateRules_Ok _ _ _ _ Hgen). unfold patternRules.
    rewrite decide_False by done. apply elem_of_app. left. apply list_elem_of_here. }
  assert ("regex=" +:+ Pattern sv ∈ rules) as Hrule
    by (apply (mergeRules_elem_of _ _ _ _ Hmerge); by right).
  destruct (enrichProperty_written fmt_f0 regexp_Compile h ctx required propName
              propRef r v sv oapiRules rules Hr Hvalue Hv Halloc Hgen Hmerge)
    as (h1 & ext & extMap & extensions1 & Hrun & Hrefs & Hschemas & Hext & Htag
        & HextMap & _).
  { right. intros ->. by apply elem_of_nil in Hrule. }
  set (prefix := if slices_Contains required propName
                 then "required" else "omitempty") in *.
  assert (schemas h1 !! v = Some (withExtensions sv (Some ext))) as Hv1
    by (by rewrite Hschemas, lookup_insert_eq).
  destruct (extensions_view h1 v _ ext extMap extensions1 _ Hv1 eq_refl Hext Htag
              HextMap) as (_ & _ & Hstored1 & Halloc1).
  rewrite lookup_insert_eq in Hstored1.
  destruct (parseValidate_regex (prefix :: rules) (Pattern sv))
    as (stored & Hstored & Hkey); [by right|].
  assert (storedRules h1 v = parseValidate (strings_Join (prefix :: rules) ","))
    as Hrules1 by (by rewrite storedRules_parseValidate, Hstored1).
  rewrite <- Hrules1 in Hstored.
  destruct (proj2 (lastWithKey_is_Some (storedRules h1 v) "regex"))
    as [existingTag Hlast].
  { rewrite <- Hkey. by apply list_elem_of_fmap_2. }
  assert (existingTag ≠ "regex=" +:+ Pattern sv) as Hne.
  { intros ->. apply lastWithKey_Some in Hlast as [Hin _].
    pose proof (storedRules_Forall h1 v) as Hclean.
    eapply Forall_forall in Hclean as [_ Hfree]; [|exact Hin].
    apply Hcomma. intros Hc. apply Hfree. unfold commaFree.
    rewrite list_ascii_of_string_app, elem_of_app. by right. }
  destruct (mergeRules_spec (storedRules h1 v) oapiRules) as (_ & Herr & Hconflict).
  rewrite storedRules_clean in Herr.
  destruct Herr as [_ [err Hmerge1]].
  { left. exists ("regex=" +:+ Pattern sv), existingTag. split; [done|]. split; [|done].
    assert (getTagKey ("regex=" +:+ Pattern sv) = "regex") as ->
      by exact (proj1 (getTagKey_key_value "regex" (Pattern sv) eq_refl)).
    done. }
  destruct (Hconflict err Hmerge1) as (existingTag' & tag' & ->).
  destruct (enrichProperty_merge_error h1 ctx required propName propRef r v _
              oapiRules _ ltac:(by rewrite Hrefs) Hvalue Hv1 Halloc1 Hgen Hmerge1)
    as [h2 Hrun2].
  by exists h1, h2, existingTag', tag'.
Qed.
End comma.


(** The pattern [^[a-z]{1,3}$]: the second turn finds the stored
    [regex=^[a-z]{1] against the generated rule. *)
Lemma enrichProperty_comma_pattern_witness :
  ∃ h1 h2 existingTag tag,
    enrichProperty fmt_f0_integer noPattern codeCtx [] "code" 2
      (codeHeap (patternSchema (Some 10%positive) "^[a-z]{1,3}$") "manual_tag")
    = Done (None, h1)
    ∧ "regex=^[a-z]{1,3}$" ∈ ["manual_tag"; "regex=^[a-z]{1,3}$"]
    ∧ enrichProperty fmt_f0_integer noPattern codeCtx [] "code" 2 h1
      = Done (Some (errProperty "Code" "code" (errConflict existingTag tag)), h2).
Proof.
  apply (enrichProperty_comma_pattern fmt_f0_integer noPattern
           (codeHeap (patternSchema (Some 10%positive) "^[a-z]{1,3}$") "manual_tag")
           codeCtx [] "code" 2 (inlineRef 2) 2
           (patternSchema (Some 10%positive) "^[a-z]{1,3}$")
           ["regex=^[a-z]{1,3}$"] ["manual_tag"; "regex=^[a-z]{1,3}$"]
           eq_refl eq_refl eq_refl
           (codeHeap_allocated (patternSchema (Some 10%positive) "^[a-z]{1,3}$")
              "manual_tag" eq_refl)
           eq_refl eq_refl).
  intros Hfree. apply Hfree. apply (bool_decide_unpack _). by vm_compute.
Defined.

(** ** When the generated rules have distinct keys *)

Section distinct.
Context {float64 : Type} (fmt_f0 : float64 → string)
  (regexp_Compile : string → option string).

Lemma getTagKey_generated (value : string) :
  getTagKey ("regex=" +:+ value) = "regex"
  ∧ getTagKey ("min=" +:+ value) = "min" ∧ getTagKey ("max=" +:+ value) = "max"
  ∧ getTagKey ("gt=" +:+ value) = "gt" ∧ getTagKey ("lt=" +:+ value) = "lt".
Proof.
  repeat split.
  - exact (proj1 (getTagKey_key_value "regex" value eq_refl)).
  - exact (proj1 (getTagKey_key_value "min" value eq_refl)).
  - exact (proj1 (getTagKey_key_value "max" value eq_refl)).
  - exact (proj1 (getTagKey_key_value "gt" value eq_refl)).
  - exact (proj1 (getTagKey_key_value "lt" value eq_refl)).
Qed.

(** X23.  The rules that [generateRules] returns
    have pairwise distinct keys exactly when at most one check of the
    schema gives a rule of the key [min] and at most one a rule of the
    key [max]: of the string length, the inclusive numeric bound and the
    array cardinality.  With no stored rule, the merger then returns the
    generated rules as they are. *)
Theorem generateRules_distinct_keys (s : Schema float64) (rules : list string) :
  generateRules fmt_f0 regexp_Compile s = Ok rules →
  (NoDup (getTagKey <$> rules) ↔ (minSources s ≤ 1 ∧ maxSources s ≤ 1)%nat)
  ∧ ((minSources s ≤ 1 ∧ maxSources s ≤ 1)%nat → mergeRules [] rules = Ok rules).
Proof.
  intros ->%generateRules_Ok.
  assert (NoDup (getTagKey <$> patternRules s ++ lengthRules s
                   ++ boundRules fmt_f0 s ++ itemRules s ++ formatRules s)
          ↔ (minSources s ≤ 1 ∧ maxSources s ≤ 1)%nat) as Hiff.
  { unfold patternRules, lengthRules, boundRules, itemRules, formatRules,
      minSources, maxSources, slices_Contains. cbn [existsb].
    destruct (decide (Pattern s = "")), (decide (0 < MinLength s)%N),
      (MaxLength s), (decide (0 < MinItems s)%N), (MaxItems s), (UniqueItems s);
      (destruct (Min s); [destruct (ExclusiveMin s)|]);
      (destruct (Max s); [destruct (ExclusiveMax s)|]);
      repeat match goal with
             | |- context [String.eqb (Format s) ?x] =>
                 destruct (String.eqb_spec (Format s) x) as [->|?]
             end;
      cbn [orb app fmap list_fmap];
      repeat match goal with
             | |- context [getTagKey (?k +:+ ?x)] =>
                 first
                   [ rewrite (proj1 (getTagKey_generated x))
                   | rewrite (proj1 (proj2 (getTagKey_generated x)))
                   | rewrite (proj1 (proj2 (proj2 (getTagKey_generated x))))
                   | rewrite (proj1 (proj2 (proj2 (proj2 (getTagKey_generated x)))))
                   | rewrite (proj2 (proj2 (proj2 (proj2 (getTagKey_generated x))))) ]
             end;
      apply (bool_decide_unpack _); by vm_compute. }
  split; [done|]. intros Hsources. by apply mergeRules_no_existing, Hiff.
Qed.
End distinct.


Lemma generateRules_distinct_keys_witness :
  NoDup (getTagKey <$> ["min=5"; "max=10"])
  ∧ mergeRules [] ["min=5"; "max=10"] = Ok ["min=5"; "max=10"].
Proof.
  destruct (generateRules_distinct_keys fmt_f0_integer noPattern stringMinMax
              ["min=5"; "max=10"] eq_refl) as [Hiff Hmerge].
  assert (minSources (@stringMinMax Z) ≤ 1 ∧ maxSources (@stringMinMax Z) ≤ 1)%nat
    as Hsources by (by vm_compute; split; lia).
  split; [by apply Hiff|by apply Hmerge].
Defined.

(** ** The bound on the depth of the traversal *)

Lemma range_Done_mono {St A L} (xs : list A)
    (body body' : A → L → action St (bool * L)) :
  (∀ x l s r, body x l s = Done r → body' x l s = Done r) →
  ∀ l s r, range xs body l s = Done r → range xs body' l s = Done r.
Proof.
  intros Hbody. induction xs as [|x xs IH]; intros l s [l' s']; [done|].
  cbn [range]. intros ([more l1] & s1 & Hx & Hrest)%bind_Done_inv.
  erewrite bind_Done by by apply Hbody.
  destruct more; [by apply IH|done].
Qed.

Section fuel.
Context {float64 : Type} (fmt_f0 : float64 → string)
  (regexp_Compile : string → option string).

Lemma getChildren_Done_mono (ctx : SchemaContext) {L}
    (yield yield' : SchemaContext → L → action (Heap float64) (bool * L)) :
  (∀ x l h r, yield x l h = Done r → yield' x l h = Done r) →
  ∀ l h r, getChildren ctx L yield l h = Done r →
    getChildren ctx L yield' l h = Done r.
Proof.
  intros Hyield l h [l' h']. unfold getChildren.
  intros (sv & h0 & Hsv & Hrest)%bind_Done_inv.
  erewrite bind_Done by done. revert Hrest. apply range_Done_mono.
  intros [propName propRef] l0 h0' [r0 h0''].
  intros (ref & h1 & Href & Hrest)%bind_Done_inv.
  erewrite bind_Done by done. destruct (Value ref); [by apply Hyield|done].
Qed.

Lemma walk_S {St T L} (getChildren : T → Seq St T)
    (yield : T → L → action St (bool * L)) (fuel : nat) (n : T) (l : L) :
  walk (S fuel) getChildren yield n l
  = ('(more, l) ← yield n l;
     if negb more then mret (false, l) else
     getChildren n (bool * L)%type
       (λ child '(ret, l),
          '(more, l) ← walk fuel getChildren yield child l;
          if negb more then mret (false, (false, l))
          else mret (true, (ret, l)))
       (true, l)).
Proof. reflexivity. Qed.

Lemma walk_fuel {L}
    (yield : SchemaContext → L → action (Heap float64) (bool * L)) (fuel : nat) :
  ∀ ctx l h r,
    walk fuel getChildren yield ctx l h = Done r →
    walk (S fuel) getChildren yield ctx l h = Done r.
Proof.
  induction fuel as [|fuel IH]; intros ctx l h [r h']; [done|].
  rewrite (walk_S _ _ (S fuel)), (walk_S _ _ fuel).
  intros ([more l1] & h1 & Hyield & Hrest)%bind_Done_inv.
  erewrite bind_Done by done. cbv beta iota.
  destruct (negb more); [done|]. revert Hrest.
  apply getChildren_Done_mono.
  intros child [ret l2] h2 [r2 h2'] ([more' l3] & h3 & Hchild & Hrest)%bind_Done_inv.
  erewrite bind_Done by by apply IH. done.
Qed.

(** X24.  The bound on the depth of the traversal is a bound
    and no more: a pass that returns within a bound returns the same
    error, and leaves the same heap, within every larger bound. *)
Theorem enrichSpec_fuel (fuel fuel' : nat) doc h errs h' :
  (fuel ≤ fuel')%nat →
  enrichSpec fmt_f0 regexp_Compile fuel doc h = Done (errs, h') →
  enrichSpec fmt_f0 regexp_Compile fuel' doc h = Done (errs, h').
Proof.
  induction 1 as [|fuel' _ IH]; [done|]. intros Hrun%IH. revert Hrun.
  unfold enrichSpec. intros (c & h0 & Hc & Hrun)%bind_Done_inv.
  erewrite bind_Done by done. revert Hrun.
  unfold PreOrder, toSchemaContext. apply range_Done_mono.
  intros [name ref] l h1 [r h1'] (sref & h2 & Href & Hrest)%bind_Done_inv.
  erewrite bind_Done by done. destruct (Value sref); [|done].
  apply bind_Done_inv in Hrest as ([] & h3 & Hset & Hwalk).
  erewrite bind_Done by done. by apply walk_fuel.
Qed.
End fuel.

Lemma enrichSpec_fuel_witness :
  ∃ h',
    enrichSpec fmt_f0_integer noPattern 2 userDoc userHeap = Done (None, h')
    ∧ enrichSpec fmt_f0_integer noPattern 7 userDoc userHeap = Done (None, h').
Proof.
  eexists. split; [by vm_compute|].
  apply (enrichSpec_fuel fmt_f0_integer noPattern 2 7); [lia|by vm_compute].
Defined.
